(** * Widget bridge and sandbox lifecycle of the MCP inspector

  A shallow embedding of the parts of [MCPAppsRenderer.tsx] (the SEP-1865
  renderer: policy-string builder, inbound message handler, re-initialisation
  debounce, tool-input and tool-output pushes, bridge teardown) and of the
  debug controls (suggested CSP fix, agent prompt) that the specification
  makes statements about.

  Conventions.
  - A JavaScript string is a [string]: a sequence of code units, here
    restricted to the one-byte range (U+0000 to U+00FF).
  - [Date.now()] and timer deadlines are integers ([Z], milliseconds).
  - An optional property ([x?: T], possibly [undefined]) is an [option].
  - A plain object used as a record of properties is an association list
    in property order; keys are assumed not to be array indices (which
    JavaScript would enumerate first). *)

From stdpp Require Import base list strings pretty sorting.
From Stdlib Require Import ZArith Ascii Lia.

Local Open Scope Z_scope.

(** ** JavaScript string primitives *)

Module JS.

(** WhiteSpace and LineTerminator code units below U+0100, the ones
    [String.prototype.trim] removes. *)
Definition is_white_space (c : ascii) : bool :=
  match c with
  | "009" | "010" | "011" | "012" | "013" | " " | "160" => true
  | _ => false
  end%char.

Fixpoint trimStart (s : string) : string :=
  match s with
  | EmptyString => EmptyString
  | String c s' => if is_white_space c then trimStart s' else s
  end.

Fixpoint trimEnd (s : string) : string :=
  match s with
  | EmptyString => EmptyString
  | String c s' =>
      match trimEnd s' with
      | EmptyString => if is_white_space c then EmptyString else String c EmptyString
      | r => String c r
      end
  end.

Definition trim (s : string) : string := trimEnd (trimStart s).

(** [s.startsWith(p)] *)
Fixpoint startsWith (p s : string) : bool :=
  match p, s with
  | EmptyString, _ => true
  | String a p', String b s' => if decide (a = b) then startsWith p' s' else false
  | String _ _, EmptyString => false
  end.

(** [s.replace(re, empty)] for a global regular expression [re] that is one
    character class, given as a predicate: every match is deleted. *)
Fixpoint remove_class (cls : ascii → bool) (s : string) : string :=
  match s with
  | EmptyString => EmptyString
  | String c s' =>
      if cls c then remove_class cls s' else String c (remove_class cls s')
  end.

(** [s.replace(pat, rep)] with a string pattern and a replacement that
    holds no dollar sign: the first occurrence only. *)
Fixpoint replace (pat rep s : string) : string :=
  if startsWith pat s then rep +:+ String.substring (String.length pat) (String.length s - String.length pat) s
  else match s with
       | EmptyString => EmptyString
       | String c s' => String c (replace pat rep s')
       end.

(** [xs.join(sep)] *)
Fixpoint join (sep : string) (xs : list string) : string :=
  match xs with
  | [] => EmptyString
  | [x] => x
  | x :: rest => x +:+ sep +:+ join sep rest
  end.

(** [Boolean(s)] for a string: the empty string is the only falsy one. *)
Definition truthy_string (s : string) : bool :=
  match s with EmptyString => false | _ => true end.

(** Code units of a string, and how often one occurs. *)
Fixpoint chars (s : string) : list ascii :=
  match s with
  | EmptyString => []
  | String c s' => c :: chars s'
  end.

Fixpoint count_char (c : ascii) (s : string) : nat :=
  match s with
  | EmptyString => 0%nat
  | String d s' => ((if decide (c = d) then 1 else 0) + count_char c s')%nat
  end.

(** [s.toLowerCase()] on one-byte code units: A-Z, and the Latin-1
    capitals U+00C0 to U+00DE except the multiplication sign U+00D7. *)
Definition lower_char (c : ascii) : ascii :=
  let n := nat_of_ascii c in
  if ((65 <=? n)%nat && (n <=? 90)%nat)
     || ((192 <=? n)%nat && (n <=? 222)%nat && negb (n =? 215)%nat)
  then ascii_of_nat (n + 32) else c.

Fixpoint toLowerCase (s : string) : string :=
  match s with
  | EmptyString => EmptyString
  | String c s' => String (lower_char c) (toLowerCase s')
  end.

End JS.

(** ** The policy-string builder ([buildCSPString]) *)

Module Csp.

(** Modelled from the spec: the type [WidgetDeclaredCsp] is declared in
    the widget debug context, which is not among the sources. These are the
    four domain sets of the Declared CSP of the specification, each optional,
    as [buildCSPString] and [computeSuggestedFix] read them. *)
Record WidgetDeclaredCsp := {
  connectDomains : option (list string);
  resourceDomains : option (list string);
  frameDomains : option (list string);
  baseUriDomains : option (list string)
}.

(** The character class of the regular expression in [sanitize]: single
    quote, double quote (code unit 34), angle brackets and semicolon. *)
Definition forbidden (c : ascii) : bool :=
  match c with
  | "'" | "034" | "<" | ">" | ";" => true
  | _ => false
  end%char.

(** [sanitize]: delete every character of the class, then [trim]. *)
Definition sanitize (d : string) : string :=
  JS.trim (JS.remove_class forbidden d).

(** [(list || []).map(sanitize).filter(Boolean)] *)
Definition domains (declared : option (list string)) : list string :=
  filter (λ d, JS.truthy_string d = true) (sanitize <$> default [] declared).

Definition connectSrc (csp : WidgetDeclaredCsp) : string :=
  let l := domains (connectDomains csp) in
  if decide (0 < length l)%nat then JS.join " " l else "'none'".

Definition resourceSrc (csp : WidgetDeclaredCsp) : string :=
  let l := domains (resourceDomains csp) in
  if decide (0 < length l)%nat then JS.join " " ("data:" :: "blob:" :: l)
  else "data: blob:".

Definition frameSrc (csp : WidgetDeclaredCsp) : string :=
  let l := domains (frameDomains csp) in
  if decide (0 < length l)%nat then JS.join " " l else "'none'".

Definition baseUri (csp : WidgetDeclaredCsp) : string :=
  let l := domains (baseUriDomains csp) in
  if decide (0 < length l)%nat then JS.join " " l else "'none'".

(** The array literal that [buildCSPString] joins. *)
Definition directives (csp : WidgetDeclaredCsp) : list string :=
  [ "default-src 'none'";
    "script-src 'unsafe-inline' " +:+ resourceSrc csp;
    "style-src 'unsafe-inline' " +:+ resourceSrc csp;
    "img-src " +:+ resourceSrc csp;
    "font-src " +:+ resourceSrc csp;
    "media-src " +:+ resourceSrc csp;
    "connect-src " +:+ connectSrc csp;
    "frame-src " +:+ frameSrc csp;
    "object-src 'none'";
    "base-uri " +:+ baseUri csp ].

Definition buildCSPString (csp : WidgetDeclaredCsp) : string :=
  JS.join "; " (directives csp).

(** How a user agent reads a policy string back: the directives are the
    pieces between semicolons, each stripped of surrounding white space. *)
Fixpoint split_semicolon (s : string) : list string :=
  match s with
  | EmptyString => [EmptyString]
  | String c s' =>
      if decide (c = ";"%char) then EmptyString :: split_semicolon s'
      else match split_semicolon s' with
           | piece :: rest => String c piece :: rest
           | [] => [String c EmptyString]
           end
  end.

Definition policy_directives (policy : string) : list string :=
  JS.trim <$> split_semicolon policy.

(** The value of the first directive called [name], if there is one. *)
Fixpoint directive_value (name : string) (ds : list string) : option string :=
  match ds with
  | [] => None
  | d :: rest =>
      if JS.startsWith (name +:+ " ") d
      then Some (String.substring (S (String.length name))
                   (String.length d - S (String.length name)) d)
      else directive_value name rest
  end.

Definition policy_directive (name policy : string) : option string :=
  directive_value name (policy_directives policy).

(** The value of a directive that lists sources, and of one that lists
    resources. *)
Definition source_list (tokens : list string) : string :=
  match tokens with
  | [] => "'none'"
  | _ => JS.join " " tokens
  end.

Definition resource_list (tokens : list string) : string :=
  JS.join " " ("data:" :: "blob:" :: tokens).





(** A declared domain that sanitizing leaves as it is. *)
Definition already_clean (d : string) : Prop :=
  d ≠ EmptyString ∧ sanitize d = d.

(** The connect-src directive as the specification words it: ['none'] for
    an empty or absent list, the declared origins joined by single spaces for
    any other list. *)
Definition connect_src_as_declared (csp : WidgetDeclaredCsp) : Prop :=
  policy_directive "connect-src" (buildCSPString csp)
  = Some (match connectDomains csp with
          | None | Some [] => "'none'"
          | Some l => JS.join " " l
          end).

End Csp.

(** ** JSON values and [JSON.stringify] *)

Module Json.

Set Warnings "-register-all".

(** Structured values as they travel over the bridge. Numbers are restricted
    to the integers that JavaScript prints in full (below 10^21 in absolute
    value; [JSON.stringify] prints larger ones with an exponent);
    [undefined] is the absence of a property. *)
Inductive json :=
| JNull
| JBool (b : bool)
| JNum (n : Z)
| JStr (s : string)
| JArr (items : list json)
| JObj (props : list (string * json)).

(** [o[k]] on a plain object; [None] is [undefined]. *)
Fixpoint lookup_prop (k : string) (ps : list (string * json)) : option json :=
  match ps with
  | [] => None
  | (k', v) :: rest => if decide (k = k') then Some v else lookup_prop k rest
  end.

(** [v?.k]: only plain objects carry the properties read here. *)
Definition get (k : string) (v : json) : option json :=
  match v with
  | JObj ps => lookup_prop k ps
  | _ => None
  end.

(** [o[k] = v]: an existing property keeps its place, a new one goes last. *)
Fixpoint set_prop (k : string) (v : json) (ps : list (string * json))
  : list (string * json) :=
  match ps with
  | [] => [(k, v)]
  | (k', v') :: rest =>
      if decide (k = k') then (k, v) :: rest else (k', v') :: set_prop k v rest
  end.

(** [{...a, ...b}] continued: the properties of [b] assigned onto [a]. *)
Definition assign (a b : list (string * json)) : list (string * json) :=
  foldl (λ acc kv, set_prop kv.1 kv.2 acc) a b.

(** JavaScript truthiness of a value. *)
Definition truthy (v : json) : bool :=
  match v with
  | JNull => false
  | JBool b => b
  | JNum n => negb (n =? 0)
  | JStr s => JS.truthy_string s
  | JArr _ | JObj _ => true
  end.

Definition dquote : string := String "034"%char EmptyString.
Definition newline : string := String "010"%char EmptyString.

Definition hex_digit (n : nat) : ascii :=
  match n with
  | 0 => "0" | 1 => "1" | 2 => "2" | 3 => "3" | 4 => "4" | 5 => "5"
  | 6 => "6" | 7 => "7" | 8 => "8" | 9 => "9" | 10 => "a" | 11 => "b"
  | 12 => "c" | 13 => "d" | 14 => "e" | _ => "f"
  end%char%nat.

(** One code unit inside a JSON string literal. *)
Definition escape_char (c : ascii) : string :=
  if decide (c = "034"%char) then "\" +:+ dquote
  else if decide (c = "\"%char) then "\\"
  else if decide (c = "008"%char) then "\b"
  else if decide (c = "009"%char) then "\t"
  else if decide (c = "010"%char) then "\n"
  else if decide (c = "012"%char) then "\f"
  else if decide (c = "013"%char) then "\r"
  else
    let n := nat_of_ascii c in
    if (n <? 32)%nat
    then "\u00" +:+ String (hex_digit (n / 16)) (String (hex_digit (n mod 16)) EmptyString)
    else String c EmptyString.

Fixpoint escape (s : string) : string :=
  match s with
  | EmptyString => EmptyString
  | String c s' => escape_char c +:+ escape s'
  end.

Definition quote (s : string) : string := dquote +:+ escape s +:+ dquote.

(** [JSON.stringify(v)] *)
Fixpoint stringify (v : json) : string :=
  match v with
  | JNull => "null"
  | JBool true => "true"
  | JBool false => "false"
  | JNum n => pretty n
  | JStr s => quote s
  | JArr items => "[" +:+ JS.join "," (map stringify items) +:+ "]"
  | JObj props =>
      "{" +:+ JS.join "," (map (λ kv, quote kv.1 +:+ ":" +:+ stringify kv.2) props) +:+ "}"
  end.

(** [JSON.stringify(v, null, gap)] with the current indentation [ind]. *)
Fixpoint stringify_indented (gap ind : string) (v : json) : string :=
  let ind' := ind +:+ gap in
  let sep := "," +:+ newline +:+ ind' in
  match v with
  | JArr [] => "[]"
  | JArr items =>
      "[" +:+ newline +:+ ind'
      +:+ JS.join sep (map (stringify_indented gap ind') items)
      +:+ newline +:+ ind +:+ "]"
  | JObj [] => "{}"
  | JObj props =>
      "{" +:+ newline +:+ ind'
      +:+ JS.join sep
            (map (λ kv, quote kv.1 +:+ ": " +:+ stringify_indented gap ind' kv.2) props)
      +:+ newline +:+ ind +:+ "}"
  | _ => stringify v
  end.

Definition strings (l : list string) : json := JArr (JStr <$> l).

End Json.

(** ** Suggested CSP fix ([computeSuggestedFix]) *)

Module SuggestedFix.

(** Modelled from the spec: the type [CspViolation] is declared in the
    widget debug context, which is not among the sources. These are the fields
    of the CSP violation record of the specification, the ones
    [handleSandboxMessage] passes to [addCspViolation]. A string field may be
    missing, since the record is filled from the data of a message. *)
Record CspViolation := {
  directive : option string;
  effectiveDirective : option string;
  blockedUri : option string;
  sourceFile : option string;
  lineNumber : option Z;
  columnNumber : option Z;
  originalPolicy : option string;
  timestamp : Z
}.

Record SuggestedFixResult := {
  fixConnectDomains : list string;
  fixResourceDomains : list string;
  fixFrameDomains : option (list string)
}.

(** [a || b] on optional strings: the empty string is falsy too. *)
Definition or_else (a : option string) (b : string) : string :=
  match a with
  | Some s => if JS.truthy_string s then s else b
  | None => b
  end.

(** A [Set] of strings keeps insertion order and ignores repeats. *)
Definition set_add (x : string) (s : list string) : list string :=
  if decide (x ∈ s) then s else s ++ [x].

Definition set_of_list (l : list string) : list string :=
  foldl (λ s x, set_add x s) [] l.

(** [Array.prototype.sort()] without a comparator orders strings by their
    code units. *)
Definition sort (l : list string) : list string := merge_sort String.le l.

Definition RESOURCE_DIRECTIVES : list string :=
  ["script-src"; "style-src"; "img-src"; "font-src"; "media-src"].
Definition CONNECT_DIRECTIVE : string := "connect-src".
Definition FRAME_DIRECTIVE : string := "frame-src".

(** The three sets the loop of [computeSuggestedFix] updates. *)
Record sets := {
  connectSet : list string;
  resourceSet : list string;
  frameSet : list string
}.

(** The guard at the top of the loop body: the trimmed URI is empty, is
    the inline marker, or is a blob or data URI. *)
Definition skipped_uri (uri : string) : bool :=
  negb (JS.truthy_string uri)
  || bool_decide (uri = "(inline)")
  || JS.startsWith "blob:" uri
  || JS.startsWith "data:" uri.

Definition violation_uri (v : CspViolation) : string :=
  JS.trim (or_else (blockedUri v) "").

Definition violation_dir (v : CspViolation) : string :=
  JS.toLowerCase (or_else (effectiveDirective v) (or_else (directive v) "")).

(** What the connect branch adds next to an http or https origin. *)
Definition connect_add (origin : string) (s : list string) : list string :=
  let s := set_add origin s in
  if JS.startsWith "http://" origin
  then set_add (JS.replace "http://" "ws://" origin) s
  else if JS.startsWith "https://" origin
       then set_add (JS.replace "https://" "wss://" origin) s
       else s.

Section WithURL.

(** [new URL(uri).origin] is the platform's; [None] stands for the
    constructor throwing. *)
Context (URL_origin : string → option string).

(** One iteration of [for (const v of violations)]. *)
Definition visit (st : sets) (v : CspViolation) : sets :=
  let uri := violation_uri v in
  if skipped_uri uri then st
  else match URL_origin uri with
       | None => st
       | Some origin =>
           if negb (JS.truthy_string origin) then st
           else
             let dir := violation_dir v in
             if decide (dir = CONNECT_DIRECTIVE) then
               {| connectSet := connect_add origin (connectSet st);
                  resourceSet := resourceSet st;
                  frameSet := frameSet st |}
             else if decide (dir ∈ RESOURCE_DIRECTIVES) then
               {| connectSet := connectSet st;
                  resourceSet := set_add origin (resourceSet st);
                  frameSet := frameSet st |}
             else if decide (dir = FRAME_DIRECTIVE) then
               {| connectSet := connectSet st;
                  resourceSet := resourceSet st;
                  frameSet := set_add origin (frameSet st) |}
             else st
       end.

Definition initial_sets (currentDeclared : option Csp.WidgetDeclaredCsp) : sets :=
  {| connectSet := set_of_list (default [] (currentDeclared ≫= Csp.connectDomains));
     resourceSet := set_of_list (default [] (currentDeclared ≫= Csp.resourceDomains));
     frameSet := set_of_list (default [] (currentDeclared ≫= Csp.frameDomains)) |}.

Definition computeSuggestedFix (violations : list CspViolation)
    (currentDeclared : option Csp.WidgetDeclaredCsp) : SuggestedFixResult :=
  let st := foldl visit (initial_sets currentDeclared) violations in
  {| fixConnectDomains := sort (connectSet st);
     fixResourceDomains := sort (resourceSet st);
     fixFrameDomains :=
       if decide (0 < length (frameSet st))%nat then Some (sort (frameSet st)) else None |}.

End WithURL.

(** A stand-in for the platform's URL parser on the plain URLs of the
    examples: the origin is the text up to the first slash after the [://]
    of the scheme; there is no origin without [://]. *)
Fixpoint upto_slash (s : string) : string :=
  match s with
  | EmptyString => EmptyString
  | String c s' => if decide (c = "/"%char) then EmptyString else String c (upto_slash s')
  end.

Fixpoint plain_origin (s : string) : option string :=
  if JS.startsWith "://" s
  then Some ("://" +:+ upto_slash (String.substring 3 (String.length s - 3) s))
  else match s with
       | EmptyString => None
       | String c s' => String c <$> plain_origin s'
       end.

End SuggestedFix.

(** ** The prompt for agents ([buildAgentCspPrompt], [agentPrompt]) *)

Module AgentPrompt.
Import Json SuggestedFix.

Definition MCP_APPS_CSP_SPEC_URL : string :=
  "https://raw.githubusercontent.com/modelcontextprotocol/ext-apps/bcfffb6585ea4fb1e3a9da39fb8911b83399fa71/specification/2026-01-26/apps.mdx".
Definition MCP_USE_CSP_DOCS_URL : string :=
  "https://mcp-use.com/docs/typescript/server/csp".

Inductive CspMode := Permissive | WidgetDeclared.

(** [JSON.stringify(list ?? [])] *)
Definition stringify_domains (l : option (list string)) : string :=
  stringify (strings (default [] l)).

Definition declared_lines (declaredCsp : option Csp.WidgetDeclaredCsp) : list string :=
  match declaredCsp with
  | Some d =>
      [ "connectDomains: " +:+ stringify_domains (Csp.connectDomains d);
        "resourceDomains: " +:+ stringify_domains (Csp.resourceDomains d);
        "frameDomains: " +:+ stringify_domains (Csp.frameDomains d);
        "baseUriDomains: " +:+ stringify_domains (Csp.baseUriDomains d) ]
  | None => ["No CSP declared."]
  end.

Definition policy_lines (effectivePolicy : option string) : list string :=
  match effectivePolicy with
  | Some p => if JS.truthy_string p
              then ["**Effective policy (originalPolicy):**"; "```"; p; "```"; ""]
              else []
  | None => []
  end.

(** [v.effectiveDirective || v.directive] inside a template literal. *)
Definition shown_directive (v : CspViolation) : string :=
  match effectiveDirective v with
  | Some s => if JS.truthy_string s then s else default "undefined" (directive v)
  | None => default "undefined" (directive v)
  end.

Definition violation_line (v : CspViolation) : string :=
  "- " +:+ shown_directive v +:+ ": " +:+ or_else (blockedUri v) "(inline)".

Definition violation_lines (violations : list CspViolation) : list string :=
  if decide (0 < length violations)%nat
  then ("**Blocked requests (" +:+ pretty (length violations) +:+ "):**")
         :: (violation_line <$> violations) ++ [""]
  else [].

Definition fix_json (f : SuggestedFixResult) : json :=
  JObj ([ ("connectDomains", strings (fixConnectDomains f));
          ("resourceDomains", strings (fixResourceDomains f)) ]
        ++ match fixFrameDomains f with
           | Some l => if decide (0 < length l)%nat then [("frameDomains", strings l)] else []
           | None => []
           end).

Definition fix_lines (suggestedFix : option SuggestedFixResult) : list string :=
  match suggestedFix with
  | Some f =>
      [ "**Apply this CSP config to fix the violations:**";
        "Add these domains to the widget's CSP metadata (appsSdkMetadata["
          +:+ dquote +:+ "openai/widgetCSP" +:+ dquote
          +:+ "] or resource _meta.ui.csp). Use camelCase for MCP Apps (connectDomains, resourceDomains) or snake_case for OpenAI format (connect_domains, resource_domains).";
        "";
        "```json";
        stringify_indented "  " "" (fix_json f);
        "```" ]
  | None => ["No blocked requests - no fix needed."]
  end.

Definition buildAgentCspPrompt (declaredCsp : option Csp.WidgetDeclaredCsp)
    (effectivePolicy : option string) (violations : list CspViolation)
    (suggestedFix : option SuggestedFixResult) : string :=
  JS.join newline
    ([ "Fix the Content Security Policy (CSP) for this MCP Apps widget. The widget has CSP violations that block network requests and resources.";
       "";
       "**References:**";
       "- MCP Apps CSP spec: " +:+ MCP_APPS_CSP_SPEC_URL;
       "- mcp-use CSP docs: " +:+ MCP_USE_CSP_DOCS_URL;
       "";
       "**Current declared CSP:**" ]
     ++ declared_lines declaredCsp ++ [""]
     ++ policy_lines effectivePolicy
     ++ violation_lines violations
     ++ fix_lines suggestedFix).

Section Controls.
Context (URL_origin : string → option string).

(** Modelled from the spec: the debug state of one widget is declared in
    the widget debug context, which is not among the sources. These are the
    three fields of it that [MCPAppsDebugControls] reads for the prompt. *)
Record WidgetDebug := {
  cspViolations : list CspViolation;
  declaredCsp : option Csp.WidgetDeclaredCsp;
  effectivePolicy : option string
}.

Definition suggestedFix (cspMode : CspMode) (w : WidgetDebug) : option SuggestedFixResult :=
  match cspMode with
  | WidgetDeclared =>
      if decide (0 < length (cspViolations w))%nat
      then Some (computeSuggestedFix URL_origin (cspViolations w) (declaredCsp w))
      else None
  | Permissive => None
  end.

(** The guard of both the prompt and its section: [length > -1]. *)
Definition prompt_guard (w : WidgetDebug) : bool :=
  Z.of_nat (length (cspViolations w)) >? -1.

Definition agentPrompt (cspMode : CspMode) (w : WidgetDebug) : string :=
  if prompt_guard w
  then buildAgentCspPrompt (declaredCsp w) (effectivePolicy w) (cspViolations w)
         (suggestedFix cspMode w)
  else "".

(** Whether the section headed Prompt for Agents is rendered. *)
Definition prompt_section_shown (w : WidgetDebug) : bool := prompt_guard w.

End Controls.

End AgentPrompt.

(** ** The renderer: bridge effect, message handler, pushes, teardown *)

Module Renderer.
Import Json.

(** The props of [MCPAppsRendererBase] that the pushes read. *)
Record props := {
  toolInput : option (list (string * json));
  toolOutput : option json;
  customProps : option (list (string * string));
  partialToolInput : option (list (string * json))
}.

(** Which object-valued props have a new identity in a render: React
    compares the entries of a dependency array with [Object.is]. *)
Record changed := {
  toolInput_changed : bool;
  toolOutput_changed : bool;
  customProps_changed : bool;
  partialToolInput_changed : bool
}.

(** What stays fixed during one life of the bridge effect. *)
Record env := {
  toolCallId : string;
  resourceUri : string;
  iframe_src : string;
  iframe_contentWindow : option nat;
  embedded : bool
}.

(** A window message event: [origin], [source] (a window, or null) and
    [data]. *)
Record MessageEvent := {
  origin : string;
  source : option nat;
  data : json
}.

(** Calls on the [AppBridge] instance. *)
Inductive bridge_call :=
| SendToolInput (params : json)
| SendToolInputPartial (params : json)
| SendToolResult (result : json)
| TeardownResource
| Close.

(** Who made a call: an effect body, the animation frame of the tool-input
    effect, the deferred resend timer, or the cleanup of the bridge effect. *)
Inductive caller := ByEffect | ByFrame | ByResendTimer | ByCleanup.

#[global] Instance caller_eq_dec : EqDecision caller.
Proof. solve_decision. Defined.

Record bridge_entry := {
  entry_time : Z;
  entry_by : caller;
  entry_call : bridge_call
}.

Inductive timer_callback := ResendCb | TeardownTimeoutCb.

#[global] Instance timer_callback_eq_dec : EqDecision timer_callback.
Proof. solve_decision. Defined.

Record timer := {
  timer_handle : nat;
  timer_deadline : Z;
  timer_callback_of : timer_callback
}.

(** The closure passed to [requestAnimationFrame] by the tool-input effect. *)
Record frame := {
  frame_handle : nat;
  frame_mergedArgs : json;
  frame_sentKey : string;
  frame_propsKey : string
}.

Inductive phase := Mounted | TearingDown | Closed.

#[global] Instance phase_eq_dec : EqDecision phase.
Proof. solve_decision. Defined.

Record refs := {
  toolInputSentRef : option string;
  lastSentPropsRef : option string;
  lastSentToolOutputKeyRef : option string;
  lastInitTimeRef : Z;
  resendTimerRef : option nat;
  bridgeRef : bool
}.

(** Clock, pending timers and animation frames of the page. *)
Record platform := {
  clock : Z;
  timers : list timer;
  frames : list frame;
  next_handle : nat
}.

(** Everything the renderer does that can be observed from outside: the
    calls on the bridge; what is published on [rpcLogBus], with the time, the
    entries of direction receive in [rpc_log] and those of direction send in
    [rpc_sent], each in the order of publication; the posts to the parent page
    and to the sandbox; the messages handed to the transport of the bridge. *)
Record outputs := {
  bridge_log : list bridge_entry;
  rpc_log : list (Z * json);
  rpc_sent : list (Z * json);
  parent_posts : list json;
  sandbox_posts : list json;
  delivered : list json
}.

Record world := {
  initCount : nat;
  cur : props;
  the_refs : refs;
  listening : bool;
  the_phase : phase;
  inputCleanup : option nat;
  plat : platform;
  out : outputs
}.

Definition upd_refs (f : refs → refs) (w : world) : world :=
  {| initCount := initCount w; cur := cur w; the_refs := f (the_refs w);
     listening := listening w; the_phase := the_phase w;
     inputCleanup := inputCleanup w; plat := plat w; out := out w |}.

Definition upd_plat (f : platform → platform) (w : world) : world :=
  {| initCount := initCount w; cur := cur w; the_refs := the_refs w;
     listening := listening w; the_phase := the_phase w;
     inputCleanup := inputCleanup w; plat := f (plat w); out := out w |}.

Definition upd_out (f : outputs → outputs) (w : world) : world :=
  {| initCount := initCount w; cur := cur w; the_refs := the_refs w;
     listening := listening w; the_phase := the_phase w;
     inputCleanup := inputCleanup w; plat := plat w; out := f (out w) |}.

Definition set_initCount (n : nat) (w : world) : world :=
  {| initCount := n; cur := cur w; the_refs := the_refs w;
     listening := listening w; the_phase := the_phase w;
     inputCleanup := inputCleanup w; plat := plat w; out := out w |}.

Definition set_cur (p : props) (w : world) : world :=
  {| initCount := initCount w; cur := p; the_refs := the_refs w;
     listening := listening w; the_phase := the_phase w;
     inputCleanup := inputCleanup w; plat := plat w; out := out w |}.

Definition set_listening (b : bool) (w : world) : world :=
  {| initCount := initCount w; cur := cur w; the_refs := the_refs w;
     listening := b; the_phase := the_phase w;
     inputCleanup := inputCleanup w; plat := plat w; out := out w |}.

Definition set_phase (ph : phase) (w : world) : world :=
  {| initCount := initCount w; cur := cur w; the_refs := the_refs w;
     listening := listening w; the_phase := ph;
     inputCleanup := inputCleanup w; plat := plat w; out := out w |}.

Definition set_inputCleanup (c : option nat) (w : world) : world :=
  {| initCount := initCount w; cur := cur w; the_refs := the_refs w;
     listening := listening w; the_phase := the_phase w;
     inputCleanup := c; plat := plat w; out := out w |}.

(** Assignments to the refs. *)
Definition set_input_keys (sentKey propsKey : string) (r : refs) : refs :=
  {| toolInputSentRef := Some sentKey; lastSentPropsRef := Some propsKey;
     lastSentToolOutputKeyRef := lastSentToolOutputKeyRef r;
     lastInitTimeRef := lastInitTimeRef r; resendTimerRef := resendTimerRef r;
     bridgeRef := bridgeRef r |}.

Definition set_output_key (k : string) (r : refs) : refs :=
  {| toolInputSentRef := toolInputSentRef r; lastSentPropsRef := lastSentPropsRef r;
     lastSentToolOutputKeyRef := Some k;
     lastInitTimeRef := lastInitTimeRef r; resendTimerRef := resendTimerRef r;
     bridgeRef := bridgeRef r |}.

Definition set_lastInitTime (t : Z) (r : refs) : refs :=
  {| toolInputSentRef := toolInputSentRef r; lastSentPropsRef := lastSentPropsRef r;
     lastSentToolOutputKeyRef := lastSentToolOutputKeyRef r;
     lastInitTimeRef := t; resendTimerRef := resendTimerRef r;
     bridgeRef := bridgeRef r |}.

Definition set_resendTimer (h : option nat) (r : refs) : refs :=
  {| toolInputSentRef := toolInputSentRef r; lastSentPropsRef := lastSentPropsRef r;
     lastSentToolOutputKeyRef := lastSentToolOutputKeyRef r;
     lastInitTimeRef := lastInitTimeRef r; resendTimerRef := h;
     bridgeRef := bridgeRef r |}.

Definition set_bridgeRef (b : bool) (r : refs) : refs :=
  {| toolInputSentRef := toolInputSentRef r; lastSentPropsRef := lastSentPropsRef r;
     lastSentToolOutputKeyRef := lastSentToolOutputKeyRef r;
     lastInitTimeRef := lastInitTimeRef r; resendTimerRef := resendTimerRef r;
     bridgeRef := b |}.

(** The platform: [setTimeout], [clearTimeout], [requestAnimationFrame],
    [cancelAnimationFrame]. *)
Definition set_clock (t : Z) (p : platform) : platform :=
  {| clock := t; timers := timers p; frames := frames p; next_handle := next_handle p |}.

Definition setTimeout (cb : timer_callback) (delay : Z) (p : platform) : platform :=
  {| clock := clock p;
     timers := timers p ++ [{| timer_handle := next_handle p;
                               timer_deadline := clock p + delay;
                               timer_callback_of := cb |}];
     frames := frames p;
     next_handle := S (next_handle p) |}.

Definition clearTimeout (h : option nat) (p : platform) : platform :=
  {| clock := clock p;
     timers := filter (λ x, Some (timer_handle x) ≠ h) (timers p);
     frames := frames p;
     next_handle := next_handle p |}.

Definition requestAnimationFrame (mergedArgs : json) (sentKey propsKey : string)
    (p : platform) : platform :=
  {| clock := clock p; timers := timers p;
     frames := frames p ++ [{| frame_handle := next_handle p;
                               frame_mergedArgs := mergedArgs;
                               frame_sentKey := sentKey;
                               frame_propsKey := propsKey |}];
     next_handle := S (next_handle p) |}.

Definition cancelAnimationFrame (h : nat) (p : platform) : platform :=
  {| clock := clock p; timers := timers p;
     frames := filter (λ x, frame_handle x ≠ h) (frames p);
     next_handle := next_handle p |}.

Definition set_timers (ts : list timer) (p : platform) : platform :=
  {| clock := clock p; timers := ts; frames := frames p; next_handle := next_handle p |}.

Definition set_frames (fs : list frame) (p : platform) : platform :=
  {| clock := clock p; timers := timers p; frames := fs; next_handle := next_handle p |}.

Definition now (w : world) : Z := clock (plat w).

(** Observable actions. *)
Definition log_bridge (e : bridge_entry) (o : outputs) : outputs :=
  {| bridge_log := bridge_log o ++ [e]; rpc_log := rpc_log o; rpc_sent := rpc_sent o;
     parent_posts := parent_posts o; sandbox_posts := sandbox_posts o;
     delivered := delivered o |}.

Definition log_rpc (e : Z * json) (o : outputs) : outputs :=
  {| bridge_log := bridge_log o; rpc_log := rpc_log o ++ [e]; rpc_sent := rpc_sent o;
     parent_posts := parent_posts o; sandbox_posts := sandbox_posts o;
     delivered := delivered o |}.

Definition log_rpc_sent (e : Z * json) (o : outputs) : outputs :=
  {| bridge_log := bridge_log o; rpc_log := rpc_log o; rpc_sent := rpc_sent o ++ [e];
     parent_posts := parent_posts o; sandbox_posts := sandbox_posts o;
     delivered := delivered o |}.

Definition post_parent (m : json) (o : outputs) : outputs :=
  {| bridge_log := bridge_log o; rpc_log := rpc_log o; rpc_sent := rpc_sent o;
     parent_posts := parent_posts o ++ [m]; sandbox_posts := sandbox_posts o;
     delivered := delivered o |}.

Definition post_sandbox (m : json) (o : outputs) : outputs :=
  {| bridge_log := bridge_log o; rpc_log := rpc_log o; rpc_sent := rpc_sent o;
     parent_posts := parent_posts o; sandbox_posts := sandbox_posts o ++ [m];
     delivered := delivered o |}.

Definition deliver (m : json) (o : outputs) : outputs :=
  {| bridge_log := bridge_log o; rpc_log := rpc_log o; rpc_sent := rpc_sent o;
     parent_posts := parent_posts o; sandbox_posts := sandbox_posts o;
     delivered := delivered o ++ [m] |}.

(** A call on the [AppBridge] instance, recorded with its time and its
    caller. The bridge is a library: the messages that it makes of a call
    reach the guest through [customTransport.send], which is [transport_send]
    below, and are events of their own. *)
Definition bridge_do (by_ : caller) (c : bridge_call) (w : world) : world :=
  upd_out (log_bridge {| entry_time := now w; entry_by := by_; entry_call := c |}) w.

(** [customTransport.send(message)]: the message is posted to the sandbox
    when [sandboxRef.current] is set, and published on the RPC log bus with
    direction send. The bridge calls it for every message it sends, those
    that it makes of the calls above and its replies to requests of the
    guest. *)
Definition transport_send (message : json) (sandbox : bool) (w : world) : world :=
  let w := if sandbox then upd_out (post_sandbox message) w else w in
  upd_out (log_rpc_sent (now w, message)) w.

Section Component.

(** [JSON.parse] and [new URL(..).origin] are the platform's; [None] stands
    for the call throwing. [E] describes the widget instance. *)
Context (JSON_parse : string → option json).
Context (URL_origin : string → option string).
Context (E : env).

(** The loop over [Object.entries(customProps)]: a value that looks like a
    serialized array or object is parsed, and kept as a string when parsing
    fails. *)
Definition parse_entry (parsed : list (string * json)) (kv : string * string)
  : list (string * json) :=
  let v := kv.2 in
  if JS.startsWith "[" (JS.trim v) || JS.startsWith "{" (JS.trim v)
  then match JSON_parse v with
       | Some j => set_prop kv.1 j parsed
       | None => set_prop kv.1 (JStr v) parsed
       end
  else set_prop kv.1 (JStr v) parsed.

Definition parse_custom_props (cp : option (list (string * string)))
  : list (string * json) :=
  foldl parse_entry [] (default [] cp).

(** [{ ...toolInput, ...parsed }] *)
Definition mergedArgs (p : props) : json :=
  JObj (assign (assign [] (default [] (toolInput p)))
          (parse_custom_props (customProps p))).

Definition tool_input_params (merged : json) : json :=
  JObj [("arguments", merged)].

(** *** The deferred resend and [bridge.oninitialized] *)

(** The callback given to [setTimeout] in [oninitialized]: it reads the
    refs that mirror the current props. *)
Definition resend_callback (w : world) : world :=
  let w := bridge_do ByResendTimer (SendToolInput (tool_input_params (mergedArgs (cur w)))) w in
  match toolOutput (cur w) with
  | Some output =>
      if truthy output then bridge_do ByResendTimer (SendToolResult output) w else w
  | None => w
  end.

(** *** The pushes *)

(** [bridge.sendToolInputPartial] effect. *)
Definition partial_effect (w : world) : world :=
  if negb (bridgeRef (the_refs w)) || bool_decide (initCount w = 0%nat) then w
  else match partialToolInput (cur w) with
       | Some partial =>
           bridge_do ByEffect (SendToolInputPartial (tool_input_params (JObj partial))) w
       | None => w
       end.

Definition sentKey (id : string) (count : nat) : string :=
  id +:+ ":" +:+ pretty count.

(** The cleanup that the last run of the tool-input effect returned, run by
    React before the next run and on unmount. *)
Definition input_effect_cleanup (w : world) : world :=
  match inputCleanup w with
  | Some h => set_inputCleanup None (upd_plat (cancelAnimationFrame h) w)
  | None => w
  end.

(** The body of the tool-input effect. *)
Definition input_effect_body (w : world) : world :=
  if negb (bridgeRef (the_refs w)) || bool_decide (initCount w = 0%nat) then w
  else
    let merged := mergedArgs (cur w) in
    let propsKey := stringify merged in
    let key := sentKey (toolCallId E) (initCount w) in
    if bool_decide (toolInputSentRef (the_refs w) = Some key)
       && bool_decide (lastSentPropsRef (the_refs w) = Some propsKey)
    then w
    else match partialToolInput (cur w) with
         | Some _ =>
             set_inputCleanup (Some (next_handle (plat w)))
               (upd_plat (requestAnimationFrame merged key propsKey) w)
         | None =>
             upd_refs (set_input_keys key propsKey)
               (bridge_do ByEffect (SendToolInput (tool_input_params merged)) w)
         end.

Definition input_effect (w : world) : world :=
  input_effect_body (input_effect_cleanup w).

(** The callback of the animation frame requested by the tool-input effect. *)
Definition run_frame (w : world) (f : frame) : world :=
  upd_refs (set_input_keys (frame_sentKey f) (frame_propsKey f))
    (bridge_do ByFrame (SendToolInput (tool_input_params (frame_mergedArgs f))) w).

Definition animation_frame (w : world) : world :=
  foldl run_frame (upd_plat (set_frames []) w) (frames (plat w)).

(** [(toolOutput as any)?.structuredContent ?? toolOutput] *)
Definition structured_or_self (output : json) : json :=
  match get "structuredContent" output with
  | Some JNull | None => output
  | Some c => c
  end.

(** [customProps ?? null] as a value to serialize. *)
Definition custom_props_json (cp : option (list (string * string))) : json :=
  match cp with
  | Some l => JObj (assign [] ((λ kv, (kv.1, JStr kv.2)) <$> l))
  | None => JNull
  end.

Definition contentKey (output : json) (cp : option (list (string * string))) : string :=
  stringify (JObj [("content", structured_or_self output);
                   ("customProps", custom_props_json cp)]).

(** [{ ...v }]: the own enumerable properties of a value. *)
Definition spread (v : json) : list (string * json) :=
  match v with
  | JObj ps => assign [] ps
  | JArr items => imap (λ i x, (pretty i, x)) items
  | JStr s => imap (λ i c, (pretty i, JStr (String c EmptyString))) (JS.chars s)
  | _ => []
  end.

(** The tool-output effect. *)
Definition output_effect (w : world) : world :=
  if negb (bridgeRef (the_refs w)) || bool_decide (initCount w = 0%nat) then w
  else match toolOutput (cur w) with
       | Some output =>
           if truthy output then
             let key := contentKey output (customProps (cur w)) in
             if bool_decide (lastSentToolOutputKeyRef (the_refs w) = Some key) then w
             else
               let w := upd_refs (set_output_key key) w in
               if bool_decide (0 < length (default [] (customProps (cur w))))%nat
               then bridge_do ByEffect
                      (SendToolResult
                         (JObj (set_prop "structuredContent"
                                  (JObj (parse_custom_props (customProps (cur w))))
                                  (spread output)))) w
               else bridge_do ByEffect (SendToolResult output) w
           else w
       | None => w
       end.

(** The effects in the order the component declares them; each runs when
    an entry of its dependency array changed. *)
Definition run_effects (count_changed : bool) (ch : changed) (w : world) : world :=
  let w := if count_changed || partialToolInput_changed ch then partial_effect w else w in
  let w := if count_changed || toolInput_changed ch || customProps_changed ch
              || partialToolInput_changed ch
           then input_effect w else w in
  if count_changed || toolOutput_changed ch || customProps_changed ch
  then output_effect w else w.

Definition unchanged : changed :=
  {| toolInput_changed := false; toolOutput_changed := false;
     customProps_changed := false; partialToolInput_changed := false |}.

(** A render with props [p]: the refs that mirror the props are assigned
    during the render, the effects run after it. *)
Definition render (p : props) (ch : changed) (w : world) : world :=
  run_effects false ch (set_cur p w).

(** [bridge.oninitialized] *)
Definition oninitialized (w : world) : world :=
  let now_ := now w in
  if (0 <? lastInitTimeRef (the_refs w)) && (now_ - lastInitTimeRef (the_refs w) <? 2000)
  then
    let w := upd_plat (clearTimeout (resendTimerRef (the_refs w))) w in
    upd_refs (set_resendTimer (Some (next_handle (plat w))))
      (upd_plat (setTimeout ResendCb 300) w)
  else
    let w := upd_refs (set_lastInitTime now_) w in
    (* setInitCount((c) => c + 1), then the effects that depend on it *)
    run_effects true unchanged (set_initCount (initCount w + 1) w).

(** *** The inbound message handler ([handleMessage]) *)

Definition is_string (v : option json) : option string :=
  match v with Some (JStr s) => Some s | _ => None end.

(** [v === lit] for a string literal [lit]. *)
Definition is_literal (lit : string) (v : option json) : bool :=
  match v with Some (JStr s) => bool_decide (s = lit) | _ => false end.

(** The error report posted to the parent page for a console error. *)
Definition console_error_report (w : world) (d : json) : json :=
  let args := match get "args" d with Some (JArr l) => l | _ => [] end in
  let first := head args in
  let message :=
    match is_string first with
    | Some s => s
    | None => default "MCP Apps iframe runtime error"
                (is_string (first ≫= get "message"))
    end in
  let stack :=
    match is_string ((first ≫= get "error") ≫= get "stack") with
    | Some s => Some s
    | None => is_string (first ≫= get "stack")
    end in
  JObj ([ ("type", JStr "mcp-inspector:widget:error");
          ("source", JStr "mcp-apps:iframe-console:error");
          ("message", JStr message) ]
        ++ match stack with Some s => [("stack", JStr s)] | None => [] end
        ++ [ ("timestamp", JNum (now w));
             ("toolId", JStr (toolCallId E));
             ("url", JStr (default (resourceUri E) (is_string (get "url" d)))) ]).

(** The guest's notification that makes the bridge library (a dependency,
    not code of this repository) call [oninitialized]. *)
Definition is_initialized_notification (m : json) : bool :=
  is_literal "ui/notifications/initialized" (get "method" m).

(** [customTransport.onmessage(data)]: the message reaches the bridge. *)
Definition transport_onmessage (m : json) (w : world) : world :=
  let w := upd_out (deliver m) w in
  if is_initialized_notification m then oninitialized w else w.

Definition handleMessage (ev : MessageEvent) (w : world) : world :=
  match URL_origin (iframe_src E) with
  | None => w
  | Some proxyOrigin =>
      if bool_decide (origin ev ≠ proxyOrigin) then w
      else if bool_decide (source ev ≠ iframe_contentWindow E) then w
      else if is_literal "iframe-console-log" (get "type" (data ev)) then
        if is_literal "error" (get "level" (data ev)) && embedded E
        then upd_out (post_parent (console_error_report w (data ev))) w
        else w
      else
        let w := upd_out (log_rpc (now w, data ev)) w in
        if truthy (data ev) then transport_onmessage (data ev) w else w
  end.

(** *** Cleanup of the bridge effect *)

(** The branch taken when the race of [teardownResource] against the
    timeout settles: the rejection is swallowed and [bridge.close()] runs. *)
Definition teardown_settled (w : world) : world :=
  match the_phase w with
  | TearingDown => set_phase Closed (bridge_do ByCleanup Close w)
  | _ => w
  end.

Definition TEARDOWN_TIMEOUT : Z := 2000.

(** The steps of the function returned by the bridge effect, in order. *)
Definition cleanup_cancel_resend (w : world) : world :=
  let w := upd_refs (set_lastInitTime 0) w in
  upd_plat (clearTimeout (resendTimerRef (the_refs w))) w.

Definition cleanup_teardown (w : world) : world :=
  let w := set_listening false w in
  let w := bridge_do ByCleanup TeardownResource w in
  let w := upd_plat (setTimeout TeardownTimeoutCb TEARDOWN_TIMEOUT) w in
  set_phase TearingDown w.

Definition cleanup (w : world) : world :=
  upd_refs (set_bridgeRef false) (cleanup_teardown (cleanup_cancel_resend w)).

(** Unmounting runs the cleanups of the effects in declaration order. *)
Definition unmount (w : world) : world :=
  input_effect_cleanup (cleanup w).

(** *** The event loop *)

Definition fire (cb : timer_callback) (w : world) : world :=
  match cb with
  | ResendCb => resend_callback w
  | TeardownTimeoutCb => teardown_settled w
  end.

(** The pending timer that is due first at time [t]. *)
Fixpoint next_due (t : Z) (ts : list timer) : option timer :=
  match ts with
  | [] => None
  | x :: rest =>
      match next_due t rest with
      | Some y =>
          if (timer_deadline x <=? t) && (timer_deadline x <=? timer_deadline y)
          then Some x else Some y
      | None => if timer_deadline x <=? t then Some x else None
      end
  end.

Fixpoint fire_due (fuel : nat) (t : Z) (w : world) : world :=
  match fuel with
  | O => w
  | S fuel' =>
      match next_due t (timers (plat w)) with
      | Some x =>
          let w := upd_plat (clearTimeout (Some (timer_handle x))) w in
          let w := upd_plat (set_clock (Z.max (now w) (timer_deadline x))) w in
          fire_due fuel' t (fire (timer_callback_of x) w)
      | None => w
      end
  end.

(** Time passes until [t]: the timers due by then fire, each at its
    deadline. No callback arms a timer, so one pass over the pending timers
    is enough. *)
Definition advance (t : Z) (w : world) : world :=
  let w := fire_due (length (timers (plat w))) t w in
  upd_plat (set_clock (Z.max (now w) t)) w.

(** What can happen: a message event on the window, a render, an animation
    frame, the race of the teardown settling, the unmount, and the bridge
    sending a message through the transport ([sandbox] tells whether
    [sandboxRef.current] is set then). *)
Inductive event :=
| EvMessage (ev : MessageEvent)
| EvRender (p : props) (ch : changed)
| EvFrame
| EvTeardownSettled (fulfilled : bool)
| EvUnmount
| EvTransportSend (message : json) (sandbox : bool).

Definition handle (e : event) (w : world) : world :=
  match e with
  | EvMessage ev => if listening w then handleMessage ev w else w
  | EvRender p ch =>
      match the_phase w with Mounted => render p ch w | _ => w end
  | EvFrame => animation_frame w
  | EvTeardownSettled _ => teardown_settled w
  | EvUnmount =>
      match the_phase w with Mounted => unmount w | _ => w end
  | EvTransportSend message sandbox => transport_send message sandbox w
  end.

Definition step (w : world) (te : Z * event) : world :=
  handle te.2 (advance te.1 w).

Definition run (sched : list (Z * event)) (w : world) : world :=
  foldl step w sched.

(** Runs of the tool-input effect (attempts to send) and animation frames,
    in any order, with the props and [initCount] as they are. *)
Inductive push_event := Attempt | Frame.

Definition push_step (w : world) (e : push_event) : world :=
  match e with
  | Attempt => input_effect w
  | Frame => animation_frame w
  end.

Definition pushes (tr : list push_event) (w : world) : world :=
  foldl push_step w tr.

(** Both keys of the tool-input push match what would be sent now. *)
Definition input_already_sent (w : world) : Prop :=
  toolInputSentRef (the_refs w) = Some (sentKey (toolCallId E) (initCount w))
  ∧ lastSentPropsRef (the_refs w) = Some (stringify (mergedArgs (cur w))).

(** A guest announcement at time [t], and a series of them. *)
Definition announce (w : world) (t : Z) : world :=
  oninitialized (advance t w).

Definition announcements (ts : list Z) (w : world) : world :=
  foldl announce w ts.

End Component.

(** The state right after the bridge effect has run for the first time,
    at time [t0]: [setInitCount(0)], refs as [useRef] created them, listener
    attached. A later run of the bridge effect in the same component (after a
    change of [widgetHtml] or [toolCallId]) starts from the refs and the count
    that the run before it left; this state does not describe it, and the
    events below have no step for it. *)
Definition mounted (t0 : Z) (p : props) : world :=
  {| initCount := 0;
     cur := p;
     the_refs := {| toolInputSentRef := None; lastSentPropsRef := None;
                    lastSentToolOutputKeyRef := None; lastInitTimeRef := 0;
                    resendTimerRef := None; bridgeRef := true |};
     listening := true;
     the_phase := Mounted;
     inputCleanup := None;
     plat := {| clock := t0; timers := []; frames := []; next_handle := 0 |};
     out := {| bridge_log := []; rpc_log := []; rpc_sent := []; parent_posts := [];
               sandbox_posts := []; delivered := [] |} |}.

(** The calls made by the deferred resend timer. *)
Definition deferred_resends (w : world) : list bridge_entry :=
  filter (λ e, entry_by e = ByResendTimer) (bridge_log (out w)).

(** What one firing of the resend timer at time [t] sends for the props
    [p]: the merged tool input, and the tool output when there is one. *)
Definition resend_entries (JSON_parse : string → option json) (t : Z) (p : props)
  : list bridge_entry :=
  {| entry_time := t; entry_by := ByResendTimer;
     entry_call := SendToolInput (tool_input_params (mergedArgs JSON_parse p)) |}
  :: match toolOutput p with
     | Some output =>
         if truthy output
         then [{| entry_time := t; entry_by := ByResendTimer;
                  entry_call := SendToolResult output |}]
         else []
     | None => []
     end.

(** Announcement times in which each one comes more than 2000 ms after the
    one before it. *)
Fixpoint spaced_from (prev : Z) (ts : list Z) : Prop :=
  match ts with
  | [] => True
  | t :: rest => prev + 2000 < t ∧ spaced_from t rest
  end.

Definition spaced (ts : list Z) : Prop :=
  match ts with
  | [] => True
  | t :: rest => spaced_from t rest
  end.

(** Announcement times in which each one comes at most 2000 ms after the
    one before it. *)
Fixpoint within_2000_from (prev : Z) (ts : list Z) : Prop :=
  match ts with
  | [] => True
  | t :: rest => prev ≤ t ∧ t - prev ≤ 2000 ∧ within_2000_from t rest
  end.

Definition within_2000 (ts : list Z) : Prop :=
  match ts with
  | [] => True
  | t :: rest => within_2000_from t rest
  end.

(** The announcements [ds] that follow a counted announcement at [g]: all
    of them less than 2000 ms after [g], and each one after the first less
    than 300 ms after the one before it. *)
Fixpoint coalesced (g prev : Z) (ds : list Z) : Prop :=
  match ds with
  | [] => True
  | d :: rest => prev ≤ d ∧ d < prev + 300 ∧ d < g + 2000 ∧ coalesced g d rest
  end.

Definition burst (g : Z) (ds : list Z) : Prop :=
  match ds with
  | [] => False
  | d :: rest => g ≤ d ∧ d < g + 2000 ∧ coalesced g d rest
  end.

(** The specification's reading of a burst: once all is quiet, the resend
    timer has fired exactly once, 300 ms after the last announcement. *)
Definition one_deferred_resend (JSON_parse : string → option json) (E : env)
    (t0 : Z) (p : props) (ts : list Z) : Prop :=
  ∃ t_last, last ts = Some t_last
    ∧ ∀ T, t_last + 300 ≤ T →
        deferred_resends (advance JSON_parse T (announcements JSON_parse E ts (mounted t0 p)))
        = resend_entries JSON_parse (t_last + 300) p.

End Renderer.

(** ** Values used in the examples *)

Module Examples.
Import Json Renderer.

Definition example_env : env :=
  {| toolCallId := "call-1";
     resourceUri := "ui://weather/widget.html";
     iframe_src := "https://sandbox.example.com/proxy.html";
     iframe_contentWindow := Some 7%nat;
     embedded := true |}.

(** A stand-in for [JSON.parse] in examples whose custom props never look
    like a serialized array or object, so that it is never called. *)
Definition no_parse (s : string) : option json := None.

Definition example_props : props :=
  {| toolInput := Some [("city", JStr "Paris")];
     toolOutput := Some (JObj [("structuredContent", JObj [("temp", JNum 21)])]);
     customProps := None;
     partialToolInput := None |}.

Definition streaming_props : props :=
  {| toolInput := Some [("city", JStr "Paris")];
     toolOutput := None;
     customProps := Some [("units", "metric")];
     partialToolInput := Some [("city", JStr "Par")] |}.

(** The guest's notification, from the proxy origin and the content window
    of the iframe. *)
Definition initialized_event : MessageEvent :=
  {| origin := "https://sandbox.example.com";
     source := Some 7%nat;
     data := JObj [("jsonrpc", JStr "2.0");
                   ("method", JStr "ui/notifications/initialized")] |}.

(** The same data sent from another window of the same origin. *)
Definition spoofed_event : MessageEvent :=
  {| origin := "https://sandbox.example.com";
     source := Some 8%nat;
     data := JObj [("jsonrpc", JStr "2.0");
                   ("method", JStr "ui/notifications/initialized")] |}.

(** The component just after [initCount] became 1, before its effects ran. *)
Definition first_epoch (p : props) : world :=
  set_initCount 1 (mounted 1000 p).

End Examples.

(** ** What the widget declares: the metadata read by [fetchWidgetHtml] *)

Module WidgetMeta.
Import Json.

(** A call that either returns or throws a [TypeError]. *)
Inductive outcome (A : Type) :=
| Returns (a : A)
| Throws.
Arguments Returns {A} a.
Arguments Throws {A}.

(** Truthiness of a value that may be [undefined]. *)
Definition truthy_opt (v : option json) : bool :=
  match v with
  | Some x => truthy x
  | None => false
  end.

(** [v?.k] *)
Definition get_opt (k : string) (v : option json) : option json := v ≫= get k.

(** [{ ...v }] for a value that may be [undefined]. *)
Definition spread_opt (v : option json) : list (string * json) :=
  match v with
  | Some x => Renderer.spread x
  | None => []
  end.

(** [listingUiMeta || contentUiMeta ? { ...listingUiMeta, ...contentUiMeta }
    : undefined] *)
Definition mergedUiMeta (listingUiMeta contentUiMeta : option json) : option json :=
  if truthy_opt listingUiMeta || truthy_opt contentUiMeta
  then Some (JObj (assign (assign [] (spread_opt listingUiMeta)) (spread_opt contentUiMeta)))
  else None.

(** [if (Array.isArray(wcsp.snake)) fallback.camel = wcsp.snake] *)
Definition copy_array (wcsp : json) (snake camel : string)
    (fallback : list (string * json)) : list (string * json) :=
  match get snake wcsp with
  | Some (JArr items) => set_prop camel (JArr items) fallback
  | _ => fallback
  end.

(** The object [fallback] built from [openai/widgetCSP]. *)
Definition legacy_fallback (wcsp : json) : list (string * json) :=
  let fallback := [] in
  let fallback := copy_array wcsp "connect_domains" "connectDomains" fallback in
  let fallback := copy_array wcsp "resource_domains" "resourceDomains" fallback in
  let fallback := copy_array wcsp "frame_domains" "frameDomains" fallback in
  let fallback := copy_array wcsp "base_uri_domains" "baseUriDomains" fallback in
  copy_array wcsp "script_directives" "scriptDirectives" fallback.

(** [mcpAppsCsp]: [ui.csp] of the merged metadata, and the translated
    [openai/widgetCSP] of the tool metadata when there is none. *)
Definition mcpAppsCsp (merged toolMetadata : option json) : option json :=
  let modern := get_opt "csp" merged in
  if negb (truthy_opt modern) && truthy_opt (get_opt "openai/widgetCSP" toolMetadata)
  then
    let fallback :=
      legacy_fallback (default JNull (get_opt "openai/widgetCSP" toolMetadata)) in
    if decide (0 < length fallback)%nat then Some (JObj fallback) else modern
  else modern.

(** [mergedUiMeta?.prefersBorder ?? false] *)
Definition mcpAppsPrefersBorder (merged : option json) : json :=
  match get_opt "prefersBorder" merged with
  | Some JNull | None => JBool false
  | Some v => v
  end.

(** The object literal [declaredCsp]: four properties, each as it was read
    off the declaration. *)
Record declared_raw := {
  raw_connectDomains : option json;
  raw_resourceDomains : option json;
  raw_frameDomains : option json;
  raw_baseUriDomains : option json
}.

(** [typeof v === "object"] for a truthy value. *)
Definition is_object (v : json) : bool :=
  match v with
  | JArr _ | JObj _ => true
  | _ => false
  end.

(** [csp ?? mcpAppsCsp] and the projection to the four lists. *)
Definition declaredCsp (csp mcp : option json) : option declared_raw :=
  let cspForDeclared := match csp with Some JNull | None => mcp | _ => csp end in
  match cspForDeclared with
  | Some v =>
      if truthy v && is_object v
      then Some {| raw_connectDomains := get "connectDomains" v;
                   raw_resourceDomains := get "resourceDomains" v;
                   raw_frameDomains := get "frameDomains" v;
                   raw_baseUriDomains := get "baseUriDomains" v |}
      else None
  | None => None
  end.

(** The strings of an array, if all its items are strings. *)
Fixpoint string_items (items : list json) : option (list string) :=
  match items with
  | [] => Some []
  | JStr s :: rest => cons s <$> string_items rest
  | _ :: _ => None
  end.

(** How [buildCSPString] gets on with one property of the declaration:
    [(v || []).map(sanitize)] works on a falsy value and on an array of
    strings, and throws on anything else. *)
Definition domain_list (v : option json) : outcome (option (list string)) :=
  match v with
  | None => Returns None
  | Some x =>
      if truthy x
      then match x with
           | JArr items =>
               match string_items items with
               | Some l => Returns (Some l)
               | None => Throws
               end
           | _ => Throws
           end
      else Returns None
  end.

(** The declaration with the types that [buildCSPString] expects. The
    four lists are evaluated in the order in which the function reads them. *)
Definition typed (d : declared_raw) : outcome Csp.WidgetDeclaredCsp :=
  match domain_list (raw_connectDomains d) with
  | Throws => Throws
  | Returns c =>
      match domain_list (raw_resourceDomains d) with
      | Throws => Throws
      | Returns r =>
          match domain_list (raw_frameDomains d) with
          | Throws => Throws
          | Returns f =>
              match domain_list (raw_baseUriDomains d) with
              | Throws => Throws
              | Returns b =>
                  Returns {| Csp.connectDomains := c; Csp.resourceDomains := r;
                             Csp.frameDomains := f; Csp.baseUriDomains := b |}
              end
          end
      end
  end.

(** The policy of the permissive mode. *)
Definition PERMISSIVE_POLICY : string :=
  JS.join "; "
    [ "default-src * 'unsafe-inline' 'unsafe-eval' data: blob: filesystem: about:";
      "script-src * 'unsafe-inline' 'unsafe-eval' data: blob:";
      "style-src * 'unsafe-inline' data: blob:";
      "img-src * data: blob: https: http:";
      "media-src * data: blob: https: http:";
      "font-src * data: blob: https: http:";
      "connect-src * data: blob: https: http: ws: wss: about:";
      "frame-src * data: blob: https: http: about:";
      "object-src * data: blob:";
      "base-uri *";
      "form-action *" ].

(** [effectivePolicy], [undefined] when the mode is not permissive and
    nothing is declared. *)
Definition effectivePolicy (cspMode : AgentPrompt.CspMode) (declared : option declared_raw)
  : outcome (option string) :=
  match cspMode with
  | AgentPrompt.Permissive => Returns (Some PERMISSIVE_POLICY)
  | AgentPrompt.WidgetDeclared =>
      match declared with
      | Some d =>
          match typed d with
          | Returns t => Returns (Some (Csp.buildCSPString t))
          | Throws => Throws
          end
      | None => Returns None
      end
  end.


End WidgetMeta.

(** ** Display mode and size of the widget frame *)

Module Display.

Inductive DisplayMode := Inline | Pip | Fullscreen.

#[global] Instance DisplayMode_eq_dec : EqDecision DisplayMode.
Proof. solve_decision. Defined.

(** The native fullscreen calls of [handleDisplayModeChange]. *)
Inductive native_call := RequestFullscreen | ExitFullscreen.

Section Numbers.

(** JavaScript numbers with their addition and their conversion to a
    string in a template literal are the platform's. *)
Context {number : Type}.
Context (plus : number → number → number).
Context (number_to_string : number → string).

(** What [getComputedStyle] reports for the iframe, the widths already
    through [parseFloat]. *)
Record computed_style := {
  border_box : bool;
  borderLeftWidth : number;
  borderRightWidth : number;
  borderTopWidth : number;
  borderBottomWidth : number
}.

(** The [to] keyframe of an animation. *)
Record keyframe := {
  to_width : option string;
  to_height : option string
}.

(** The state the handlers read and write: the two props of the parent,
    the React state, the fullscreen element of the document, the container
    ref, the inline style of the iframe element, and what was called. *)
Record view := {
  displayModeProp : option DisplayMode;
  onDisplayModeChange : bool;
  internalDisplayMode : DisplayMode;
  inlineHeight : number;
  fullscreenElement : bool;
  containerRef : bool;
  style_width : option string;
  style_height : option string;
  mode_calls : list DisplayMode;
  native_calls : list native_call;
  pending : list DisplayMode;
  animations : list keyframe
}.

(** [displayModeProp ?? internalDisplayMode] *)
Definition displayMode (s : view) : DisplayMode :=
  default (internalDisplayMode s) (displayModeProp s).

(** [if (onDisplayModeChange) onDisplayModeChange(mode) else
    setInternalDisplayMode(mode)] *)
Definition set_mode (mode : DisplayMode) (s : view) : view :=
  if onDisplayModeChange s
  then {| displayModeProp := displayModeProp s; onDisplayModeChange := onDisplayModeChange s;
          internalDisplayMode := internalDisplayMode s; inlineHeight := inlineHeight s;
          fullscreenElement := fullscreenElement s; containerRef := containerRef s;
          style_width := style_width s; style_height := style_height s;
          mode_calls := mode_calls s ++ [mode]; native_calls := native_calls s;
          pending := pending s; animations := animations s |}
  else {| displayModeProp := displayModeProp s; onDisplayModeChange := onDisplayModeChange s;
          internalDisplayMode := mode; inlineHeight := inlineHeight s;
          fullscreenElement := fullscreenElement s; containerRef := containerRef s;
          style_width := style_width s; style_height := style_height s;
          mode_calls := mode_calls s; native_calls := native_calls s;
          pending := pending s; animations := animations s |}.

(** [bridge.onrequestdisplaymode]: the new state and the mode of the
    reply. *)
Definition onrequestdisplaymode (mode : option DisplayMode) (s : view)
  : view * DisplayMode :=
  let requestedMode := default Inline mode in
  (set_mode requestedMode s, requestedMode).

(** [n]px *)
Definition px (n : number) : string := number_to_string n +:+ "px".

(** [bridge.onsizechange] *)
Definition onsizechange (width height : option number) (style : computed_style)
    (s : view) : view :=
  if bool_decide (displayMode s ≠ Inline) then s
  else
    match width, height with
    | None, None => s
    | _, _ =>
        let adjustedWidth :=
          (λ w, if border_box style
                then plus w (plus (borderLeftWidth style) (borderRightWidth style))
                else w) <$> width in
        let adjustedHeight :=
          (λ h, if border_box style
                then plus h (plus (borderTopWidth style) (borderBottomWidth style))
                else h) <$> height in
        let to_w := (λ w, "min(" +:+ px w +:+ ", 100%)") <$> adjustedWidth in
        let to_h := px <$> adjustedHeight in
        {| displayModeProp := displayModeProp s;
           onDisplayModeChange := onDisplayModeChange s;
           internalDisplayMode := internalDisplayMode s;
           inlineHeight := default (inlineHeight s) adjustedHeight;
           fullscreenElement := fullscreenElement s; containerRef := containerRef s;
           style_width := match to_w with Some w => Some w | None => style_width s end;
           style_height := match to_h with Some h => Some h | None => style_height s end;
           mode_calls := mode_calls s; native_calls := native_calls s;
           pending := pending s;
           animations := animations s ++ [{| to_width := to_w; to_height := to_h |}] |}
    end.

(** The listener of [fullscreenchange], after the document changed its
    fullscreen element. *)
Definition handleFullscreenChange (s : view) : view :=
  if negb (fullscreenElement s) && bool_decide (displayMode s = Fullscreen)
  then set_mode Inline s
  else s.

Definition set_fullscreenElement (b : bool) (s : view) : view :=
  {| displayModeProp := displayModeProp s; onDisplayModeChange := onDisplayModeChange s;
     internalDisplayMode := internalDisplayMode s; inlineHeight := inlineHeight s;
     fullscreenElement := b; containerRef := containerRef s;
     style_width := style_width s; style_height := style_height s;
     mode_calls := mode_calls s; native_calls := native_calls s;
     pending := pending s; animations := animations s |}.

(** [handleDisplayModeChange] up to its [await]: the native call is made
    and the rest of the function waits for it to settle; without a native
    call the function runs to its end at once. *)
Definition await_native (c : native_call) (mode : DisplayMode) (s : view) : view :=
  {| displayModeProp := displayModeProp s; onDisplayModeChange := onDisplayModeChange s;
     internalDisplayMode := internalDisplayMode s; inlineHeight := inlineHeight s;
     fullscreenElement := fullscreenElement s; containerRef := containerRef s;
     style_width := style_width s; style_height := style_height s;
     mode_calls := mode_calls s; native_calls := native_calls s ++ [c];
     pending := pending s ++ [mode]; animations := animations s |}.

Definition handleDisplayModeChange (mode : DisplayMode) (s : view) : view :=
  if bool_decide (mode = Fullscreen)
  then if containerRef s then await_native RequestFullscreen mode s else set_mode mode s
  else if fullscreenElement s then await_native ExitFullscreen mode s else set_mode mode s.

(** The rest of [handleDisplayModeChange] once the native call settled:
    the [try] block goes on when it was fulfilled, the [catch] block runs
    when it was rejected, and both update the mode. *)
Definition native_settled (fulfilled : bool) (s : view) : view :=
  match pending s with
  | [] => s
  | mode :: rest =>
      let s := {| displayModeProp := displayModeProp s;
                  onDisplayModeChange := onDisplayModeChange s;
                  internalDisplayMode := internalDisplayMode s;
                  inlineHeight := inlineHeight s;
                  fullscreenElement := fullscreenElement s; containerRef := containerRef s;
                  style_width := style_width s; style_height := style_height s;
                  mode_calls := mode_calls s; native_calls := native_calls s;
                  pending := rest; animations := animations s |} in
      if fulfilled then set_mode mode s else set_mode mode s
  end.

(** A render in which the parent passes another [displayMode]. *)
Definition set_displayModeProp (m : option DisplayMode) (s : view) : view :=
  {| displayModeProp := m; onDisplayModeChange := onDisplayModeChange s;
     internalDisplayMode := internalDisplayMode s; inlineHeight := inlineHeight s;
     fullscreenElement := fullscreenElement s; containerRef := containerRef s;
     style_width := style_width s; style_height := style_height s;
     mode_calls := mode_calls s; native_calls := native_calls s;
     pending := pending s; animations := animations s |}.

(** [iframeStyle] *)
Record CSSProperties := {
  css_height : string;
  css_width : string;
  css_maxWidth : string;
  css_transition : option string
}.

Definition iframeStyle (inlineMaxWidth : number) (s : view) : CSSProperties :=
  let isPip := bool_decide (displayMode s = Pip) in
  let isFullscreen := bool_decide (displayMode s = Fullscreen) in
  {| css_height := if isFullscreen || isPip then "100%" else px (inlineHeight s);
     css_width := "100%";
     css_maxWidth := if bool_decide (displayMode s = Inline) then px inlineMaxWidth
                     else "100%";
     css_transition := if isFullscreen || isPip then None
                       else Some "height 300ms ease-out, width 300ms ease-out" |}.

(** What can happen to the frame. *)
Inductive event :=
| GuestSizeChange (width height : option number) (style : computed_style)
| GuestRequestMode (mode : option DisplayMode)
| UserChange (mode : DisplayMode)
| NativeSettled (fulfilled : bool)
| FullscreenChange (element : bool)
| ParentRenders (displayModeProp : option DisplayMode).

Definition step (s : view) (e : event) : view :=
  match e with
  | GuestSizeChange w h style => onsizechange w h style s
  | GuestRequestMode m => (onrequestdisplaymode m s).1
  | UserChange m => handleDisplayModeChange m s
  | NativeSettled ok => native_settled ok s
  | FullscreenChange b => handleFullscreenChange (set_fullscreenElement b s)
  | ParentRenders m => set_displayModeProp m s
  end.

Definition run (tr : list event) (s : view) : view := foldl step s tr.

End Numbers.

End Display.

(** ** First load, spinner and the re-run on a change of the CSP mode *)

Module Loading.
Import AgentPrompt.

(** The state of [MCPAppsRendererBase] that the spinner effect and the
    effect on [cspMode] read and write. [spinner_timer] tells whether the
    timeout of the spinner effect is pending, [onRerun] whether the parent
    passed the callback, [reruns] how often it was called. *)
Record loading := {
  cspMode : CspMode;
  prevCspModeRef : CspMode;
  hasLoadedOnceRef : bool;
  isReady : bool;
  initCount : nat;
  showSpinner : bool;
  spinner_timer : bool;
  onRerun : bool;
  reruns : nat
}.

(** The first render: [useState] and [useRef] with their initial values. *)
Definition first_render (mode : CspMode) (onRerun_ : bool) : loading :=
  {| cspMode := mode; prevCspModeRef := mode; hasLoadedOnceRef := false;
     isReady := false; initCount := 0; showSpinner := true; spinner_timer := false;
     onRerun := onRerun_; reruns := 0 |}.

(** [isReady || initCount > 0] *)
Definition iframeEffectivelyReady (s : loading) : bool :=
  isReady s || bool_decide (0 < initCount s)%nat.

Definition set_timer (b : bool) (s : loading) : loading :=
  {| cspMode := cspMode s; prevCspModeRef := prevCspModeRef s;
     hasLoadedOnceRef := hasLoadedOnceRef s; isReady := isReady s;
     initCount := initCount s; showSpinner := showSpinner s; spinner_timer := b;
     onRerun := onRerun s; reruns := reruns s |}.

(** The spinner effect: the cleanup of its last run clears the timeout,
    then the body arms one when the iframe is ready and the spinner shows. *)
Definition spinner_effect (s : loading) : loading :=
  let s := set_timer false s in
  if negb (iframeEffectivelyReady s) || negb (showSpinner s) then s
  else set_timer true s.

(** A commit after a state change: the spinner effect runs when one of its
    dependencies changed. *)
Definition commit (old new : loading) : loading :=
  if bool_decide (iframeEffectivelyReady new = iframeEffectivelyReady old)
     && bool_decide (showSpinner new = showSpinner old)
  then new
  else spinner_effect new.

(** The callback of the timeout: [setShowSpinner(false)] and
    [hasLoadedOnceRef.current = true]. *)
Definition spinner_timeout (s : loading) : loading :=
  {| cspMode := cspMode s; prevCspModeRef := prevCspModeRef s;
     hasLoadedOnceRef := true; isReady := isReady s;
     initCount := initCount s; showSpinner := false; spinner_timer := false;
     onRerun := onRerun s; reruns := reruns s |}.

(** The state updates of [fetchWidgetHtml] once the widget content is
    there: [setIsReady(false)] and, before the first load, [setShowSpinner(true)]. *)
Definition widget_fetched (s : loading) : loading :=
  {| cspMode := cspMode s; prevCspModeRef := prevCspModeRef s;
     hasLoadedOnceRef := hasLoadedOnceRef s; isReady := false;
     initCount := initCount s;
     showSpinner := if negb (hasLoadedOnceRef s) then true else showSpinner s;
     spinner_timer := spinner_timer s;
     onRerun := onRerun s; reruns := reruns s |}.

Definition set_isReady (b : bool) (s : loading) : loading :=
  {| cspMode := cspMode s; prevCspModeRef := prevCspModeRef s;
     hasLoadedOnceRef := hasLoadedOnceRef s; isReady := b;
     initCount := initCount s; showSpinner := showSpinner s;
     spinner_timer := spinner_timer s;
     onRerun := onRerun s; reruns := reruns s |}.

Definition set_initCount (n : nat) (s : loading) : loading :=
  {| cspMode := cspMode s; prevCspModeRef := prevCspModeRef s;
     hasLoadedOnceRef := hasLoadedOnceRef s; isReady := isReady s;
     initCount := n; showSpinner := showSpinner s;
     spinner_timer := spinner_timer s;
     onRerun := onRerun s; reruns := reruns s |}.

#[global] Instance CspMode_eq_dec : EqDecision CspMode.
Proof. solve_decision. Defined.

(** The effect on [cspMode], in a render with the mode [mode]. *)
Definition cspMode_effect (mode : CspMode) (s : loading) : loading :=
  if bool_decide (prevCspModeRef s = mode)
  then {| cspMode := mode; prevCspModeRef := prevCspModeRef s;
          hasLoadedOnceRef := hasLoadedOnceRef s; isReady := isReady s;
          initCount := initCount s; showSpinner := showSpinner s;
          spinner_timer := spinner_timer s;
          onRerun := onRerun s; reruns := reruns s |}
  else {| cspMode := mode; prevCspModeRef := mode;
          hasLoadedOnceRef := hasLoadedOnceRef s; isReady := isReady s;
          initCount := initCount s; showSpinner := showSpinner s;
          spinner_timer := spinner_timer s;
          onRerun := onRerun s;
          reruns := if hasLoadedOnceRef s && onRerun s then S (reruns s) else reruns s |}.

Inductive event :=
| Render (mode : CspMode)
| WidgetFetched
| BridgeCreated
| IframeLoaded
| Initialized
| SpinnerTimeout.

Definition step (s : loading) (e : event) : loading :=
  match e with
  | Render mode => cspMode_effect mode s
  | WidgetFetched => commit s (widget_fetched s)
  | BridgeCreated => commit s (set_initCount 0 s)
  | IframeLoaded => commit s (set_isReady true s)
  | Initialized => commit s (set_initCount (S (initCount s)) s)
  | SpinnerTimeout =>
      if spinner_timer s then commit s (spinner_timeout s) else s
  end.

Definition run (tr : list event) (s : loading) : loading := foldl step s tr.

End Loading.

(** ** The props selection of the debug controls *)

Module PropsSelection.

Definition NO_PROPS_VALUE : string := "__no_props__".
Definition TOOL_PROPS_VALUE : string := "__tool_props__".
Definition CREATE_PRESET_VALUE : string := "__create_preset__".

(** The prop [propsContext]. *)
Inductive context_kind := ToolContext | ResourceContext.

#[global] Instance context_kind_eq_dec : EqDecision context_kind.
Proof. solve_decision. Defined.

(** What the selection reads and writes. [activePresetId] and
    [activeProps] are what the hook [useResourceProps] reports in this
    render: the id of the active preset and the result of [getActiveProps()].
    The calls of [setActivePreset] and of [onPropsChange] are recorded. *)
Record controls := {
  propsContext : context_kind;
  toolInput : bool;
  activePresetId : option string;
  activeProps : option (list (string * string));
  onPropsChange : bool;
  selectValue : string;
  propsDialogOpen : bool;
  editingPreset : option string;
  setActivePreset_calls : list (option string);
  onPropsChange_calls : list (option (list (string * string)))
}.

(** [getDefaultSelectValue] *)
Definition getDefaultSelectValue (s : controls) : string :=
  if bool_decide (propsContext s = ToolContext) && toolInput s
  then TOOL_PROPS_VALUE
  else NO_PROPS_VALUE.

(** Truthiness of an id that may be missing. *)
Definition truthy_id (id : option string) : bool :=
  match id with
  | Some s => JS.truthy_string s
  | None => false
  end.

(** [selectValue === NO_PROPS_VALUE || selectValue === TOOL_PROPS_VALUE] *)
Definition no_override (value : string) : bool :=
  bool_decide (value = NO_PROPS_VALUE) || bool_decide (value = TOOL_PROPS_VALUE).

(** The value that the effect on the active preset passes to
    [setSelectValue], or the current value when it calls nothing. *)
Definition select_effect (s : controls) : string :=
  if truthy_id (activePresetId s) && bool_decide (propsContext s ≠ ToolContext)
  then default "" (activePresetId s)
  else if negb (no_override (selectValue s))
       then getDefaultSelectValue s
       else selectValue s.

(** The calls of [onPropsChange] that the notifying effect makes. *)
Definition notify_effect (s : controls) : list (option (list (string * string))) :=
  if negb (onPropsChange s) then []
  else if no_override (selectValue s) then [None]
       else if truthy_id (activePresetId s) then [activeProps s]
            else [].

(** One commit: both effects run on the state of the render, the new
    select value is there in the next render. *)
Definition commit (s : controls) : controls :=
  {| propsContext := propsContext s; toolInput := toolInput s;
     activePresetId := activePresetId s; activeProps := activeProps s;
     onPropsChange := onPropsChange s;
     selectValue := select_effect s;
     propsDialogOpen := propsDialogOpen s; editingPreset := editingPreset s;
     setActivePreset_calls := setActivePreset_calls s;
     onPropsChange_calls := onPropsChange_calls s ++ notify_effect s |}.

(** Commits follow one another as long as the select value changes. *)
Fixpoint settle (fuel : nat) (s : controls) : controls :=
  match fuel with
  | O => s
  | S fuel' =>
      let s' := commit s in
      if bool_decide (selectValue s' = selectValue s) then s' else settle fuel' s'
  end.

(** [handleValueChange] *)
Definition handleValueChange (value : string) (s : controls) : controls :=
  if bool_decide (value = CREATE_PRESET_VALUE)
  then {| propsContext := propsContext s; toolInput := toolInput s;
          activePresetId := activePresetId s; activeProps := activeProps s;
          onPropsChange := onPropsChange s; selectValue := selectValue s;
          propsDialogOpen := true; editingPreset := None;
          setActivePreset_calls := setActivePreset_calls s;
          onPropsChange_calls := onPropsChange_calls s |}
  else {| propsContext := propsContext s; toolInput := toolInput s;
          activePresetId := activePresetId s; activeProps := activeProps s;
          onPropsChange := onPropsChange s; selectValue := value;
          propsDialogOpen := propsDialogOpen s; editingPreset := editingPreset s;
          setActivePreset_calls :=
            setActivePreset_calls s
            ++ [if no_override value then None else Some value];
          onPropsChange_calls := onPropsChange_calls s |}.

(** The next render, with what the hook reports then. *)
Definition hook_reports (id : option string) (props : option (list (string * string)))
    (s : controls) : controls :=
  {| propsContext := propsContext s; toolInput := toolInput s;
     activePresetId := id; activeProps := props;
     onPropsChange := onPropsChange s; selectValue := selectValue s;
     propsDialogOpen := propsDialogOpen s; editingPreset := editingPreset s;
     setActivePreset_calls := setActivePreset_calls s;
     onPropsChange_calls := onPropsChange_calls s |}.

End PropsSelection.

(** ** The host context notification *)

Module HostContext.
Import Json.

(** The bridge in [bridgeRef] (bridges are numbered as they are created),
    [initCount], the ref with the key of the context sent last, the
    [hostContext] of the current render, and the calls of
    [bridge.setHostContext] with the bridge they were made on. *)
Record host := {
  bridgeRef : option nat;
  initCount : nat;
  lastHostContextRef : option string;
  hostContext : json;
  bridges_created : nat;
  setHostContext_calls : list (nat * json)
}.

(** The first render: no bridge yet. *)
Definition first_render (ctx : json) : host :=
  {| bridgeRef := None; initCount := 0; lastHostContextRef := None;
     hostContext := ctx; bridges_created := 0; setHostContext_calls := [] |}.

(** The effect that updates the host context. *)
Definition host_context_effect (s : host) : host :=
  match bridgeRef s with
  | None => s
  | Some bridge =>
      if bool_decide (initCount s = 0%nat) then s
      else
        let contextKey := stringify (hostContext s) in
        if bool_decide (lastHostContextRef s = Some contextKey) then s
        else {| bridgeRef := bridgeRef s; initCount := initCount s;
                lastHostContextRef := Some contextKey;
                hostContext := hostContext s;
                bridges_created := bridges_created s;
                setHostContext_calls :=
                  setHostContext_calls s ++ [(bridge, hostContext s)] |}
  end.

(** The body of the bridge effect as far as this state goes:
    [bridgeRef.current = bridge]. Its [setInitCount(0)] shows in the next
    render. *)
Definition bridge_effect (s : host) : host :=
  {| bridgeRef := Some (bridges_created s); initCount := initCount s;
     lastHostContextRef := lastHostContextRef s;
     hostContext := hostContext s;
     bridges_created := S (bridges_created s);
     setHostContext_calls := setHostContext_calls s |}.

Definition reset_initCount (s : host) : host :=
  {| bridgeRef := bridgeRef s; initCount := 0;
     lastHostContextRef := lastHostContextRef s;
     hostContext := hostContext s;
     bridges_created := bridges_created s;
     setHostContext_calls := setHostContext_calls s |}.

(** Its cleanup: [bridgeRef.current = null] and
    [lastHostContextRef.current = null]. *)
Definition bridge_cleanup (s : host) : host :=
  {| bridgeRef := None; initCount := initCount s;
     lastHostContextRef := None;
     hostContext := hostContext s;
     bridges_created := bridges_created s;
     setHostContext_calls := setHostContext_calls s |}.

Definition set_hostContext (ctx : json) (s : host) : host :=
  {| bridgeRef := bridgeRef s; initCount := initCount s;
     lastHostContextRef := lastHostContextRef s;
     hostContext := ctx;
     bridges_created := bridges_created s;
     setHostContext_calls := setHostContext_calls s |}.

Definition count_init (s : host) : host :=
  {| bridgeRef := bridgeRef s; initCount := S (initCount s);
     lastHostContextRef := lastHostContextRef s;
     hostContext := hostContext s;
     bridges_created := bridges_created s;
     setHostContext_calls := setHostContext_calls s |}.

(** A render with another host context; a counted announcement of the
    guest; a commit in which the bridge effect runs (after the cleanup of its
    last run, if it ran before), whose render may have brought another host
    context; the cleanup alone (the unmount, or a run of the bridge effect
    that returns before it creates a bridge). The effect on the host context
    runs in a commit when one of its dependencies changed in the render of
    that commit, with [initCount] as that render had it: in the commit of the
    bridge effect that is the count of the old bridge, and zero only in the
    render after it. *)
Inductive event :=
| Render (ctx : json)
| Initialized
| BridgeEffect (ctx : option json)
| Unmount.

Definition step (s : host) (e : event) : host :=
  match e with
  | Render ctx => host_context_effect (set_hostContext ctx s)
  | Initialized => host_context_effect (count_init s)
  | BridgeEffect ctx =>
      let s := match bridgeRef s with Some _ => bridge_cleanup s | None => s end in
      let s := bridge_effect s in
      let s := match ctx with
               | Some c => host_context_effect (set_hostContext c s)
               | None => s
               end in
      host_context_effect (reset_initCount s)
  | Unmount => bridge_cleanup s
  end.

Definition run (tr : list event) (s : host) : host := foldl step s tr.

End HostContext.

(** ** Predicates used to state and prove the properties *)

Module CspInvariants.
Import JS Csp.

(** What the assembly of the policy needs to know about a token. *)
Definition tidy (t : string) : Prop :=
  t ≠ "" ∧ trimEnd t = t ∧ ∀ c, forbidden c = true → count_char c t = 0%nat.

(** The characters that the policy grammar gives a meaning to and that no
    directive value may contain. *)
Definition separator (c : ascii) : Prop :=
  c = ";"%char ∨ c = "<"%char ∨ c = ">"%char ∨ c = "034"%char.

(** A directive value: not empty, no white space at its end, no separator. *)
Definition value_ok (v : string) : Prop :=
  v ≠ "" ∧ trimEnd v = v ∧ ∀ c, separator c → count_char c v = 0%nat.

(** A directive: a name and a space in front of a value. *)
Definition directive_ok (d : string) : Prop :=
  trim d = d ∧ ∀ c, separator c → count_char c d = 0%nat.

End CspInvariants.

Module SuggestedFixInvariants.
Import SuggestedFix.

(** The loop only ever adds to the sets, and keeps them free of repeats. *)
Definition sets_NoDup (st : sets) : Prop :=
  NoDup (connectSet st) ∧ NoDup (resourceSet st) ∧ NoDup (frameSet st).

(** The blocked URI of a violation as the specification reads it: the text
    of [blockedUri] without the white space around it, empty when the field
    is missing. *)
Definition blocked_text (v : CspViolation) : string :=
  JS.trim (default "" (blockedUri v)).

(** The violations that the specification says are skipped: the blocked URI
    is empty, is [(inline)], or is a blob or data URI. *)
Definition skipped_as_specified (v : CspViolation) : Prop :=
  blocked_text v = ""
  ∨ blocked_text v = "(inline)"
  ∨ (∃ rest, blocked_text v = "blob:" +:+ rest)
  ∨ (∃ rest, blocked_text v = "data:" +:+ rest).

End SuggestedFixInvariants.

Module RendererInvariants.
Import Json Renderer.

(** The state that only [oninitialized], the timers and the cleanup touch. *)
Definition same_lifecycle (w w' : world) : Prop :=
  initCount w' = initCount w
  ∧ cur w' = cur w
  ∧ lastInitTimeRef (the_refs w') = lastInitTimeRef (the_refs w)
  ∧ resendTimerRef (the_refs w') = resendTimerRef (the_refs w)
  ∧ bridgeRef (the_refs w') = bridgeRef (the_refs w)
  ∧ listening w' = listening w
  ∧ the_phase w' = the_phase w
  ∧ clock (plat w') = clock (plat w)
  ∧ timers (plat w') = timers (plat w).

(** After the counted announcement at [g]. *)
Definition counted (w : world) (g : Z) (p : props) : Prop :=
  lastInitTimeRef (the_refs w) = g ∧ initCount w = 1%nat ∧ cur w = p
  ∧ now w = g ∧ deferred_resends w = [] ∧ timers (plat w) = [].

(** After a suppressed announcement at [d]: one resend timer is pending,
    due at [d + 300], and it is the one the ref holds. *)
Definition armed (w : world) (g d : Z) (p : props) : Prop :=
  lastInitTimeRef (the_refs w) = g ∧ initCount w = 1%nat ∧ cur w = p
  ∧ now w = d ∧ deferred_resends w = []
  ∧ ∃ h, resendTimerRef (the_refs w) = Some h
       ∧ timers (plat w) = [{| timer_handle := h; timer_deadline := d + 300;
                                timer_callback_of := ResendCb |}].

(** What a run of attempts and frames never changes. *)
Definition same_epoch (w0 w : world) : Prop :=
  initCount w = initCount w0 ∧ cur w = cur w0
  ∧ bridgeRef (the_refs w) = bridgeRef (the_refs w0)
  ∧ now w = now w0.

(** Nothing was sent or requested yet. *)
Definition idle (w0 w : world) : Prop :=
  same_epoch w0 w
  ∧ toolInputSentRef (the_refs w) = toolInputSentRef (the_refs w0)
  ∧ lastSentPropsRef (the_refs w) = lastSentPropsRef (the_refs w0)
  ∧ bridge_log (out w) = bridge_log (out w0)
  ∧ frames (plat w) = [] ∧ inputCleanup w = None.

(** While the bridge effect is mounted every pending timer is a resend
    timer, and it is the one [resendTimerRef] holds. *)
Definition timers_tracked (w : world) : Prop :=
  the_phase w = Mounted →
  ∀ x, x ∈ timers (plat w) →
    timer_callback_of x = ResendCb ∧ resendTimerRef (the_refs w) = Some (timer_handle x).

(** Every pending animation frame is the one that the cleanup of the
    tool-input effect cancels. *)
Definition frames_tracked (w : world) : Prop :=
  ∀ f, f ∈ frames (plat w) → inputCleanup w = Some (frame_handle f).

Definition tracked (w : world) : Prop := timers_tracked w ∧ frames_tracked w.

Definition teardown_entry (t : Z) : bridge_entry :=
  {| entry_time := t; entry_by := ByCleanup; entry_call := TeardownResource |}.

Definition close_entry (t : Z) : bridge_entry :=
  {| entry_time := t; entry_by := ByCleanup; entry_call := Close |}.

(** The cleanup ran at time [t] on a log [base]: the listener is gone, no
    frame and no resend timer is pending, and either the race is still open,
    with its timeout due at [t + 2000], or [close] was called once, no later
    than that. *)
Definition torn (base : list bridge_entry) (t : Z) (w : world) : Prop :=
  listening w = false
  ∧ bridgeRef (the_refs w) = false
  ∧ frames (plat w) = []
  ∧ ((the_phase w = TearingDown
      ∧ t ≤ now w < t + 2000
      ∧ bridge_log (out w) = base ++ [teardown_entry t]
      ∧ ∃ h, timers (plat w) = [{| timer_handle := h; timer_deadline := t + 2000;
                                    timer_callback_of := TeardownTimeoutCb |}])
     ∨ (the_phase w = Closed
        ∧ (∃ tc, t ≤ tc ≤ t + 2000
               ∧ bridge_log (out w) = base ++ [teardown_entry t; close_entry tc])
        ∧ Forall (λ x, timer_callback_of x = TeardownTimeoutCb) (timers (plat w)))).

Section Component.
Context (JSON_parse : string → option json).
Context (E : env).

Local Abbreviation mergedArgs := (mergedArgs JSON_parse).
Local Abbreviation input_already_sent := (input_already_sent JSON_parse E).

(** Nothing was sent yet, and the frame that the effect requested last is
    the one pending frame. *)
Definition scheduled (w0 w : world) : Prop :=
  same_epoch w0 w
  ∧ toolInputSentRef (the_refs w) = toolInputSentRef (the_refs w0)
  ∧ lastSentPropsRef (the_refs w) = lastSentPropsRef (the_refs w0)
  ∧ bridge_log (out w) = bridge_log (out w0)
  ∧ ∃ h, inputCleanup w = Some h
       ∧ frames (plat w) =
           [{| frame_handle := h;
               frame_mergedArgs := mergedArgs (cur w0);
               frame_sentKey := sentKey (toolCallId E) (initCount w0);
               frame_propsKey := stringify (mergedArgs (cur w0)) |}].

(** The payload went out once, and both keys say so. *)
Definition sent_once (w0 w : world) : Prop :=
  same_epoch w0 w
  ∧ input_already_sent w
  ∧ frames (plat w) = []
  ∧ ∃ by_, bridge_log (out w)
           = bridge_log (out w0)
             ++ [{| entry_time := now w0; entry_by := by_;
                    entry_call := SendToolInput (tool_input_params (mergedArgs (cur w0))) |}].

End Component.

End RendererInvariants.

Module ExampleValues.
Import Json Renderer Examples SuggestedFix Csp.

Definition clean_declaration : WidgetDeclaredCsp :=
  {| connectDomains := Some ["https://api.example.com"; "wss://rt.example.com"];
     resourceDomains := Some ["https://cdn.example.com"];
     frameDomains := None;
     baseUriDomains := Some [] |}.

Definition quoted_keyword_declaration : WidgetDeclaredCsp :=
  {| connectDomains := Some ["'self'"];
     resourceDomains := None;
     frameDomains := None;
     baseUriDomains := None |}.

Definition example_violation : CspViolation :=
  {| directive := Some "connect-src";
     effectiveDirective := Some "connect-src";
     blockedUri := Some "https://api.example.com/x";
     sourceFile := None; lineNumber := None; columnNumber := None;
     originalPolicy := None; timestamp := 1700000000000 |}.

Definition inline_violation : CspViolation :=
  {| directive := Some "script-src";
     effectiveDirective := Some "script-src-elem";
     blockedUri := Some "(inline)";
     sourceFile := None; lineNumber := None; columnNumber := None;
     originalPolicy := None; timestamp := 1700000000001 |}.

Definition before_unmount : list (Z * event) :=
  [(1000, EvMessage initialized_event); (1500, EvMessage initialized_event)].

Definition after_unmount : list (Z * event) :=
  [(1700, EvMessage initialized_event); (1750, EvFrame)].

End ExampleValues.

(** ** Predicates and examples for the further properties *)

Module InboundInvariants.
Import Json Renderer.

(** What only the message handler writes: the entries of the RPC log of
    direction receive, the messages handed to the transport of the bridge, and
    the posts to the parent page. *)
Definition inbound (w : world) : list (Z * json) * list json * list json :=
  (rpc_log (out w), delivered (out w), parent_posts (out w)).

(** The received messages of the RPC log that the handler hands on: the
    truthy ones. *)
Definition handed_on (log : list (Z * json)) : list json :=
  filter (λ m, truthy m = true) (snd <$> log).

(** An error report about this widget, posted from an embedded page. *)
Definition error_report_of (E : env) (m : json) : Prop :=
  embedded E = true
  ∧ get "type" m = Some (JStr "mcp-inspector:widget:error")
  ∧ get "toolId" m = Some (JStr (toolCallId E)).

(** The messages that the bridge sends through the transport in a
    schedule, in order. *)
Definition sent_messages (sched : list (Z * event)) : list json :=
  omap (λ te, match te.2 with EvTransportSend m _ => Some m | _ => None end) sched.

End InboundInvariants.

Module PayloadInvariants.
Import Json Renderer.

Section Component.
Context (JSON_parse : string → option json).

(** What the loop over the custom props stores for one value: the parsed
    value when the string looks like a serialized array or object and
    parses, the string itself otherwise. *)
Definition custom_prop_value (v : string) : json :=
  if JS.startsWith "[" (JS.trim v) || JS.startsWith "{" (JS.trim v)
  then default (JStr v) (JSON_parse v)
  else JStr v.

Definition custom_prop_values (cp : list (string * string)) : list (string * json) :=
  (λ kv, (kv.1, custom_prop_value kv.2)) <$> cp.

End Component.

(** The entry of the bridge log for a call made at the time of [w]. *)
Definition entry_at (w : world) (by_ : caller) (c : bridge_call) : bridge_entry :=
  {| entry_time := now w; entry_by := by_; entry_call := c |}.

Definition is_full_input (e : bridge_entry) : Prop :=
  ∃ params, entry_call e = SendToolInput params.

End PayloadInvariants.

Module StartInvariants.
Import Json Renderer.

(** The direction in which one run of the bridge effect moves: until its
    cleanup [initCount] does not go down, and once it is cleaned up it is not
    mounted again. *)
Definition onward (w w' : world) : Prop :=
  (initCount w ≤ initCount w')%nat ∧ (the_phase w' = Mounted → the_phase w = Mounted).

(** No announcement of the guest was counted yet. *)
Definition unannounced (w : world) : Prop :=
  the_phase w = Mounted ∧ initCount w = 0%nat.

(** Nothing has happened on the bridge since the calls [base]: no further
    call, no pending timer or frame, no time of a counted announcement. *)
Definition quiet (base : list bridge_entry) (w : world) : Prop :=
  lastInitTimeRef (the_refs w) = 0 ∧ timers (plat w) = [] ∧ frames (plat w) = []
  ∧ bridge_log (out w) = base.

End StartInvariants.

Module FixInvariants.
Import SuggestedFix.

Section WithURL.
Context (URL_origin : string → option string).

(** The origin that the loop of [computeSuggestedFix] works with for a
    violation: there is none when the violation is skipped, when its URI
    does not parse, and when the origin is the empty string. *)
Definition blocked_origin (v : CspViolation) : option string :=
  if skipped_uri (violation_uri v) then None
  else match URL_origin (violation_uri v) with
       | Some o => if JS.truthy_string o then Some o else None
       | None => None
       end.

(** Some violation of the list has the directive [dir] and an origin that
    [adds] relates to [x]. *)
Definition blocked_by (violations : list CspViolation) (dir : string → Prop)
    (adds : string → Prop) : Prop :=
  ∃ v o, v ∈ violations ∧ blocked_origin v = Some o ∧ dir (violation_dir v) ∧ adds o.

End WithURL.


End FixInvariants.

Module PolicyInvariants.
Import Csp.

(** The declaration that lists the tokens [buildCSPString] made of
    another one. *)
Definition sanitized (csp : WidgetDeclaredCsp) : WidgetDeclaredCsp :=
  {| connectDomains := Some (domains (connectDomains csp));
     resourceDomains := Some (domains (resourceDomains csp));
     frameDomains := Some (domains (frameDomains csp));
     baseUriDomains := Some (domains (baseUriDomains csp)) |}.

End PolicyInvariants.

Module WidgetMetaInvariants.
Import Json WidgetMeta.

(** The name under which [openai/widgetCSP] carries what the declaration
    calls [camel]. *)
Definition snake_name (camel : string) : option string :=
  if decide (camel = "connectDomains") then Some "connect_domains"
  else if decide (camel = "resourceDomains") then Some "resource_domains"
  else if decide (camel = "frameDomains") then Some "frame_domains"
  else if decide (camel = "baseUriDomains") then Some "base_uri_domains"
  else if decide (camel = "scriptDirectives") then Some "script_directives"
  else None.

(** A value when it is an array, nothing otherwise. *)
Definition array_of (v : option json) : option json :=
  match v with
  | Some (JArr items) => Some (JArr items)
  | _ => None
  end.

(** The value of [k] in content-item metadata laid over listing metadata. *)
Definition overlaid (k : string) (listing content : option (list (string * json)))
  : option json :=
  match lookup_prop k (default [] content) with
  | Some x => Some x
  | None => lookup_prop k (default [] listing)
  end.

End WidgetMetaInvariants.

Module DisplayInvariants.
Import Display.

Definition is_size_change {number : Type} (e : event (number := number)) : Prop :=
  match e with
  | GuestSizeChange _ _ _ => True
  | _ => False
  end.

Definition is_fullscreen_change {number : Type} (e : event (number := number)) : Prop :=
  match e with
  | FullscreenChange _ => True
  | _ => False
  end.

(** [handleDisplayModeChange] makes a native call for this mode. *)
Definition needs_native {number : Type} (mode : DisplayMode) (s : view (number := number))
  : Prop :=
  (mode = Fullscreen ∧ containerRef s = true) ∨ (mode ≠ Fullscreen ∧ fullscreenElement s = true).

(** The height that [onsizechange] applies for a requested height. *)
Definition applied_height {number : Type} (plus : number → number → number)
    (h : number) (style : computed_style (number := number)) : number :=
  if border_box style
  then plus h (plus (borderTopWidth style) (borderBottomWidth style))
  else h.

(** The mode that an event makes the frame take, if it does: a request of
    the guest (inline when it names no mode), a change by the user that needs
    no native call, a native call that settles (the mode that waited for it),
    and the document leaving fullscreen while the frame is in fullscreen
    mode. *)
Definition mode_change {number : Type} (s : view (number := number))
    (e : event (number := number)) : option DisplayMode :=
  match e with
  | GuestRequestMode mode => Some (default Inline mode)
  | UserChange mode =>
      if (if bool_decide (mode = Fullscreen) then containerRef s else fullscreenElement s)
      then None else Some mode
  | NativeSettled _ => head (pending s)
  | FullscreenChange element =>
      if negb element && bool_decide (displayMode s = Fullscreen) then Some Inline else None
  | GuestSizeChange _ _ _ | ParentRenders _ => None
  end.

(** The modes that the events of a trace make the frame take, in order. *)
Fixpoint mode_changes {number : Type} (plus : number → number → number)
    (number_to_string : number → string) (tr : list (event (number := number)))
    (s : view (number := number)) : list DisplayMode :=
  match tr with
  | [] => []
  | e :: tr =>
      option_list (mode_change s e)
      ++ mode_changes plus number_to_string tr (step plus number_to_string s e)
  end.

End DisplayInvariants.

Module LoadingInvariants.
Import AgentPrompt Loading.

(** An event that is not a render with another CSP mode than [mode]. *)
Definition keeps_mode (mode : CspMode) (e : event) : Prop :=
  match e with
  | Render mode' => mode' = mode
  | _ => True
  end.

(** Before the first load no re-run was requested; after it the spinner
    is hidden. *)
Definition gated (s : loading) : Prop :=
  (hasLoadedOnceRef s = false → reruns s = 0%nat)
  ∧ (hasLoadedOnceRef s = true → showSpinner s = false).

End LoadingInvariants.

Module HostContextInvariants.
Import Json HostContext.

(** No two calls that follow one another on the same bridge carry
    contexts with the same serialization. *)
Definition no_repeat (calls : list (nat * json)) : Prop :=
  ∀ (i : nat) (bridge : nat) (c1 c2 : json),
    calls !! i = Some (bridge, c1) → calls !! S i = Some (bridge, c2) →
    stringify c1 ≠ stringify c2.

(** The ref holds the key of the last call exactly when that call was made
    on the current bridge; it is empty when there is no bridge; and every
    bridge that was called was created. *)
Definition key_tracked (s : host) : Prop :=
  Forall (λ e, (e.1 < bridges_created s)%nat) (setHostContext_calls s)
  ∧ match bridgeRef s with
    | Some b =>
        (b < bridges_created s)%nat
        ∧ ∀ k, lastHostContextRef s = Some k
               ↔ ∃ c, last (setHostContext_calls s) = Some (b, c) ∧ stringify c = k
    | None => lastHostContextRef s = None
    end.

(** With a bridge whose guest has announced itself, the ref holds the key
    of the current host context. *)
Definition told (s : host) : Prop :=
  ∀ b, bridgeRef s = Some b → initCount s ≠ 0%nat →
    lastHostContextRef s = Some (stringify (hostContext s)).

(** The bridge knows the current host context: when there is a bridge and
    its guest has announced itself, the last call of [setHostContext] was made
    on that bridge, with a context that serializes as the current one. *)
Definition up_to_date (s : host) : Prop :=
  ∀ b, bridgeRef s = Some b → initCount s ≠ 0%nat →
    ∃ c, last (setHostContext_calls s) = Some (b, c)
         ∧ stringify c = stringify (hostContext s).

End HostContextInvariants.

Module MoreExamples.
Import Json Renderer Examples SuggestedFix.

(** A preset that overrides an argument of the tool call. *)
Definition override_props : props :=
  {| toolInput := Some [("city", JStr "Paris"); ("days", JNum 3)];
     toolOutput := None;
     customProps := Some [("city", "Lyon")];
     partialToolInput := None |}.

(** The result of [example_props] again, now flagged as an error. *)
Definition error_output : json :=
  JObj [("structuredContent", JObj [("temp", JNum 21)]); ("isError", JBool true)].

Definition error_props : props :=
  {| toolInput := Some [("city", JStr "Paris")];
     toolOutput := Some error_output;
     customProps := None;
     partialToolInput := None |}.

Definition all_changed : changed :=
  {| toolInput_changed := true; toolOutput_changed := true;
     customProps_changed := true; partialToolInput_changed := true |}.

(** A message that the bridge sends of its own accord. *)
Definition ping : json := JObj [("jsonrpc", JStr "2.0"); ("method", JStr "ping")].

(** Before any announcement: a render, a message from another window, a
    message sent by the bridge, an animation frame. *)
Definition unannounced_schedule : list (Z * event) :=
  [(10, EvRender streaming_props all_changed); (20, EvMessage spoofed_event);
   (25, EvTransportSend ping true); (30, EvFrame)].

(** An announcement before the unmount; another one and a message of the
    bridge after it. *)
Definition mounted_schedule : list (Z * event) :=
  [(1000, EvMessage initialized_event)].

Definition unmounted_schedule : list (Z * event) :=
  [(2000, EvMessage initialized_event); (2100, EvTransportSend ping false)].

(** A blocked fetch and a blocked image. *)
Definition fetch_violation : CspViolation :=
  {| directive := Some "connect-src"; effectiveDirective := Some "connect-src";
     blockedUri := Some "https://api.example.com/v1/items";
     sourceFile := None; lineNumber := None; columnNumber := None;
     originalPolicy := None; timestamp := 1 |}.

Definition image_violation : CspViolation :=
  {| directive := Some "img-src"; effectiveDirective := Some "img-src";
     blockedUri := Some "https://cdn.example.com/logo.png";
     sourceFile := None; lineNumber := None; columnNumber := None;
     originalPolicy := None; timestamp := 2 |}.

(** Metadata of a listing and of a content item that both declare a CSP,
    and tool metadata with a legacy declaration. *)
Definition listing_meta : list (string * json) :=
  [("csp", JObj [("connectDomains", strings ["https://listing.example.com"])])].

Definition content_meta : list (string * json) :=
  [("prefersBorder", JBool true);
   ("csp", JObj [("connectDomains", strings ["https://content.example.com"])])].

Definition legacy_csp : json :=
  JObj [("connect_domains", strings ["https://api.example.com"]);
        ("resource_domains", JStr "https://cdn.example.com")].

Definition legacy_tool_meta : json := JObj [("openai/widgetCSP", legacy_csp)].

(** A frame in inline mode that nobody controls, with whole numbers of
    pixels. *)
Definition inline_view : Display.view (number := Z) :=
  {| Display.displayModeProp := None; Display.onDisplayModeChange := false;
     Display.internalDisplayMode := Display.Inline; Display.inlineHeight := 300;
     Display.fullscreenElement := false; Display.containerRef := true;
     Display.style_width := None; Display.style_height := None;
     Display.mode_calls := []; Display.native_calls := []; Display.pending := [];
     Display.animations := [] |}.

Definition bordered : Display.computed_style (number := Z) :=
  {| Display.border_box := true;
     Display.borderLeftWidth := 1; Display.borderRightWidth := 1;
     Display.borderTopWidth := 1; Display.borderBottomWidth := 1 |}.

(** To fullscreen and back by the escape key. *)
Definition fullscreen_round_trip : list (Display.event (number := Z)) :=
  [Display.UserChange Display.Fullscreen; Display.FullscreenChange true;
   Display.NativeSettled true; Display.FullscreenChange false].

(** A preset picked in the tool context, and the hook reporting it. *)
Definition picked_preset : PropsSelection.controls :=
  PropsSelection.hook_reports (Some "preset-1") (Some [("units", "metric")])
    (PropsSelection.handleValueChange "preset-1"
       {| PropsSelection.propsContext := PropsSelection.ToolContext;
          PropsSelection.toolInput := true;
          PropsSelection.activePresetId := None;
          PropsSelection.activeProps := None;
          PropsSelection.onPropsChange := true;
          PropsSelection.selectValue := PropsSelection.TOOL_PROPS_VALUE;
          PropsSelection.propsDialogOpen := false;
          PropsSelection.editingPreset := None;
          PropsSelection.setActivePreset_calls := [];
          PropsSelection.onPropsChange_calls := [None] |}).

(** A result with a flag next to its structured content, and a preset. *)
Definition preset_props : props :=
  {| toolInput := Some [("city", JStr "Paris")];
     toolOutput := Some (JObj [("structuredContent", JObj [("temp", JNum 21)]);
                               ("isError", JBool false)]);
     customProps := Some [("units", "metric")];
     partialToolInput := None |}.

End MoreExamples.

(** * Properties *)

(** ** Strings *)

Module JSFacts.
Import JS.

Lemma append_cons (x : ascii) (a b : string) : String x a +:+ b = String x (a +:+ b).
Proof. reflexivity. Qed.

Lemma append_nil_l (b : string) : "" +:+ b = b.
Proof. reflexivity. Qed.

Ltac str_simpl := rewrite ?append_cons, ?append_nil_l; cbn.

Lemma append_assoc (a b c : string) : (a +:+ b) +:+ c = a +:+ (b +:+ c).
Proof. induction a as [|x a IH]; [done|]. str_simpl. by rewrite IH. Qed.

Lemma append_nil_r (a : string) : a +:+ "" = a.
Proof. induction a as [|x a IH]; [done|]. str_simpl. by rewrite IH. Qed.

Lemma length_append (a b : string) :
  String.length (a +:+ b) = (String.length a + String.length b)%nat.
Proof. induction a as [|x a IH]; [done|]. str_simpl. by rewrite IH. Qed.

Lemma chars_app (a b : string) : chars (a +:+ b) = chars a ++ chars b.
Proof. induction a as [|x a IH]; [done|]. str_simpl. by rewrite IH. Qed.

Lemma count_char_app (c : ascii) (a b : string) :
  count_char c (a +:+ b) = (count_char c a + count_char c b)%nat.
Proof. induction a as [|x a IH]; [done|]. str_simpl. rewrite IH. lia. Qed.

Lemma count_char_zero (c : ascii) (s : string) :
  count_char c s = 0%nat ↔ c ∉ chars s.
Proof.
  induction s as [|x s IH]; cbn.
  - split; [intros _; apply not_elem_of_nil | done].
  - rewrite not_elem_of_cons. destruct (decide (c = x)) as [->|Hne].
    + split; [lia | intros [? _]; done].
    + rewrite <- IH. split; [intros; split; [done | lia] | intros [_ ?]; lia].
Qed.

(** Deleting a character class leaves none of its members. *)
Lemma remove_class_free (cls : ascii → bool) (s : string) (c : ascii) :
  cls c = true → c ∉ chars (remove_class cls s).
Proof.
  intros Hc. induction s as [|x s IH]; cbn; [apply not_elem_of_nil|].
  destruct (cls x) eqn:Hx; [done|]. cbn.
  apply not_elem_of_cons. split; [congruence | done].
Qed.

Lemma trimStart_chars (s : string) (c : ascii) :
  c ∈ chars (trimStart s) → c ∈ chars s.
Proof.
  induction s as [|x s IH]; cbn; [done|].
  destruct (is_white_space x); [intros; right; auto | done].
Qed.

Lemma trimEnd_chars (s : string) (c : ascii) :
  c ∈ chars (trimEnd s) → c ∈ chars s.
Proof.
  induction s as [|x s IH]; cbn; [done|].
  destruct (trimEnd s) as [|y r] eqn:Hr.
  - destruct (is_white_space x); cbn; [by intros ?%elem_of_nil|].
    intros [->|?%elem_of_nil]%elem_of_cons; [left | done].
  - cbn. intros [->|H]%elem_of_cons; [left | right; by apply IH].
Qed.

Lemma trim_chars (s : string) (c : ascii) : c ∈ chars (trim s) → c ∈ chars s.
Proof. intros H. by apply trimStart_chars, trimEnd_chars. Qed.

(** A string survives [trimEnd] when its last code unit is not white space. *)
Lemma trimEnd_idem (s : string) : trimEnd (trimEnd s) = trimEnd s.
Proof.
  induction s as [|x s IH]; cbn; [done|].
  destruct (trimEnd s) as [|y r] eqn:Hr.
  - destruct (is_white_space x) eqn:Hx; cbn; [done | by rewrite Hx].
  - cbn [trimEnd]. cbn [trimEnd] in IH. by rewrite IH.
Qed.

Lemma trimEnd_app (a b : string) :
  trimEnd b ≠ "" → trimEnd (a +:+ b) = a +:+ trimEnd b.
Proof.
  intros Hb. induction a as [|x a IH]; [done|].
  rewrite !append_cons. cbn [trimEnd]. rewrite IH.
  destruct (a +:+ trimEnd b) as [|y r] eqn:Hab; [|done].
  destruct a; [done | discriminate].
Qed.

Lemma trimStart_trimEnd_nonws (s : string) :
  trimStart (trimEnd (trimStart s)) = trimEnd (trimStart s).
Proof.
  induction s as [|x s IH]; cbn [trimStart]; [done|].
  destruct (is_white_space x) eqn:Hx; [exact IH|].
  cbn [trimEnd]. destruct (trimEnd s); [rewrite Hx|]; cbn [trimStart]; by rewrite Hx.
Qed.

Lemma trim_idem (s : string) : trim (trim s) = trim s.
Proof. unfold trim. by rewrite trimStart_trimEnd_nonws, trimEnd_idem. Qed.

(** [trimStart] keeps a string that starts with a code unit that is not
    white space. *)
Lemma trim_stable_app (a b : string) :
  trimStart a = a → a ≠ "" → trimEnd b = b → b ≠ "" → trim (a +:+ b) = a +:+ b.
Proof.
  intros Ha Hne Hb Hbne. unfold trim.
  assert (trimStart (a +:+ b) = a +:+ b) as ->.
  { destruct a as [|x a]; [done|]. rewrite append_cons. cbn [trimStart] in *.
    destruct (is_white_space x) eqn:Hx; [|done].
    exfalso. assert (String.length (trimStart a) ≤ String.length a)%nat.
    { clear. induction a as [|y a IH]; cbn; [lia|]. destruct (is_white_space y); cbn; lia. }
    rewrite Ha in H. cbn in H. lia. }
  rewrite trimEnd_app; by rewrite Hb.
Qed.

Lemma join_cons (sep x : string) (l : list string) :
  l ≠ [] → join sep (x :: l) = x +:+ sep +:+ join sep l.
Proof. destruct l; done. Qed.

Lemma count_char_join (c : ascii) (sep : string) (l : list string) :
  count_char c sep = 0%nat → Forall (λ t, count_char c t = 0%nat) l →
  count_char c (join sep l) = 0%nat.
Proof.
  intros Hsep. induction 1 as [|x l Hx Hl IH]; [done|].
  destruct l as [|y l]; [done|].
  rewrite join_cons by done. rewrite !count_char_app. lia.
Qed.

Lemma join_nonempty (sep : string) (x : string) (l : list string) :
  x ≠ "" → join sep (x :: l) ≠ "".
Proof.
  intros Hx. destruct l; [done|]. rewrite join_cons by done.
  destruct x; [done | discriminate].
Qed.

Lemma trimEnd_join (l : list string) :
  l ≠ [] → Forall (λ t, t ≠ "" ∧ trimEnd t = t) l →
  trimEnd (join " " l) = join " " l ∧ join " " l ≠ "".
Proof.
  intros Hne Hl. induction Hl as [|x l [Hx1 Hx2] Hl IH]; [done|].
  destruct l as [|y l]; [done|].
  destruct IH as [IH1 IH2]; [done|].
  rewrite join_cons by done. split.
  - assert (trimEnd (" " +:+ join " " (y :: l)) = " " +:+ join " " (y :: l)) as Hs.
    { rewrite trimEnd_app; by rewrite IH1. }
    rewrite trimEnd_app; rewrite Hs; done.
  - destruct x; [done | discriminate].
Qed.

Lemma substring_app_drop (a b : string) :
  String.substring (String.length a) (String.length (a +:+ b) - String.length a) (a +:+ b) = b.
Proof.
  rewrite length_append. replace (_ + _ - _)%nat with (String.length b) by lia.
  induction a as [|x a IH]; [|by rewrite append_cons].
  rewrite append_nil_l. cbn [String.length]. clear.
  induction b as [|y b IH]; cbn; [done | by rewrite IH].
Qed.

Lemma startsWith_app (p s : string) : startsWith p (p +:+ s) = true.
Proof.
  induction p as [|x p IH]; [done|]. rewrite append_cons. cbn.
  by rewrite decide_True.
Qed.

Lemma startsWith_spec (p s : string) :
  startsWith p s = true ↔ ∃ r, s = p +:+ r.
Proof.
  split.
  - revert s. induction p as [|x p IH]; intros s; cbn; [by eexists|].
    destruct s as [|y s]; [done|]. destruct (decide (x = y)) as [->|]; [|done].
    intros [r ->]%IH. by exists r.
  - intros [r ->]. apply startsWith_app.
Qed.

End JSFacts.

(** ** The policy-string builder *)

Module CspFacts.
Import JS JSFacts Csp CspInvariants ExampleValues.

Lemma sanitize_free (d : string) (c : ascii) :
  forbidden c = true → c ∉ chars (sanitize d).
Proof.
  intros Hc Hin. apply trim_chars in Hin. by apply (remove_class_free forbidden d c).
Qed.

Lemma domains_elem (declared : option (list string)) (t : string) :
  t ∈ domains declared ↔ t ≠ "" ∧ ∃ d, d ∈ default [] declared ∧ t = sanitize d.
Proof.
  unfold domains. rewrite list_elem_of_filter, list_elem_of_fmap.
  assert (truthy_string t = true ↔ t ≠ "") as ->; [by destruct t|].
  split.
  - intros [Hne (d & -> & Hd)]. split; [done | by exists d].
  - intros [Hne (d & Hd & ->)]. split; [done | by exists d].
Qed.







Lemma domains_tidy (declared : option (list string)) :
  Forall tidy (domains declared).
Proof.
  apply Forall_forall. intros t [Hne (d & Hd & ->)]%domains_elem.
  split; [done|]. split.
  - unfold sanitize, trim. apply trimEnd_idem.
  - intros c Hc. apply count_char_zero. by apply sanitize_free.
Qed.

Lemma domains_clean (l : list string) :
  Forall already_clean l → domains (Some l) = l.
Proof.
  unfold domains. cbn. induction 1 as [|d l [Hne Hd] Hl IH]; [done|].
  rewrite fmap_cons, filter_cons, Hd, IH.
  rewrite decide_True; [done | by destruct d].
Qed.

Lemma connectSrc_source_list (csp : WidgetDeclaredCsp) :
  connectSrc csp = source_list (domains (connectDomains csp)).
Proof.
  unfold connectSrc, source_list.
  destruct (domains (connectDomains csp)); cbn [length];
    [by rewrite decide_False by lia | by rewrite decide_True by lia].
Qed.

Lemma frameSrc_source_list (csp : WidgetDeclaredCsp) :
  frameSrc csp = source_list (domains (frameDomains csp)).
Proof.
  unfold frameSrc, source_list.
  destruct (domains (frameDomains csp)); cbn [length];
    [by rewrite decide_False by lia | by rewrite decide_True by lia].
Qed.

Lemma baseUri_source_list (csp : WidgetDeclaredCsp) :
  baseUri csp = source_list (domains (baseUriDomains csp)).
Proof.
  unfold baseUri, source_list.
  destruct (domains (baseUriDomains csp)); cbn [length];
    [by rewrite decide_False by lia | by rewrite decide_True by lia].
Qed.

Lemma resourceSrc_resource_list (csp : WidgetDeclaredCsp) :
  resourceSrc csp = resource_list (domains (resourceDomains csp)).
Proof.
  unfold resourceSrc, resource_list.
  destruct (domains (resourceDomains csp)); cbn [length];
    [by rewrite decide_False by lia | by rewrite decide_True by lia].
Qed.

Lemma separator_forbidden (c : ascii) : separator c → forbidden c = true.
Proof. by intros [->|[->|[->| ->]]]. Qed.

Lemma join_tidy_ok (l : list string) :
  l ≠ [] → Forall tidy l → value_ok (join " " l).
Proof.
  intros Hne Hl. destruct (trimEnd_join l Hne) as [H1 H2].
  { eapply Forall_impl; [done|]. by intros t (? & ? & _). }
  split; [done|]. split; [done|].
  intros c Hc. apply count_char_join.
  - by destruct Hc as [->|[->|[->| ->]]].
  - eapply Forall_impl; [done|]. intros t (_ & _ & Ht).
    by apply Ht, separator_forbidden.
Qed.

Lemma source_list_ok (l : list string) : Forall tidy l → value_ok (source_list l).
Proof.
  intros Hl. destruct l as [|x l]; [|by apply join_tidy_ok].
  split; [done|]. split; [done|]. by intros c [->|[->|[->| ->]]].
Qed.

Lemma resource_list_ok (l : list string) : Forall tidy l → value_ok (resource_list l).
Proof.
  intros Hl. apply join_tidy_ok; [done|].
  repeat apply Forall_cons_2; try done;
    (split; [done|split; [done|]]);
    intros c Hc; apply count_char_zero; cbn; intros Hin;
    repeat (apply elem_of_cons in Hin as [->|Hin]; [discriminate Hc|]);
    by apply elem_of_nil in Hin.
Qed.

Lemma directive_app_ok (name v : string) :
  trimStart name = name → name ≠ "" →
  (∀ c, separator c → count_char c name = 0%nat) →
  value_ok v → directive_ok (name +:+ v).
Proof.
  intros H1 H2 H3 (Hv1 & Hv2 & Hv3). split.
  - by apply trim_stable_app.
  - intros c Hc. rewrite count_char_app, H3, Hv3; done.
Qed.

Lemma directives_ok (csp : WidgetDeclaredCsp) : Forall directive_ok (directives csp).
Proof.
  unfold directives.
  rewrite connectSrc_source_list, frameSrc_source_list, baseUri_source_list,
    resourceSrc_resource_list.
  pose proof (source_list_ok _ (domains_tidy (connectDomains csp))).
  pose proof (source_list_ok _ (domains_tidy (frameDomains csp))).
  pose proof (source_list_ok _ (domains_tidy (baseUriDomains csp))).
  pose proof (resource_list_ok _ (domains_tidy (resourceDomains csp))).
  repeat apply Forall_cons_2; try apply Forall_nil_2;
    try (apply directive_app_ok; [done | done | by intros c [->|[->|[->| ->]]] | done]);
    (split; [done | by intros c [->|[->|[->| ->]]]]).
Qed.

(** *** Reading the policy back *)

Lemma split_semicolon_nonempty (s : string) : split_semicolon s ≠ [].
Proof.
  destruct s as [|c s]; cbn; [done|].
  destruct (decide (c = ";"%char)); [done|]. by destruct (split_semicolon s).
Qed.

Lemma split_semicolon_app (a s : string) :
  count_char ";" a = 0%nat →
  split_semicolon (a +:+ s) =
    match split_semicolon s with
    | piece :: rest => (a +:+ piece) :: rest
    | [] => [a]
    end.
Proof.
  intros Ha. induction a as [|x a IH].
  - rewrite append_nil_l. pose proof (split_semicolon_nonempty s).
    by destruct (split_semicolon s).
  - rewrite append_cons. cbn [split_semicolon count_char] in *.
    destruct (decide (";"%char = x)) as [<-|Hx]; [lia|].
    rewrite decide_False by done. rewrite IH by lia.
    by destruct (split_semicolon s).
Qed.

Lemma split_semicolon_plain (a : string) :
  count_char ";" a = 0%nat → split_semicolon a = [a].
Proof.
  intros Ha. rewrite <- (append_nil_r a) at 1.
  rewrite split_semicolon_app by done. cbn. by rewrite append_nil_r.
Qed.

Lemma policy_directives_plain (d : string) :
  count_char ";" d = 0%nat → policy_directives d = [trim d].
Proof. intros Hd. unfold policy_directives. by rewrite split_semicolon_plain. Qed.

Lemma policy_directives_cons (d rest : string) :
  count_char ";" d = 0%nat →
  policy_directives (d +:+ "; " +:+ rest) = trim d :: policy_directives rest.
Proof.
  intros Hd. unfold policy_directives.
  rewrite split_semicolon_app by done.
  change ("; " +:+ rest) with (String ";" (String " " rest)).
  cbn [split_semicolon]. rewrite decide_True by done. cbn [fmap list_fmap].
  rewrite append_nil_r. f_equal.
  rewrite decide_False by done.
  pose proof (split_semicolon_nonempty rest).
  destruct (split_semicolon rest) as [|piece more]; [done|].
  by rewrite !fmap_cons.
Qed.

(** A user agent reads back exactly the directives that were joined. *)
Lemma policy_directives_join (ds : list string) :
  ds ≠ [] → Forall directive_ok ds → policy_directives (join "; " ds) = ds.
Proof.
  intros Hne Hds. induction Hds as [|d ds [Hd1 Hd2] Hds IH]; [done|].
  destruct ds as [|d' ds].
  - cbn [join]. rewrite policy_directives_plain, Hd1; [done|]. apply Hd2. by left.
  - rewrite join_cons by done.
    rewrite policy_directives_cons by (apply Hd2; by left).
    by rewrite Hd1, IH.
Qed.



Lemma policy_directives_build (csp : WidgetDeclaredCsp) :
  policy_directives (buildCSPString csp) = directives csp.
Proof. apply policy_directives_join; [done | apply directives_ok]. Qed.

Lemma connect_src_directive (csp : WidgetDeclaredCsp) :
  policy_directive "connect-src" (buildCSPString csp)
  = Some (source_list (domains (connectDomains csp))).
Proof.
  unfold policy_directive. rewrite policy_directives_build.
  rewrite <- connectSrc_source_list. unfold directives.
  cbn [directive_value].
  change (startsWith ("connect-src" +:+ " ") "default-src 'none'") with false.
  change (startsWith ("connect-src" +:+ " ") ("script-src 'unsafe-inline' " +:+ ?x))
    with false.
  change (startsWith ("connect-src" +:+ " ") ("style-src 'unsafe-inline' " +:+ ?x))
    with false.
  change (startsWith ("connect-src" +:+ " ") ("img-src " +:+ ?x)) with false.
  change (startsWith ("connect-src" +:+ " ") ("font-src " +:+ ?x)) with false.
  change (startsWith ("connect-src" +:+ " ") ("media-src " +:+ ?x)) with false.
  change ("connect-src" +:+ " ") with "connect-src ".
  rewrite startsWith_app. f_equal.
  apply (substring_app_drop "connect-src ").
Qed.





(** C8, as amended. When every declared connect domain is not empty and is
    left as it is by sanitizing (none of the deleted characters, no white
    space around it), the connect-src directive of the built policy string
    is ['none'] for an empty or absent list and the declared origins joined
    by single spaces otherwise. *)
Theorem connect_src_of_clean_declaration (csp : WidgetDeclaredCsp) :
  Forall already_clean (default [] (connectDomains csp)) →
  policy_directive "connect-src" (buildCSPString csp)
  = Some (match default [] (connectDomains csp) with
          | [] => "'none'"
          | l => join " " l
          end).
Proof.
  intros Hclean. rewrite connect_src_directive.
  destruct (connectDomains csp) as [l|]; [|done].
  cbn [default] in *. rewrite domains_clean by done. by destruct l.
Qed.

Lemma connect_src_of_clean_declaration_witness :
  policy_directive "connect-src" (buildCSPString clean_declaration)
  = Some "https://api.example.com wss://rt.example.com".
Proof.
  apply (connect_src_of_clean_declaration clean_declaration).
  repeat constructor; done.
Defined.

(** C8 as stated fails: a declared list that is not empty does not always
    come out as the declared origins joined by spaces. *)
Lemma connect_src_not_as_declared :
  policy_directive "connect-src" (buildCSPString quoted_keyword_declaration) = Some "self"
  ∧ ¬ connect_src_as_declared quoted_keyword_declaration.
Proof.
  split; [reflexivity|].
  unfold connect_src_as_declared. vm_compute. discriminate.
Qed.

End CspFacts.

(** ** The suggested fix *)

Module SuggestedFixFacts.
Import JS JSFacts SuggestedFix SuggestedFixInvariants ExampleValues.

Lemma elem_of_set_add (x y : string) (s : list string) :
  y ∈ set_add x s ↔ y = x ∨ y ∈ s.
Proof.
  unfold set_add. destruct (decide (x ∈ s)) as [Hin|Hnin].
  - split; [by right | by intros [->|?]].
  - rewrite elem_of_app, list_elem_of_singleton. tauto.
Qed.

Lemma NoDup_set_add (x : string) (s : list string) : NoDup s → NoDup (set_add x s).
Proof.
  intros Hs. unfold set_add. destruct (decide (x ∈ s)) as [Hin|Hnin]; [done|].
  apply NoDup_app. split; [done|]. split; [|apply NoDup_singleton].
  intros y Hy ->%list_elem_of_singleton. done.
Qed.

Lemma NoDup_foldl_set_add (l s : list string) :
  NoDup s → NoDup (foldl (λ s x, set_add x s) s l).
Proof. revert s. induction l as [|x l IH]; intros s Hs; cbn; auto using NoDup_set_add. Qed.

Lemma NoDup_set_of_list (l : list string) : NoDup (set_of_list l).
Proof. apply NoDup_foldl_set_add, NoDup_nil_2. Qed.

Lemma NoDup_connect_add (o : string) (s : list string) :
  NoDup s → NoDup (connect_add o s).
Proof.
  intros Hs. unfold connect_add.
  repeat case_match; auto using NoDup_set_add.
Qed.

Lemma elem_of_connect_add_mono (o y : string) (s : list string) :
  y ∈ s → y ∈ connect_add o s.
Proof.
  intros Hy. unfold connect_add.
  repeat case_match; rewrite ?elem_of_set_add; auto.
Qed.

Lemma elem_of_connect_add_origin (o : string) (s : list string) :
  o ∈ connect_add o s.
Proof.
  unfold connect_add. repeat case_match; rewrite ?elem_of_set_add; auto.
Qed.

Lemma replace_unfold (pat rep s : string) :
  replace pat rep s =
    if startsWith pat s
    then rep +:+ String.substring (String.length pat) (String.length s - String.length pat) s
    else match s with
         | EmptyString => EmptyString
         | String c s' => String c (replace pat rep s')
         end.
Proof. by destruct s. Qed.

(** Replacing a prefix. *)
Lemma replace_prefix (pat rep rest : string) :
  replace pat rep (pat +:+ rest) = rep +:+ rest.
Proof. by rewrite replace_unfold, startsWith_app, substring_app_drop. Qed.

Lemma elem_of_connect_add_wss (h : string) (s : list string) :
  "wss://" +:+ h ∈ connect_add ("https://" +:+ h) s.
Proof.
  unfold connect_add.
  change (startsWith "http://" ("https://" +:+ h)) with false.
  rewrite startsWith_app, replace_prefix, elem_of_set_add. by left.
Qed.

Lemma elem_of_connect_add_ws (h : string) (s : list string) :
  "ws://" +:+ h ∈ connect_add ("http://" +:+ h) s.
Proof.
  unfold connect_add.
  rewrite startsWith_app, replace_prefix, elem_of_set_add. by left.
Qed.

Lemma violation_uri_blocked_text (v : CspViolation) : violation_uri v = blocked_text v.
Proof.
  unfold violation_uri, blocked_text, or_else.
  by destruct (blockedUri v) as [[|c u]|].
Qed.

Lemma skipped_uri_spec (v : CspViolation) :
  skipped_uri (violation_uri v) = true ↔ skipped_as_specified v.
Proof.
  rewrite violation_uri_blocked_text. unfold skipped_uri, skipped_as_specified.
  rewrite !orb_true_iff, bool_decide_eq_true, !startsWith_spec.
  assert (negb (truthy_string (blocked_text v)) = true ↔ blocked_text v = "") as ->.
  { by destruct (blocked_text v). }
  tauto.
Qed.

Section WithURL.
Context (URL_origin : string → option string).

Local Abbreviation visit := (visit URL_origin).
Local Abbreviation computeSuggestedFix := (computeSuggestedFix URL_origin).

Lemma visit_NoDup (st : sets) (v : CspViolation) :
  sets_NoDup st → sets_NoDup (visit st v).
Proof.
  intros (H1 & H2 & H3). unfold visit.
  repeat case_match; try done; repeat split; cbn;
    auto using NoDup_set_add, NoDup_connect_add.
Qed.

Lemma foldl_visit_NoDup (vs : list CspViolation) (st : sets) :
  sets_NoDup st → sets_NoDup (foldl visit st vs).
Proof. revert st. induction vs as [|v vs IH]; intros st Hst; cbn; auto using visit_NoDup. Qed.

Lemma visit_connect_mono (st : sets) (v : CspViolation) (y : string) :
  y ∈ connectSet st → y ∈ connectSet (visit st v).
Proof.
  intros Hy. unfold visit.
  repeat case_match; try done; cbn; auto using elem_of_connect_add_mono.
Qed.

Lemma foldl_visit_connect_mono (vs : list CspViolation) (st : sets) (y : string) :
  y ∈ connectSet st → y ∈ connectSet (foldl visit st vs).
Proof.
  revert st. induction vs as [|v vs IH]; intros st Hst; cbn; auto using visit_connect_mono.
Qed.

Lemma visit_skipped (st : sets) (v : CspViolation) :
  skipped_uri (violation_uri v) = true → visit st v = st.
Proof. intros H. unfold visit. by rewrite H. Qed.

Lemma foldl_visit_without (before after : list CspViolation) (v : CspViolation)
    (st : sets) :
  skipped_uri (violation_uri v) = true →
  foldl visit st (before ++ after) = foldl visit st (before ++ v :: after).
Proof. intros Hv. rewrite !foldl_app. cbn [foldl]. by rewrite visit_skipped. Qed.

(** A connect-src violation that reaches the connect branch. *)
Lemma visit_connect (st : sets) (v : CspViolation) (o : string) :
  skipped_uri (violation_uri v) = false →
  URL_origin (violation_uri v) = Some o → o ≠ "" →
  violation_dir v = CONNECT_DIRECTIVE →
  connectSet (visit st v) = connect_add o (connectSet st).
Proof.
  intros H1 H2 H3 H4. unfold visit. rewrite H1, H2.
  assert (truthy_string o = true) as -> by (by destruct o).
  cbn [negb]. by rewrite decide_True.
Qed.

Lemma foldl_visit_connect (vs : list CspViolation) (st : sets) (v : CspViolation)
    (o y : string) :
  v ∈ vs →
  skipped_uri (violation_uri v) = false →
  URL_origin (violation_uri v) = Some o → o ≠ "" →
  violation_dir v = CONNECT_DIRECTIVE →
  (∀ s, y ∈ connect_add o s) →
  y ∈ connectSet (foldl visit st vs).
Proof.
  intros Hin H1 H2 H3 H4 Hy. revert st.
  induction vs as [|v' vs IH]; intros st; [by apply elem_of_nil in Hin|].
  apply elem_of_cons in Hin as [<-|Hin]; cbn [foldl].
  - apply foldl_visit_connect_mono. rewrite (visit_connect st v o) by done. apply Hy.
  - by apply IH.
Qed.

Lemma initial_sets_NoDup (d : option Csp.WidgetDeclaredCsp) : sets_NoDup (initial_sets d).
Proof. repeat split; apply NoDup_set_of_list. Qed.

Lemma sort_spec (l : list string) :
  NoDup l → NoDup (sort l) ∧ Sorted String.le (sort l) ∧ ∀ x, x ∈ sort l ↔ x ∈ l.
Proof.
  intros Hl. unfold sort. split; [|split].
  - by rewrite merge_sort_Permutation.
  - apply (Sorted_merge_sort _).
  - intros x. by rewrite merge_sort_Permutation.
Qed.

(** C9. For every list of violations and every declared allowlist: a
    connect-src violation in the list whose blocked URI is not one of the
    skipped ones and has the origin [o] puts [o] into [connectDomains],
    together with the wss origin of the same host when [o] is an https origin
    and the ws origin when it is an http origin; a violation whose blocked URI
    is empty, is [(inline)] or is a blob or data URI is skipped, that is, the
    result is the one of the list without it; and each list of the result is
    free of repeats and sorted. *)
Theorem computeSuggestedFix_spec (violations : list CspViolation)
    (declared : option Csp.WidgetDeclaredCsp) :
  (∀ v o,
     v ∈ violations →
     effectiveDirective v = Some "connect-src" →
     ¬ skipped_as_specified v →
     URL_origin (blocked_text v) = Some o →
     o ≠ "" →
     o ∈ fixConnectDomains (computeSuggestedFix violations declared)
     ∧ (∀ host, o = "https://" +:+ host →
          "wss://" +:+ host ∈ fixConnectDomains (computeSuggestedFix violations declared))
     ∧ (∀ host, o = "http://" +:+ host →
          "ws://" +:+ host ∈ fixConnectDomains (computeSuggestedFix violations declared)))
  ∧ (∀ before v after,
       violations = before ++ v :: after →
       skipped_as_specified v →
       computeSuggestedFix (before ++ after) declared
       = computeSuggestedFix violations declared)
  ∧ NoDup (fixConnectDomains (computeSuggestedFix violations declared))
  ∧ Sorted String.le (fixConnectDomains (computeSuggestedFix violations declared))
  ∧ NoDup (fixResourceDomains (computeSuggestedFix violations declared))
  ∧ Sorted String.le (fixResourceDomains (computeSuggestedFix violations declared))
  ∧ from_option (λ l, NoDup l ∧ Sorted String.le l) True
      (fixFrameDomains (computeSuggestedFix violations declared)).
Proof.
  destruct (foldl_visit_NoDup violations (initial_sets declared)
              (initial_sets_NoDup declared)) as (N1 & N2 & N3).
  destruct (sort_spec _ N1) as (C1 & C2 & C3).
  destruct (sort_spec _ N2) as (R1 & R2 & _).
  destruct (sort_spec _ N3) as (F1 & F2 & _).
  split; [|split].
  - intros v o Hin Hdir Hskip Hurl Ho.
    assert (violation_dir v = CONNECT_DIRECTIVE) as Hd.
    { unfold violation_dir. by rewrite Hdir. }
    assert (skipped_uri (violation_uri v) = false) as Hs.
    { destruct (skipped_uri (violation_uri v)) eqn:E; [|done].
      by apply skipped_uri_spec in E. }
    rewrite <- violation_uri_blocked_text in Hurl.
    unfold SuggestedFix.computeSuggestedFix. cbn [fixConnectDomains].
    split; [|split].
    + apply C3. eapply foldl_visit_connect; eauto using elem_of_connect_add_origin.
    + intros host ->. apply C3.
      eapply foldl_visit_connect; eauto using elem_of_connect_add_wss.
    + intros host ->. apply C3.
      eapply foldl_visit_connect; eauto using elem_of_connect_add_ws.
  - intros before v after -> Hv%skipped_uri_spec.
    unfold SuggestedFix.computeSuggestedFix. by rewrite (foldl_visit_without before after v).
  - unfold SuggestedFix.computeSuggestedFix.
    cbn [fixConnectDomains fixResourceDomains fixFrameDomains].
    repeat split; try done. by case_decide.
Qed.

End WithURL.

Lemma computeSuggestedFix_spec_witness :
  ("https://api.example.com"
     ∈ fixConnectDomains
         (computeSuggestedFix plain_origin [inline_violation; example_violation] None)
   ∧ "wss://api.example.com"
     ∈ fixConnectDomains
         (computeSuggestedFix plain_origin [inline_violation; example_violation] None))
  ∧ computeSuggestedFix plain_origin [example_violation] None
    = computeSuggestedFix plain_origin [inline_violation; example_violation] None.
Proof.
  destruct (computeSuggestedFix_spec plain_origin
              [inline_violation; example_violation] None) as (H1 & H2 & _).
  split.
  - destruct (H1 example_violation "https://api.example.com") as (Ho & Hwss & _).
    + right. left.
    + reflexivity.
    + intros [H|[H|[[rest H]|[rest H]]]]; vm_compute in H; discriminate H.
    + reflexivity.
    + discriminate.
    + split; [exact Ho | exact (Hwss "api.example.com" eq_refl)].
  - apply (H2 [] inline_violation [example_violation]).
    + reflexivity.
    + right. left. reflexivity.
Defined.

(** The example of the specification, for any URL parser that gives the
    blocked URI its origin. *)
Lemma computeSuggestedFix_example (URL_origin : string → option string)
    (violations : list CspViolation) (declared : option Csp.WidgetDeclaredCsp)
    (v : CspViolation) :
  URL_origin "https://api.example.com/x" = Some "https://api.example.com" →
  v ∈ violations →
  effectiveDirective v = Some "connect-src" →
  blockedUri v = Some "https://api.example.com/x" →
  "https://api.example.com" ∈ fixConnectDomains (computeSuggestedFix URL_origin violations declared)
  ∧ "wss://api.example.com" ∈ fixConnectDomains (computeSuggestedFix URL_origin violations declared).
Proof.
  intros Hurl Hin Hdir Huri.
  assert (violation_uri v = "https://api.example.com/x") as Hv.
  { unfold violation_uri. by rewrite Huri. }
  assert (violation_dir v = CONNECT_DIRECTIVE) as Hd.
  { unfold violation_dir. by rewrite Hdir. }
  destruct (foldl_visit_NoDup URL_origin violations (initial_sets declared)
              (initial_sets_NoDup declared)) as (N1 & _ & _).
  destruct (sort_spec _ N1) as (_ & _ & C3).
  unfold SuggestedFix.computeSuggestedFix. cbn [fixConnectDomains].
  split; apply C3; eapply foldl_visit_connect; try done; rewrite ?Hv; try done.
  - apply elem_of_connect_add_origin.
  - apply (elem_of_connect_add_wss "api.example.com").
Qed.

Example computeSuggestedFix_run :
  computeSuggestedFix plain_origin
    [example_violation; inline_violation; example_violation]
    (Some clean_declaration)
  = {| fixConnectDomains :=
         ["https://api.example.com"; "wss://api.example.com"; "wss://rt.example.com"];
       fixResourceDomains := ["https://cdn.example.com"];
       fixFrameDomains := None |}.
Proof. reflexivity. Qed.

End SuggestedFixFacts.

(** ** The prompt for agents *)

Module AgentPromptFacts.
Import JS JSFacts Json SuggestedFix AgentPrompt.

Lemma prompt_guard_true (w : WidgetDebug) : prompt_guard w = true.
Proof. unfold prompt_guard. apply Z.gtb_lt. lia. Qed.

Lemma buildAgentCspPrompt_nonempty (declared : option Csp.WidgetDeclaredCsp)
    (policy : option string) (violations : list CspViolation)
    (fix_ : option SuggestedFixResult) :
  buildAgentCspPrompt declared policy violations fix_ ≠ "".
Proof. unfold buildAgentCspPrompt. cbn [app]. by apply join_nonempty. Qed.

(** C10. The guard [length > -1] of the prompt for agents holds for every
    list of violations, the empty one included: the prompt is always the text
    that [buildAgentCspPrompt] builds, never the empty string, and its section
    is always shown. *)
Theorem agentPrompt_unconditional (URL_origin : string → option string)
    (cspMode : CspMode) (w : WidgetDebug) :
  prompt_guard w = true
  ∧ prompt_section_shown w = true
  ∧ agentPrompt URL_origin cspMode w
    = buildAgentCspPrompt (declaredCsp w) (effectivePolicy w) (cspViolations w)
        (suggestedFix URL_origin cspMode w)
  ∧ agentPrompt URL_origin cspMode w ≠ "".
Proof.
  unfold prompt_section_shown, agentPrompt. rewrite prompt_guard_true.
  repeat split. apply buildAgentCspPrompt_nonempty.
Qed.

(** With no violation at all the prompt is still built. *)
Example agentPrompt_no_violation :
  agentPrompt plain_origin WidgetDeclared
    {| cspViolations := []; declaredCsp := None; effectivePolicy := None |}
  = JS.join newline
      [ "Fix the Content Security Policy (CSP) for this MCP Apps widget. The widget has CSP violations that block network requests and resources.";
        "";
        "**References:**";
        "- MCP Apps CSP spec: https://raw.githubusercontent.com/modelcontextprotocol/ext-apps/bcfffb6585ea4fb1e3a9da39fb8911b83399fa71/specification/2026-01-26/apps.mdx";
        "- mcp-use CSP docs: https://mcp-use.com/docs/typescript/server/csp";
        "";
        "**Current declared CSP:**";
        "No CSP declared.";
        "";
        "No blocked requests - no fix needed." ].
Proof. reflexivity. Qed.

End AgentPromptFacts.

(** ** The renderer: messages and announcements *)

Module RendererFacts.
Import Json Renderer RendererInvariants.

Section Component.
Context (JSON_parse : string → option json).
Context (URL_origin : string → option string).
Context (E : env).

Local Abbreviation handleMessage := (handleMessage JSON_parse URL_origin E).
Local Abbreviation handle := (handle JSON_parse URL_origin E).
Local Abbreviation oninitialized := (oninitialized JSON_parse E).
Local Abbreviation run_effects := (run_effects JSON_parse E).
Local Abbreviation input_effect := (input_effect JSON_parse E).
Local Abbreviation output_effect := (output_effect JSON_parse).
Local Abbreviation resend_callback := (resend_callback JSON_parse).
Local Abbreviation advance := (advance JSON_parse).
Local Abbreviation fire_due := (fire_due JSON_parse).
Local Abbreviation fire := (fire JSON_parse).
Local Abbreviation announce := (announce JSON_parse E).
Local Abbreviation announcements := (announcements JSON_parse E).

(** *** The message handler *)

(** C1. An inbound message event whose origin is not the origin of the
    sandbox proxy (the origin of the URL in the [src] of the iframe), or whose
    source is not the content window of the iframe, leaves everything as it
    was: no entry in the RPC log, nothing handed to the transport of the
    bridge, no change of any state of the widget. *)
Theorem handleMessage_rejects_foreign (ev : MessageEvent) (w : world)
    (proxyOrigin : string) :
  URL_origin (iframe_src E) = Some proxyOrigin →
  origin ev ≠ proxyOrigin ∨ source ev ≠ iframe_contentWindow E →
  handleMessage ev w = w ∧ handle (EvMessage ev) w = w.
Proof.
  intros Hurl Hbad.
  assert (handleMessage ev w = w) as Hh.
  { unfold Renderer.handleMessage. rewrite Hurl.
    destruct Hbad as [Ho|Hs].
    - by rewrite bool_decide_eq_true_2.
    - case_bool_decide; [done|]. by rewrite bool_decide_eq_true_2. }
  split; [done|]. cbn. rewrite Hh. by destruct (listening w).
Qed.

(** *** What the pushes leave alone *)

Lemma same_lifecycle_refl (w : world) : same_lifecycle w w.
Proof. by repeat split. Qed.

Lemma same_lifecycle_trans (w1 w2 w3 : world) :
  same_lifecycle w1 w2 → same_lifecycle w2 w3 → same_lifecycle w1 w3.
Proof.
  unfold same_lifecycle. intros (?&?&?&?&?&?&?&?&?) (?&?&?&?&?&?&?&?&?).
  repeat split; congruence.
Qed.

Lemma partial_effect_lifecycle (w : world) : same_lifecycle w (partial_effect w).
Proof. unfold partial_effect. repeat case_match; by repeat split. Qed.

Lemma input_effect_lifecycle (w : world) : same_lifecycle w (input_effect w).
Proof.
  unfold Renderer.input_effect, input_effect_body, input_effect_cleanup.
  repeat case_match; by repeat split.
Qed.

Lemma output_effect_lifecycle (w : world) : same_lifecycle w (output_effect w).
Proof. unfold Renderer.output_effect. repeat case_match; by repeat split. Qed.

Lemma run_effects_lifecycle (b : bool) (ch : changed) (w : world) :
  same_lifecycle w (run_effects b ch w).
Proof.
  unfold Renderer.run_effects.
  repeat case_match;
    eauto using same_lifecycle_refl, same_lifecycle_trans, partial_effect_lifecycle,
      input_effect_lifecycle, output_effect_lifecycle.
Qed.

(** The pushes are made by the effects, not by the resend timer. *)
Lemma run_effects_deferred (b : bool) (ch : changed) (w : world) :
  deferred_resends (run_effects b ch w) = deferred_resends w.
Proof.
  assert (∀ w, deferred_resends (partial_effect w) = deferred_resends w) as Hp.
  { intros w0. unfold partial_effect, deferred_resends.
    repeat case_match; try done; cbn; by rewrite filter_app, filter_cons_False, filter_nil, app_nil_r. }
  assert (∀ w, deferred_resends (input_effect w) = deferred_resends w) as Hi.
  { intros w0. unfold Renderer.input_effect, input_effect_body, input_effect_cleanup, deferred_resends.
    repeat case_match; try done; cbn; by rewrite filter_app, filter_cons_False, filter_nil, app_nil_r. }
  assert (∀ w, deferred_resends (output_effect w) = deferred_resends w) as Ho.
  { intros w0. unfold Renderer.output_effect, deferred_resends.
    repeat case_match; try done; cbn; by rewrite filter_app, filter_cons_False, filter_nil, app_nil_r. }
  unfold Renderer.run_effects. repeat case_match; by rewrite ?Ho, ?Hi, ?Hp.
Qed.

(** *** Time and the resend timer *)

Lemma advance_no_timers (t : Z) (w : world) :
  timers (plat w) = [] → advance t w = upd_plat (set_clock (Z.max (now w) t)) w.
Proof. intros H. unfold Renderer.advance. by rewrite H. Qed.

Lemma advance_not_due (t : Z) (w : world) (x : timer) :
  timers (plat w) = [x] → t < timer_deadline x →
  advance t w = upd_plat (set_clock (Z.max (now w) t)) w.
Proof.
  intros H Ht. unfold Renderer.advance. rewrite H. cbn [length Renderer.fire_due].
  rewrite H. cbn [next_due]. by rewrite (proj2 (Z.leb_gt _ _)).
Qed.

Lemma oninitialized_genuine (w : world) :
  lastInitTimeRef (the_refs w) ≤ 0 ∨ lastInitTimeRef (the_refs w) + 2000 ≤ now w →
  oninitialized w
  = run_effects true unchanged
      (set_initCount (initCount w + 1) (upd_refs (set_lastInitTime (now w)) w)).
Proof.
  intros H. unfold Renderer.oninitialized.
  destruct (0 <? lastInitTimeRef (the_refs w)) eqn:H1; [|done].
  destruct (now w - lastInitTimeRef (the_refs w) <? 2000) eqn:H2; [|done].
  apply Z.ltb_lt in H1, H2. lia.
Qed.

Lemma oninitialized_debounced (w : world) :
  0 < lastInitTimeRef (the_refs w) → now w < lastInitTimeRef (the_refs w) + 2000 →
  oninitialized w
  = upd_refs (set_resendTimer (Some (next_handle (plat w))))
      (upd_plat (setTimeout ResendCb 300)
         (upd_plat (clearTimeout (resendTimerRef (the_refs w))) w)).
Proof.
  intros H1 H2. unfold Renderer.oninitialized.
  rewrite (proj2 (Z.ltb_lt _ _) H1).
  assert ((now w - lastInitTimeRef (the_refs w) <? 2000) = true) as ->; [|done].
  apply Z.ltb_lt. lia.
Qed.

(** *** Announcements that are far apart *)

Lemma announce_genuine (w : world) (t : Z) :
  timers (plat w) = [] → now w ≤ t →
  lastInitTimeRef (the_refs w) ≤ 0 ∨ lastInitTimeRef (the_refs w) + 2000 ≤ t →
  let w' := announce w t in
  timers (plat w') = [] ∧ now w' = t ∧ lastInitTimeRef (the_refs w') = t
  ∧ initCount w' = S (initCount w) ∧ cur w' = cur w
  ∧ deferred_resends w' = deferred_resends w.
Proof.
  intros Ht Hnow Hlast w'. subst w'. unfold Renderer.announce.
  rewrite advance_no_timers by done.
  rewrite oninitialized_genuine by (unfold now in *; cbn; lia).
  match goal with |- context [run_effects true unchanged ?x] =>
    destruct (run_effects_lifecycle true unchanged x)
      as (H1&H2&H3&H4&H5&H6&H7&H8&H9);
    pose proof (run_effects_deferred true unchanged x) as H10
  end.
  unfold now in *. rewrite H1, H2, H3, H8, H9, H10. cbn.
  repeat split; try done; lia.
Qed.

Lemma announcements_spaced (ts : list Z) (w : world) :
  timers (plat w) = [] →
  match ts with
  | [] => True
  | t :: rest =>
      now w ≤ t
      ∧ (lastInitTimeRef (the_refs w) ≤ 0 ∨ lastInitTimeRef (the_refs w) + 2000 ≤ t)
      ∧ spaced_from t rest
  end →
  initCount (announcements ts w) = (initCount w + length ts)%nat.
Proof.
  revert w. induction ts as [|t ts IH]; intros w Htim Hts; [cbn; lia|].
  destruct Hts as (Hnow & Hlast & Hsp).
  destruct (announce_genuine w t Htim Hnow Hlast) as (A1&A2&A3&A4&A5&A6).
  unfold Renderer.announcements in *. cbn [foldl length].
  rewrite IH; [lia | done |].
  destruct ts as [|t' ts]; [done|]. destruct Hsp as [Hgap Hsp].
  repeat split; [lia | right; lia | done].
Qed.

(** C4. When each announcement comes strictly more than 2000 ms after the
    one before it, every one of them is counted: after [n] announcements
    [initCount] is [n]. *)
Theorem spaced_announcements_all_counted (t0 : Z) (p : props) (ts : list Z) :
  Forall (λ t, t0 ≤ t) ts →
  spaced ts →
  initCount (announcements ts (mounted t0 p)) = length ts.
Proof.
  intros Hafter Hsp.
  rewrite announcements_spaced; [done | done |].
  destruct ts as [|t ts]; [done|].
  apply Forall_cons in Hafter as [Ht _]. repeat split; [done | by left | done].
Qed.

(** *** Announcements in a burst *)

Lemma last_cons_default (x d : Z) (l : list Z) :
  List.last (x :: l) d = List.last l x.
Proof.
  revert x d. induction l as [|y l IH]; intros x d; [done|].
  change (List.last (x :: y :: l) d) with (List.last (y :: l) d).
  by rewrite !IH.
Qed.

Lemma first_announcement_counted (t0 g : Z) (p : props) :
  t0 ≤ g → counted (announce (mounted t0 p) g) g p.
Proof.
  intros H.
  destruct (announce_genuine (mounted t0 p) g) as (A1&A2&A3&A4&A5&A6);
    [done | done | by left |].
  by repeat split.
Qed.

Lemma counted_then_armed (w : world) (g d : Z) (p : props) :
  counted w g p → 0 < g → g ≤ d → d < g + 2000 → armed (announce w d) g d p.
Proof.
  intros (C1&C2&C3&C4&C5&C6) Hg Hd1 Hd2. unfold Renderer.announce.
  rewrite advance_no_timers by done.
  rewrite oninitialized_debounced by (unfold now in *; cbn; lia).
  unfold armed, now, deferred_resends in *. cbn. rewrite C6. cbn.
  repeat split; try done; try lia.
  eexists. split; [done|]. rewrite C4. by replace (Z.max g d) with d by lia.
Qed.

Lemma armed_then_armed (w : world) (g d d' : Z) (p : props) :
  armed w g d p → 0 < g → d ≤ d' → d' < d + 300 → d' < g + 2000 →
  armed (announce w d') g d' p.
Proof.
  intros (C1&C2&C3&C4&C5&h&C6&C7) Hg Hd1 Hd2 Hd3. unfold Renderer.announce.
  rewrite (advance_not_due _ _ _ C7) by (cbn; lia).
  rewrite oninitialized_debounced by (unfold now in *; cbn; lia).
  unfold armed, now, deferred_resends in *. cbn. rewrite C6, C7. cbn.
  rewrite decide_False by (intros Hne; by apply Hne).
  repeat split; try done; try lia.
  eexists. split; [done|]. rewrite C4. by replace (Z.max d d') with d' by lia.
Qed.

Lemma coalesced_armed (ds : list Z) (w : world) (g d : Z) (p : props) :
  armed w g d p → 0 < g → coalesced g d ds →
  armed (announcements ds w) g (List.last ds d) p.
Proof.
  revert w d. induction ds as [|d' ds IH]; intros w d Hw Hg Hds; [done|].
  destruct Hds as (H1&H2&H3&H4).
  unfold Renderer.announcements in *. cbn [foldl].
  rewrite last_cons_default.
  apply IH; [|done|done]. by apply armed_then_armed with d.
Qed.

Lemma deferred_resends_resend_callback (w : world) :
  deferred_resends (resend_callback w)
  = deferred_resends w ++ resend_entries JSON_parse (now w) (cur w).
Proof.
  unfold Renderer.resend_callback, resend_entries, deferred_resends.
  cbn. destruct (toolOutput (cur w)) as [o|]; [destruct (truthy o)|]; cbn;
    rewrite ?filter_app; cbn; rewrite ?filter_cons_True by done;
    rewrite ?filter_nil; by rewrite <- ?app_assoc.
Qed.

Lemma advance_due (T : Z) (w : world) (x : timer) :
  timers (plat w) = [x] → timer_deadline x ≤ T →
  advance T w
  = let w1 := fire (timer_callback_of x)
                (upd_plat (set_clock (Z.max (now w) (timer_deadline x)))
                   (upd_plat (clearTimeout (Some (timer_handle x))) w)) in
    upd_plat (set_clock (Z.max (now w1) T)) w1.
Proof.
  intros H HT. unfold Renderer.advance. rewrite H. cbn [length Renderer.fire_due].
  rewrite H. cbn [next_due]. by rewrite (proj2 (Z.leb_le _ _) HT).
Qed.

Lemma deferred_resends_upd_plat (f : platform → platform) (w : world) :
  deferred_resends (upd_plat f w) = deferred_resends w.
Proof. done. Qed.

Lemma resend_callback_lifecycle (w : world) : same_lifecycle w (resend_callback w).
Proof. unfold Renderer.resend_callback. repeat case_match; by repeat split. Qed.

Lemma armed_fires (w : world) (g d T : Z) (p : props) :
  armed w g d p → d + 300 ≤ T →
  deferred_resends (advance T w) = resend_entries JSON_parse (d + 300) p
  ∧ initCount (advance T w) = 1%nat
  ∧ timers (plat (advance T w)) = [].
Proof.
  intros (C1&C2&C3&C4&C5&h&C6&C7) HT.
  rewrite (advance_due T w _ C7) by done.
  cbn [timer_handle timer_callback_of timer_deadline Renderer.fire]. cbv zeta.
  match goal with |- context [resend_callback ?x] =>
    destruct (resend_callback_lifecycle x) as (H1&H2&H3&H4&H5&H6&H7&H8&H9);
    pose proof (deferred_resends_resend_callback x) as H10
  end.
  rewrite deferred_resends_upd_plat, H10.
  cbn [initCount timers plat upd_plat set_clock]. rewrite H1, H9.
  cbn. rewrite C7, C2, C3. cbn.
  rewrite decide_False by (intros Hne; by apply Hne).
  unfold deferred_resends, now in *. cbn. rewrite C5, C4.
  by replace (Z.max d (d + 300)) with (d + 300) by lia.
Qed.

(** C3, as amended. A counted announcement at [g] is followed by further
    announcements, all of them less than 2000 ms after [g] and each one after
    the first less than 300 ms after the one before it. Then every one of the
    further announcements cancels the pending timer and arms it again, one
    timer is left pending, due 300 ms after the last announcement, and once
    it has fired there has been exactly one deferred resend (the merged tool
    input, and the tool output when there is one), at that time; [initCount]
    is still 1. *)
Theorem burst_one_deferred_resend (t0 g T : Z) (p : props) (ds : list Z) :
  t0 ≤ g → 0 < g → burst g ds → List.last ds g + 300 ≤ T →
  let w := announcements (g :: ds) (mounted t0 p) in
  (∃ h, resendTimerRef (the_refs w) = Some h
      ∧ timers (plat w) = [{| timer_handle := h;
                               timer_deadline := List.last ds g + 300;
                               timer_callback_of := ResendCb |}])
  ∧ deferred_resends w = []
  ∧ deferred_resends (advance T w) = resend_entries JSON_parse (List.last ds g + 300) p
  ∧ initCount (advance T w) = 1%nat.
Proof.
  intros Ht0 Hg Hb HT w.
  destruct ds as [|d ds]; [done|]. destruct Hb as (Hd1&Hd2&Hco).
  assert (armed w g (List.last (d :: ds) g) p) as Hw.
  { subst w. unfold Renderer.announcements. cbn [foldl].
    rewrite last_cons_default.
    apply coalesced_armed; [|done|done].
    apply counted_then_armed; [|done..]. by apply first_announcement_counted. }
  destruct (armed_fires _ _ _ T _ Hw HT) as (F1&F2&F3).
  destruct Hw as (C1&C2&C3&C4&C5&h&C6&C7).
  split; [by exists h|]. by repeat split.
Qed.

End Component.
End RendererFacts.

(** ** The renderer: pushes *)

Module PushFacts.
Import Json Renderer RendererInvariants RendererFacts.

Section Component.
Context (JSON_parse : string → option json).
Context (E : env).

Local Abbreviation input_effect := (input_effect JSON_parse E).
Local Abbreviation input_effect_body := (input_effect_body JSON_parse E).
Local Abbreviation output_effect := (output_effect JSON_parse).
Local Abbreviation mergedArgs := (mergedArgs JSON_parse).
Local Abbreviation pushes := (pushes JSON_parse E).
Local Abbreviation push_step := (push_step JSON_parse E).
Local Abbreviation input_already_sent := (input_already_sent JSON_parse E).
Local Abbreviation scheduled := (scheduled JSON_parse E).
Local Abbreviation sent_once := (sent_once JSON_parse E).

(** *** The tool-input push *)

Section Run.
Context (w0 : world).
Context (Hbridge : bridgeRef (the_refs w0) = true).
Context (Hcount : initCount w0 ≠ 0%nat).
Context (Hunsent : ¬ input_already_sent w0).

(** The body of the effect in a state where nothing was sent yet and no
    frame is pending. *)
Lemma body_unsent (w : world) :
  same_epoch w0 w →
  toolInputSentRef (the_refs w) = toolInputSentRef (the_refs w0) →
  lastSentPropsRef (the_refs w) = lastSentPropsRef (the_refs w0) →
  bridge_log (out w) = bridge_log (out w0) →
  frames (plat w) = [] →
  scheduled w0 (input_effect_body w) ∨ sent_once w0 (input_effect_body w).
Proof.
  intros (S1&S2&S3&S4) K1 K2 L F.
  unfold Renderer.input_effect_body.
  rewrite S3, Hbridge, S1, S2, K1, K2. cbn [negb orb].
  rewrite bool_decide_eq_false_2 by done.
  assert (bool_decide (toolInputSentRef (the_refs w0)
                       = Some (sentKey (toolCallId E) (initCount w0)))
          && bool_decide (lastSentPropsRef (the_refs w0)
                          = Some (stringify (mergedArgs (cur w0)))) = false) as ->.
  { apply andb_false_iff.
    destruct (decide (toolInputSentRef (the_refs w0)
                      = Some (sentKey (toolCallId E) (initCount w0)))) as [H1|H1].
    - right. apply bool_decide_eq_false. intros H2. by apply Hunsent.
    - left. by apply bool_decide_eq_false. }
  destruct (partialToolInput (cur w0)) as [partial|].
  - left. unfold RendererInvariants.scheduled, same_epoch, now in *. cbn. rewrite F.
    repeat split; try done. by eexists.
  - right. unfold RendererInvariants.sent_once, same_epoch, Renderer.input_already_sent, now in *.
    cbn. rewrite S1, S2, F. repeat split; try done.
    exists ByEffect. unfold now. by rewrite L, S4.
Qed.

Lemma attempt_idle (w : world) :
  idle w0 w → scheduled w0 (input_effect w) ∨ sent_once w0 (input_effect w).
Proof.
  intros (S&K1&K2&L&F&C). unfold Renderer.input_effect, input_effect_cleanup.
  rewrite C. by apply body_unsent.
Qed.

Lemma attempt_scheduled (w : world) :
  scheduled w0 w → scheduled w0 (input_effect w) ∨ sent_once w0 (input_effect w).
Proof.
  intros ((S1&S2&S3&S4)&K1&K2&L&h&C&F).
  unfold Renderer.input_effect, input_effect_cleanup. rewrite C.
  apply body_unsent; try done. cbn. rewrite F. cbn.
  by rewrite decide_False by (intros Hne; by apply Hne).
Qed.

Lemma attempt_sent_out (w : world) :
  sent_once w0 w → sent_once w0 (input_effect w) ∧ out (input_effect w) = out w.
Proof.
  intros ((S1&S2&S3&S4)&[K1 K2]&F&by_&L).
  assert (sent_once w0 (input_effect_cleanup w)
          ∧ out (input_effect_cleanup w) = out w) as [((T1&T2&T3&T4)&[J1 J2]&G&by'&M) O].
  { unfold input_effect_cleanup. destruct (inputCleanup w); [|by repeat split; eauto].
    unfold RendererInvariants.sent_once, same_epoch, Renderer.input_already_sent, now in *. cbn.
    rewrite F. repeat split; try done. by exists by_. }
  unfold Renderer.input_effect, Renderer.input_effect_body.
  rewrite (bool_decide_eq_true_2 _ J1), (bool_decide_eq_true_2 _ J2). cbn [andb].
  destruct (negb _ || _); by repeat split; eauto.
Qed.

Lemma attempt_sent (w : world) : sent_once w0 w → sent_once w0 (input_effect w).
Proof. intros H. by apply attempt_sent_out. Qed.

Lemma frame_idle (w : world) : idle w0 w → idle w0 (animation_frame w).
Proof.
  intros ((S1&S2&S3&S4)&K1&K2&L&F&C). unfold animation_frame. rewrite F.
  unfold idle, same_epoch, now in *. cbn. by repeat split.
Qed.

Lemma frame_scheduled (w : world) : scheduled w0 w → sent_once w0 (animation_frame w).
Proof.
  intros ((S1&S2&S3&S4)&K1&K2&L&h&C&F). unfold animation_frame. rewrite F.
  unfold RendererInvariants.sent_once, same_epoch, Renderer.input_already_sent, now in *. cbn.
  rewrite S1, S2. repeat split; try done.
  exists ByFrame. unfold now. by rewrite L, S4.
Qed.

Lemma frame_sent (w : world) : sent_once w0 w → sent_once w0 (animation_frame w).
Proof.
  intros ((S1&S2&S3&S4)&K&F&by_&L).
  unfold animation_frame. rewrite F.
  unfold RendererInvariants.sent_once, same_epoch, Renderer.input_already_sent, now in *. cbn.
  repeat split; try done; try apply K. by exists by_.
Qed.

Lemma pushes_sent (tr : list push_event) (w : world) :
  sent_once w0 w → sent_once w0 (pushes tr w).
Proof.
  revert w. induction tr as [|[] tr IH]; intros w Hw; [done|..].
  - change (pushes (Attempt :: tr) w) with (pushes tr (input_effect w)).
    by apply IH, attempt_sent.
  - change (pushes (Frame :: tr) w) with (pushes tr (animation_frame w)).
    by apply IH, frame_sent.
Qed.

Lemma pushes_scheduled (tr : list push_event) (w : world) :
  scheduled w0 w → scheduled w0 (pushes tr w) ∨ sent_once w0 (pushes tr w).
Proof.
  revert w. induction tr as [|[] tr IH]; intros w Hw; [by left|..].
  - change (pushes (Attempt :: tr) w) with (pushes tr (input_effect w)).
    destruct (attempt_scheduled w Hw) as [H|H]; [by apply IH|].
    right. by apply pushes_sent.
  - change (pushes (Frame :: tr) w) with (pushes tr (animation_frame w)).
    right. by apply pushes_sent, frame_scheduled.
Qed.

Lemma pushes_idle (tr : list push_event) (w : world) :
  idle w0 w → Attempt ∈ tr →
  scheduled w0 (pushes tr w) ∨ sent_once w0 (pushes tr w).
Proof.
  revert w. induction tr as [|e tr IH]; intros w Hw Hin; [by apply elem_of_nil in Hin|].
  destruct e.
  - change (pushes (Attempt :: tr) w) with (pushes tr (input_effect w)).
    destruct (attempt_idle w Hw) as [H|H]; [by apply pushes_scheduled|].
    right. by apply pushes_sent.
  - change (pushes (Frame :: tr) w) with (pushes tr (animation_frame w)).
    apply elem_of_cons in Hin as [?|Hin]; [done|].
    apply IH; [|done]. by apply frame_idle.
Qed.

End Run.

(** C5. While the props, the tool call and [initCount] stay as they are,
    any number of attempts to send the tool input, with animation frames in
    between in any order, transmit the merged payload exactly once: after
    the first transmission both keys match and every later attempt is
    skipped. *)
Theorem tool_input_push_idempotent (w : world) (tr : list push_event) :
  bridgeRef (the_refs w) = true →
  initCount w ≠ 0%nat →
  frames (plat w) = [] →
  inputCleanup w = None →
  ¬ input_already_sent w →
  Attempt ∈ tr →
  let w' := animation_frame (pushes tr w) in
  (∃ by_, bridge_log (out w')
          = bridge_log (out w)
            ++ [{| entry_time := now w; entry_by := by_;
                   entry_call := SendToolInput (tool_input_params (mergedArgs (cur w))) |}])
  ∧ input_already_sent w'
  ∧ bridge_log (out (input_effect w')) = bridge_log (out w').
Proof.
  intros Hb Hc Hf Hi Hu Hin w'.
  assert (sent_once w w') as Hs.
  { subst w'. destruct (pushes_idle w Hb Hc Hu tr w) as [H|H]; [by repeat split | done |..].
    - by apply frame_scheduled.
    - by apply frame_sent. }
  destruct (attempt_sent_out w _ Hs) as [_ Ho].
  destruct Hs as (_&K&_&by_&L).
  split; [by exists by_|]. split; [done|]. by rewrite Ho.
Qed.

(** *** Reloads *)

Lemma sentKey_inj (id : string) (n m : nat) : sentKey id n = sentKey id m → n = m.
Proof.
  unfold sentKey. intros H.
  apply (inj (String.app id)) in H. apply (inj (String.app ":")) in H.
  by apply (inj pretty) in H.
Qed.

(** X1. The tool input is sent again when the keys are those of another
    [initCount], whatever the payload. *)
Lemma tool_input_resent_after_reload (w : world) (m : nat) :
  bridgeRef (the_refs w) = true →
  initCount w ≠ 0%nat →
  partialToolInput (cur w) = None →
  inputCleanup w = None →
  toolInputSentRef (the_refs w) = Some (sentKey (toolCallId E) m) →
  m ≠ initCount w →
  bridge_log (out (input_effect w))
  = bridge_log (out w)
    ++ [{| entry_time := now w; entry_by := ByEffect;
           entry_call := SendToolInput (tool_input_params (mergedArgs (cur w))) |}].
Proof.
  intros Hb Hc Hp Hi Hk Hm.
  unfold Renderer.input_effect, input_effect_cleanup. rewrite Hi.
  unfold Renderer.input_effect_body. rewrite Hb, Hp, Hk. cbn [negb orb].
  rewrite bool_decide_eq_false_2 by done.
  rewrite (bool_decide_eq_false_2 (Some _ = Some _)); [done|].
  intros [= Heq]. by apply sentKey_inj in Heq.
Qed.

(** The tool output is not: once the tool-output effect has run for an
    output, a run under any other [initCount] sends nothing. *)
Lemma tool_output_suppressed_after_reload (w : world) (n : nat) (output : json) :
  bridgeRef (the_refs w) = true →
  initCount w ≠ 0%nat →
  toolOutput (cur w) = Some output →
  truthy output = true →
  output_effect (set_initCount n (output_effect w)) = set_initCount n (output_effect w).
Proof.
  intros Hb Hc Ho Ht.
  assert (lastSentToolOutputKeyRef (the_refs (output_effect w))
          = Some (contentKey output (customProps (cur w)))
          ∧ cur (output_effect w) = cur w) as [Hk Hcur].
  { unfold Renderer.output_effect. rewrite Hb, Ho, Ht. cbn [negb orb].
    rewrite bool_decide_eq_false_2 by done.
    case_bool_decide as Hd; [done|]. by repeat case_match. }
  unfold Renderer.output_effect at 1.
  cbn [the_refs cur set_initCount initCount]. rewrite Hcur, Ho, Ht, Hk.
  rewrite (bool_decide_eq_true_2 (Some _ = Some _)) by done.
  by destruct (negb _ || _).
Qed.

End Component.
End PushFacts.

(** ** The renderer: teardown *)

Module TeardownFacts.
Import Json Renderer RendererInvariants RendererFacts.

Section Component.
Context (JSON_parse : string → option json).
Context (URL_origin : string → option string).
Context (E : env).

Local Abbreviation handleMessage := (handleMessage JSON_parse URL_origin E).
Local Abbreviation handle := (handle JSON_parse URL_origin E).
Local Abbreviation step := (step JSON_parse URL_origin E).
Local Abbreviation run := (run JSON_parse URL_origin E).
Local Abbreviation oninitialized := (oninitialized JSON_parse E).
Local Abbreviation run_effects := (run_effects JSON_parse E).
Local Abbreviation input_effect := (input_effect JSON_parse E).
Local Abbreviation input_effect_body := (input_effect_body JSON_parse E).
Local Abbreviation output_effect := (output_effect JSON_parse).
Local Abbreviation resend_callback := (resend_callback JSON_parse).
Local Abbreviation advance := (advance JSON_parse).
Local Abbreviation fire_due := (fire_due JSON_parse).
Local Abbreviation fire := (fire JSON_parse).
Local Abbreviation render := (render JSON_parse E).

(** *** Timers and frames are the ones the refs hold *)

Lemma filter_none {A} (P : A → Prop) `{∀ x, Decision (P x)} (l : list A) :
  (∀ x, x ∈ l → ¬ P x) → filter P l = [].
Proof.
  intros Hl. destruct (filter P l) as [|a l'] eqn:Hf; [done|].
  assert (a ∈ filter P l) as [Ha Hin]%list_elem_of_filter by (rewrite Hf; left).
  by destruct (Hl a Hin).
Qed.

Lemma mounted_tracked (t0 : Z) (p : props) : tracked (mounted t0 p).
Proof. split; [intros _ x Hx | intros f Hf]; by apply elem_of_nil in Hx || apply elem_of_nil in Hf. Qed.

(** A step that keeps the lifecycle state and the frames keeps the
    tracking. *)
Lemma tracked_same (w w' : world) :
  same_lifecycle w w' → frames_tracked w' → tracked w → tracked w'.
Proof.
  intros (H1&H2&H3&H4&H5&H6&H7&H8&H9) Hf [Ht _]. split; [|done].
  intros Hp x Hx. rewrite H9 in Hx. rewrite H4. apply Ht; [congruence | done].
Qed.

Lemma input_effect_frames (w : world) : frames_tracked w → frames_tracked (input_effect w).
Proof.
  intros Hf.
  assert (frames (plat (input_effect_cleanup w)) = []
          ∧ inputCleanup (input_effect_cleanup w) = None) as [F C].
  { unfold input_effect_cleanup. destruct (inputCleanup w) as [h|] eqn:Hc.
    - cbn. split; [|done]. apply filter_none.
      intros f Hin Hne. apply Hf in Hin. congruence.
    - split; [|done]. destruct (frames (plat w)) as [|f fs] eqn:Hfs; [done|].
      assert (inputCleanup w = Some (frame_handle f)) as Hbad.
      { apply Hf. rewrite Hfs. left. }
      congruence. }
  unfold Renderer.input_effect, Renderer.input_effect_body.
  repeat case_match; intros f; cbn; rewrite ?F; try by intros ?%elem_of_nil.
  cbn. by intros ->%list_elem_of_singleton.
Qed.

Lemma partial_effect_frames (w : world) : frames_tracked w → frames_tracked (partial_effect w).
Proof. unfold partial_effect. by repeat case_match. Qed.

Lemma output_effect_frames (w : world) : frames_tracked w → frames_tracked (output_effect w).
Proof. unfold Renderer.output_effect. by repeat case_match. Qed.

Lemma run_effects_frames (b : bool) (ch : changed) (w : world) :
  frames_tracked w → frames_tracked (run_effects b ch w).
Proof.
  intros H. unfold Renderer.run_effects.
  repeat case_match;
    auto using input_effect_frames, partial_effect_frames, output_effect_frames.
Qed.

Lemma run_effects_tracked (b : bool) (ch : changed) (w : world) :
  tracked w → tracked (run_effects b ch w).
Proof.
  intros H. eapply tracked_same; [apply run_effects_lifecycle | | done].
  apply run_effects_frames, H.
Qed.

Lemma oninitialized_tracked (w : world) : tracked w → tracked (oninitialized w).
Proof.
  intros [Ht Hf]. unfold Renderer.oninitialized.
  destruct (_ && _).
  - split; [|done]. intros Hp x. cbn.
    intros [Hx|Hx%list_elem_of_singleton]%elem_of_app.
    + apply list_elem_of_filter in Hx as [Hne Hx].
      destruct (Ht Hp x Hx) as [_ Hr]. by rewrite Hr in Hne.
    + by subst x.
  - apply run_effects_tracked. by split.
Qed.

Lemma handleMessage_tracked (ev : MessageEvent) (w : world) :
  tracked w → tracked (handleMessage ev w).
Proof.
  intros H. unfold Renderer.handleMessage, transport_onmessage.
  repeat case_match; try done; apply oninitialized_tracked; by destruct H.
Qed.

Lemma run_frame_tracked (w : world) (f : frame) : tracked w → tracked (run_frame w f).
Proof.
  intros [Ht Hf].
  split; [intros Hp x Hx; exact (Ht Hp x Hx) | intros g Hg; exact (Hf g Hg)].
Qed.

Lemma animation_frame_tracked (w : world) : tracked w → tracked (animation_frame w).
Proof.
  intros [Ht Hf]. unfold Renderer.animation_frame.
  assert (tracked (upd_plat (set_frames []) w)) as Hw.
  { split; [intros Hp x Hx; exact (Ht Hp x Hx) | by intros g Hg%elem_of_nil]. }
  revert Hw. generalize (upd_plat (set_frames []) w). generalize (frames (plat w)).
  induction l as [|f fs IH]; intros w1 Hw1; [done|].
  cbn [foldl]. by apply IH, run_frame_tracked.
Qed.

Lemma fire_due_tracked (fuel : nat) (t : Z) (w : world) :
  tracked w → tracked (fire_due fuel t w).
Proof.
  revert w. induction fuel as [|fuel IH]; intros w Hw; [done|].
  cbn [Renderer.fire_due]. destruct (next_due t (timers (plat w))) as [x|]; [|done].
  apply IH. destruct Hw as [Ht Hf].
  assert (tracked (upd_plat (set_clock (Z.max (now (upd_plat (clearTimeout (Some (timer_handle x))) w))
                                          (timer_deadline x)))
                     (upd_plat (clearTimeout (Some (timer_handle x))) w))) as [Ht' Hf'].
  { split; [|done]. intros Hp y. cbn. intros [_ Hy]%list_elem_of_filter. by apply Ht. }
  destruct (timer_callback_of x); cbn [Renderer.fire].
  - unfold Renderer.resend_callback. repeat case_match; by split.
  - unfold teardown_settled. case_match; by split.
Qed.

Lemma advance_tracked (t : Z) (w : world) : tracked w → tracked (advance t w).
Proof.
  intros H. unfold Renderer.advance.
  destruct (fire_due_tracked (length (timers (plat w))) t w H) as [Ht Hf].
  by split.
Qed.

(** *** After the cleanup *)

Lemma cleanup_cancel_resend_timers (w : world) :
  tracked w → the_phase w = Mounted → timers (plat (cleanup_cancel_resend w)) = [].
Proof.
  intros [Ht _] Hp. unfold cleanup_cancel_resend. cbn.
  apply filter_none. intros x Hx Hne. destruct (Ht Hp x Hx) as [_ Hr].
  by rewrite Hr in Hne.
Qed.

Lemma unmount_torn (w : world) :
  tracked w → the_phase w = Mounted → torn (bridge_log (out w)) (now w) (unmount w).
Proof.
  intros Hw Hp. pose proof (cleanup_cancel_resend_timers w Hw Hp) as Hnil.
  destruct Hw as [_ Hf].
  assert (frames (plat (unmount w)) = []) as Hfr.
  { unfold unmount, input_effect_cleanup, cleanup, cleanup_teardown, cleanup_cancel_resend.
    cbn. destruct (inputCleanup w) as [h|] eqn:Hc; cbn.
    - apply filter_none. intros f Hin Hne. apply Hf in Hin. congruence.
    - destruct (frames (plat w)) as [|f fs] eqn:Hfs; [done|].
      assert (inputCleanup w = Some (frame_handle f)) as Hbad.
      { apply Hf. rewrite Hfs. left. }
      congruence. }
  unfold cleanup_cancel_resend in Hnil. cbn in Hnil.
  unfold torn. rewrite Hfr.
  unfold unmount, input_effect_cleanup.
  change (inputCleanup (cleanup w)) with (inputCleanup w).
  unfold cleanup, cleanup_teardown, cleanup_cancel_resend.
  destruct (inputCleanup w) as [h|]; unfold now; cbn; rewrite Hnil; cbn;
    (repeat split; try done; left; repeat split; try done; try lia; by eexists).
Qed.

Lemma fire_due_closed (fuel : nat) (T : Z) (w : world) :
  the_phase w = Closed →
  Forall (λ x, timer_callback_of x = TeardownTimeoutCb) (timers (plat w)) →
  let w' := fire_due fuel T w in
  the_phase w' = Closed ∧ out w' = out w ∧ the_refs w' = the_refs w
  ∧ listening w' = listening w ∧ frames (plat w') = frames (plat w)
  ∧ Forall (λ x, timer_callback_of x = TeardownTimeoutCb) (timers (plat w')).
Proof.
  revert w. induction fuel as [|fuel IH]; intros w Hp Hall; [done|].
  cbn [Renderer.fire_due]. destruct (next_due T (timers (plat w))) as [x|] eqn:Hx; [|done].
  assert (x ∈ timers (plat w)) as Hin.
  { clear -Hx. revert x Hx. induction (timers (plat w)) as [|y l IHl]; intros x; [done|].
    cbn. destruct (next_due T l) as [z|].
    - destruct (_ && _); intros [= <-]; [left | right; by apply IHl].
    - destruct (_ <=? _); [intros [= <-]; left | done]. }
  rewrite Forall_forall in Hall. rewrite (Hall x Hin). cbn [Renderer.fire].
  unfold teardown_settled. cbn [the_phase upd_plat]. rewrite Hp.
  match goal with |- context [fire_due fuel T ?x] =>
    destruct (IH x) as (I1&I2&I3&I4&I5&I6)
  end; [done | |by repeat split].
  cbn. apply Forall_forall. intros y [_ Hy]%list_elem_of_filter. by apply Hall.
Qed.

Lemma advance_torn (base : list bridge_entry) (t T : Z) (w : world) :
  torn base t w → torn base t (advance T w).
Proof.
  intros (Hl&Hb&Hf&[(Hp&Hn&Hlog&h&Ht)|(Hp&Hlog&Ht)]).
  - destruct (decide (t + 2000 ≤ T)) as [Hdue|Hnot].
    + rewrite (advance_due _ _ _ _ Ht) by done.
      cbn [timer_callback_of timer_handle timer_deadline Renderer.fire]. cbv zeta.
      unfold teardown_settled. cbn [the_phase upd_plat]. rewrite Hp.
      unfold torn, now in *. cbn. rewrite Ht, Hlog. cbn.
      rewrite decide_False by (intros Hne; by apply Hne).
      repeat split; try done. right. repeat split; try done.
      exists (t + 2000). split; [lia|].
      rewrite <- app_assoc. cbn. repeat f_equal. unfold close_entry. f_equal. lia.
    + rewrite (advance_not_due _ _ _ _ Ht) by (cbn; lia).
      unfold torn, now in *. cbn.
      repeat split; try done. left. repeat split; try done; try lia. by exists h.
  - unfold Renderer.advance.
    destruct (fire_due_closed (length (timers (plat w))) T w Hp Ht) as (I1&I2&I3&I4&I5&I6).
    unfold torn, now. cbn. rewrite I1, I2, I3, I4, I5.
    repeat split; try done. by right.
Qed.

Lemma transport_send_torn (base : list bridge_entry) (t : Z) (m : json) (sandbox : bool)
    (w : world) :
  torn base t w → torn base t (transport_send m sandbox w).
Proof. by destruct sandbox. Qed.

Lemma handle_torn (base : list bridge_entry) (t : Z) (e : event) (w : world) :
  torn base t w → torn base t (handle e w).
Proof.
  intros Hw. pose proof Hw as (Hl&Hb&Hf&[(Hp&Hn&Hlog&h&Ht)|(Hp&Hlog&Ht)]);
    destruct e as [ev|p ch| |b| |m sandbox]; try (by apply transport_send_torn);
    cbn; rewrite ?Hl, ?Hp; try done.
  - unfold Renderer.animation_frame. rewrite Hf. cbn.
    unfold torn, now in *. cbn. repeat split; try done. left. repeat split; try done; try lia.
    by exists h.
  - unfold teardown_settled. rewrite Hp.
    unfold torn, now in *. cbn. rewrite Ht, Hlog.
    repeat split; try done. right. repeat split; try done.
    + exists (clock (plat w)). split; [lia|]. by rewrite <- app_assoc.
    + by repeat constructor.
  - unfold Renderer.animation_frame. rewrite Hf. cbn.
    unfold torn, now in *. cbn. repeat split; try done. by right.
  - unfold teardown_settled. by rewrite Hp.
Qed.

Lemma run_torn (base : list bridge_entry) (t : Z) (sched : list (Z * event)) (w : world) :
  torn base t w → torn base t (run sched w).
Proof.
  revert w. induction sched as [|te sched IH]; intros w Hw; [done|].
  unfold Renderer.run in *. cbn [foldl]. apply IH.
  unfold Renderer.step. by apply handle_torn, advance_torn.
Qed.

Lemma torn_closes (base : list bridge_entry) (t T : Z) (w : world) :
  torn base t w → t + 2000 ≤ T →
  the_phase (advance T w) = Closed
  ∧ ∃ tc, t ≤ tc ≤ t + 2000
        ∧ bridge_log (out (advance T w)) = base ++ [teardown_entry t; close_entry tc].
Proof.
  intros Hw HT. pose proof (advance_torn base t T w Hw) as (_&_&_&[(Hp&Hn&_)|(Hp&Hlog&_)]).
  - exfalso. revert Hn. unfold Renderer.advance, now. cbn. lia.
  - done.
Qed.

(** *** The tracking holds in every reachable state *)

Lemma handle_tracked (e : event) (w : world) : tracked w → tracked (handle e w).
Proof.
  intros Hw. destruct e; cbn.
  - destruct (listening w); [by apply handleMessage_tracked | done].
  - destruct (the_phase w); [|done..]. unfold Renderer.render.
    apply run_effects_tracked. by destruct Hw.
  - by apply animation_frame_tracked.
  - unfold teardown_settled. destruct (the_phase w) eqn:Hp; try done.
    destruct Hw as [Ht Hf]. by split.
  - destruct (the_phase w) eqn:Hp; [|done..].
    pose proof (unmount_torn w Hw Hp) as (_&_&Hfr&[(Hp'&_)|(Hp'&_)]);
      (split; [intros Hm; congruence | intros f; rewrite Hfr; by intros ?%elem_of_nil]).
  - by destruct sandbox.
Qed.

Lemma run_tracked (sched : list (Z * event)) (w : world) : tracked w → tracked (run sched w).
Proof.
  revert w. induction sched as [|te sched IH]; intros w Hw; [done|].
  unfold Renderer.run in *. cbn [foldl]. apply IH.
  unfold Renderer.step. by apply handle_tracked, advance_tracked.
Qed.

(** C6. Whatever happened before the unmount and whatever the guest and
    the page do after it: the cleanup of the bridge effect first cancels the
    resend timer, so that no resend timer is pending when [teardownResource]
    is called; from then on the only calls on the bridge are that one and one
    [close], which comes no later than 2000 ms after it, whether the guest
    answers, fails or stays silent. No tool input or tool result is sent once
    the cleanup has started. *)
Theorem teardown_bounded (sched0 sched1 : list (Z * event)) (t0 t T : Z) (p : props)
    (w : world) :
  w = advance t (run sched0 (mounted t0 p)) →
  the_phase w = Mounted →
  now w + 2000 ≤ T →
  let w' := advance T (run (sched0 ++ (t, EvUnmount) :: sched1) (mounted t0 p)) in
  Forall (λ x, timer_callback_of x ≠ ResendCb) (timers (plat (cleanup_cancel_resend w)))
  ∧ the_phase w' = Closed
  ∧ ∃ tc, now w ≤ tc ≤ now w + 2000
        ∧ bridge_log (out w')
          = bridge_log (out w) ++ [teardown_entry (now w); close_entry tc].
Proof.
  intros Hw0 Hp HT w'.
  assert (tracked w) as Hw.
  { subst w. apply advance_tracked, run_tracked, mounted_tracked. }
  split.
  { by rewrite cleanup_cancel_resend_timers. }
  assert (step (run sched0 (mounted t0 p)) (t, EvUnmount) = unmount w) as Hstep.
  { unfold Renderer.step. cbn [fst snd Renderer.handle]. rewrite <- Hw0. by rewrite Hp. }
  assert (run (sched0 ++ (t, EvUnmount) :: sched1) (mounted t0 p)
          = run sched1 (unmount w)) as Hrun.
  { unfold Renderer.run. rewrite foldl_app. cbn [foldl].
    fold (run sched0 (mounted t0 p)). by rewrite Hstep. }
  subst w'. rewrite Hrun.
  apply torn_closes; [|done]. by apply run_torn, unmount_torn.
Qed.

End Component.
End TeardownFacts.

(** ** The theorems at work *)

Module Scenarios.
Import Json Renderer Examples SuggestedFix ExampleValues RendererInvariants.
Import RendererFacts PushFacts TeardownFacts.

Lemma handleMessage_rejects_foreign_witness :
  handleMessage no_parse plain_origin example_env spoofed_event (mounted 0 example_props)
  = mounted 0 example_props
  ∧ handle no_parse plain_origin example_env (EvMessage spoofed_event)
      (mounted 0 example_props)
    = mounted 0 example_props.
Proof.
  apply (handleMessage_rejects_foreign no_parse plain_origin example_env
           spoofed_event (mounted 0 example_props) "https://sandbox.example.com").
  - reflexivity.
  - right. discriminate.
Defined.

(** The scenario of the specification, on the clock of the page: a counted
    announcement at 1000, suppressed ones at 1500 and 1700, one resend at
    2000. *)
Lemma burst_one_deferred_resend_witness :
  deferred_resends
    (advance no_parse 2000
       (announcements no_parse example_env [1000; 1500; 1700] (mounted 0 example_props)))
  = resend_entries no_parse 2000 example_props
  ∧ initCount
      (advance no_parse 2000
         (announcements no_parse example_env [1000; 1500; 1700] (mounted 0 example_props)))
    = 1%nat.
Proof.
  pose proof (burst_one_deferred_resend no_parse example_env 0 1000 2000
                example_props [1500; 1700]) as H.
  cbv zeta in H. apply H; clear H.
  - lia.
  - lia.
  - cbn. lia.
  - cbn. lia.
Defined.

(** C3 as stated fails: three announcements, each within 2000 ms of the
    one before it, but more than 300 ms apart, make the timer fire twice. *)
Lemma burst_resends_twice :
  within_2000 [1000; 1500; 2000]
  ∧ ¬ one_deferred_resend no_parse example_env 0 example_props [1000; 1500; 2000].
Proof.
  split; [cbn; lia|].
  intros (t_last & Hlast & H). cbn in Hlast. injection Hlast as <-.
  specialize (H 5000 ltac:(lia)). vm_compute in H. discriminate H.
Qed.

Example burst_resend_times :
  entry_time <$>
    deferred_resends
      (advance no_parse 5000
         (announcements no_parse example_env [1000; 1500; 2000] (mounted 0 example_props)))
  = [1800; 1800; 2300; 2300].
Proof. reflexivity. Qed.

Lemma spaced_announcements_all_counted_witness :
  initCount
    (announcements no_parse example_env [5000; 8000; 12000] (mounted 0 example_props))
  = 3%nat.
Proof.
  apply (spaced_announcements_all_counted no_parse example_env 0 example_props
           [5000; 8000; 12000]).
  - repeat constructor; lia.
  - cbn. lia.
Defined.

Lemma tool_input_push_idempotent_witness :
  ∃ by_,
    bridge_log
      (out (animation_frame
              (pushes no_parse example_env [Attempt; Attempt; Frame; Attempt]
                 (first_epoch streaming_props))))
    = [{| entry_time := 1000; entry_by := by_;
          entry_call :=
            SendToolInput
              (tool_input_params (mergedArgs no_parse streaming_props)) |}].
Proof.
  pose proof (tool_input_push_idempotent no_parse example_env
                (first_epoch streaming_props) [Attempt; Attempt; Frame; Attempt]) as H.
  cbv zeta in H. destruct H as [H _].
  - reflexivity.
  - discriminate.
  - reflexivity.
  - reflexivity.
  - intros [H _]. discriminate H.
  - left.
  - exact H.
Defined.

Example tool_input_two_attempts :
  bridge_log
    (out (input_effect no_parse example_env
            (input_effect no_parse example_env (first_epoch example_props))))
  = [{| entry_time := 1000; entry_by := ByEffect;
        entry_call := SendToolInput
                        (JObj [("arguments", JObj [("city", JStr "Paris")])]) |}].
Proof. reflexivity. Qed.

(** The tool input goes out again under a new [initCount]: here the keys
    are those of the first one and [initCount] is 2. *)
Lemma tool_input_resent_after_reload_witness :
  bridge_log
    (out (input_effect no_parse example_env
            (set_initCount 2 (announce no_parse example_env (mounted 0 example_props) 1000))))
  = bridge_log
      (out (set_initCount 2 (announce no_parse example_env (mounted 0 example_props) 1000)))
    ++ [{| entry_time := 1000; entry_by := ByEffect;
           entry_call := SendToolInput
                           (tool_input_params (mergedArgs no_parse example_props)) |}].
Proof.
  apply (tool_input_resent_after_reload no_parse example_env
           (set_initCount 2 (announce no_parse example_env (mounted 0 example_props) 1000))
           1).
  - reflexivity.
  - discriminate.
  - reflexivity.
  - reflexivity.
  - reflexivity.
  - discriminate.
Defined.

(** C2 on the code: the guest announces itself at 1000 and, reloaded, again
    at 4000. [initCount] goes to 1 and then to 2. The tool input is sent
    under each of them; the tool output is sent under the first only, because
    its key does not hold [initCount]. *)
Theorem reload_resends_input_not_output :
  initCount (announcements no_parse example_env [1000; 4000] (mounted 0 example_props))
  = 2%nat
  ∧ bridge_log
      (out (announcements no_parse example_env [1000; 4000] (mounted 0 example_props)))
    = [ {| entry_time := 1000; entry_by := ByEffect;
           entry_call := SendToolInput
                           (JObj [("arguments", JObj [("city", JStr "Paris")])]) |};
        {| entry_time := 1000; entry_by := ByEffect;
           entry_call := SendToolResult
                           (JObj [("structuredContent", JObj [("temp", JNum 21)])]) |};
        {| entry_time := 4000; entry_by := ByEffect;
           entry_call := SendToolInput
                           (JObj [("arguments", JObj [("city", JStr "Paris")])]) |} ].
Proof. split; reflexivity. Qed.

(** The guest never answers: [close] comes with the timeout. The resend
    timer armed at 1500 never fires. *)
Lemma teardown_bounded_witness :
  the_phase
    (advance no_parse 3600
       (run no_parse plain_origin example_env
          (before_unmount ++ (1600, EvUnmount) :: after_unmount)
          (mounted 0 example_props)))
  = Closed
  ∧ ∃ tc, 1600 ≤ tc ≤ 3600
      ∧ bridge_log
          (out (advance no_parse 3600
                  (run no_parse plain_origin example_env
                     (before_unmount ++ (1600, EvUnmount) :: after_unmount)
                     (mounted 0 example_props))))
        = [ {| entry_time := 1000; entry_by := ByEffect;
               entry_call := SendToolInput
                               (JObj [("arguments", JObj [("city", JStr "Paris")])]) |};
            {| entry_time := 1000; entry_by := ByEffect;
               entry_call := SendToolResult
                               (JObj [("structuredContent", JObj [("temp", JNum 21)])]) |} ]
          ++ [teardown_entry 1600; close_entry tc].
Proof.
  destruct (teardown_bounded no_parse plain_origin example_env
              before_unmount after_unmount 0 1600 3600 example_props
              (advance no_parse 1600
                 (run no_parse plain_origin example_env before_unmount
                    (mounted 0 example_props))))
    as (_ & Hc & tc & Ht & Hl).
  - reflexivity.
  - reflexivity.
  - vm_compute. discriminate.
  - split; [exact Hc|]. exists tc. split; [exact Ht | exact Hl].
Defined.

Example teardown_silent_guest :
  bridge_log
    (out (advance no_parse 9000
            (run no_parse plain_origin example_env
               (before_unmount ++ (1600, EvUnmount) :: after_unmount)
               (mounted 0 example_props))))
  = [ {| entry_time := 1000; entry_by := ByEffect;
         entry_call := SendToolInput
                         (JObj [("arguments", JObj [("city", JStr "Paris")])]) |};
      {| entry_time := 1000; entry_by := ByEffect;
         entry_call := SendToolResult
                         (JObj [("structuredContent", JObj [("temp", JNum 21)])]) |};
      teardown_entry 1600; close_entry 3600 ].
Proof. reflexivity. Qed.

End Scenarios.

(** ** The renderer: what the message handler writes *)

Module InboundFacts.
Import Json Renderer RendererInvariants RendererFacts InboundInvariants.

Section Component.
Context (JSON_parse : string → option json).
Context (URL_origin : string → option string).
Context (E : env).

Local Abbreviation handleMessage := (handleMessage JSON_parse URL_origin E).
Local Abbreviation handle := (handle JSON_parse URL_origin E).
Local Abbreviation step := (step JSON_parse URL_origin E).
Local Abbreviation run := (run JSON_parse URL_origin E).
Local Abbreviation oninitialized := (oninitialized JSON_parse E).
Local Abbreviation run_effects := (run_effects JSON_parse E).
Local Abbreviation input_effect := (input_effect JSON_parse E).
Local Abbreviation output_effect := (output_effect JSON_parse).
Local Abbreviation partial_effect := (partial_effect).
Local Abbreviation resend_callback := (resend_callback JSON_parse).
Local Abbreviation advance := (advance JSON_parse).
Local Abbreviation fire_due := (fire_due JSON_parse).
Local Abbreviation fire := (fire JSON_parse).
Local Abbreviation render := (render JSON_parse E).
Local Abbreviation console_error_report := (console_error_report E).

(** *** The pushes, the timers and the cleanup write none of it *)

Lemma run_effects_inbound (b : bool) (ch : changed) (w : world) :
  inbound (run_effects b ch w) = inbound w.
Proof.
  unfold Renderer.run_effects, Renderer.output_effect, Renderer.input_effect,
    input_effect_body, input_effect_cleanup, Renderer.partial_effect, inbound.
  repeat case_match; reflexivity.
Qed.

Lemma oninitialized_inbound (w : world) : inbound (oninitialized w) = inbound w.
Proof.
  unfold Renderer.oninitialized. case_match; [reflexivity|].
  by rewrite run_effects_inbound.
Qed.

Lemma resend_callback_inbound (w : world) : inbound (resend_callback w) = inbound w.
Proof. unfold Renderer.resend_callback, inbound. repeat case_match; reflexivity. Qed.

Lemma teardown_settled_inbound (w : world) : inbound (teardown_settled w) = inbound w.
Proof. unfold teardown_settled, inbound. by case_match. Qed.

Lemma fire_due_inbound (fuel : nat) (t : Z) (w : world) :
  inbound (fire_due fuel t w) = inbound w.
Proof.
  revert w. induction fuel as [|fuel IH]; intros w; [done|].
  cbn [Renderer.fire_due]. case_match; [|done]. rewrite IH.
  destruct (timer_callback_of _); cbn [Renderer.fire];
    by rewrite ?resend_callback_inbound, ?teardown_settled_inbound.
Qed.

Lemma advance_inbound (t : Z) (w : world) : inbound (advance t w) = inbound w.
Proof.
  unfold Renderer.advance.
  transitivity (inbound (fire_due (length (timers (plat w))) t w)); [done|].
  apply fire_due_inbound.
Qed.

Lemma animation_frame_inbound (w : world) : inbound (animation_frame w) = inbound w.
Proof.
  unfold animation_frame.
  change (inbound w) with (inbound (upd_plat (set_frames []) w)).
  generalize (upd_plat (set_frames []) w).
  induction (frames (plat w)) as [|f fs IH]; intros w0; [done|].
  cbn [foldl]. by rewrite IH.
Qed.

Lemma unmount_inbound (w : world) : inbound (unmount w) = inbound w.
Proof.
  unfold unmount, input_effect_cleanup, cleanup, cleanup_teardown, cleanup_cancel_resend, inbound.
  by case_match.
Qed.

Lemma transport_send_inbound (m : json) (sandbox : bool) (w : world) :
  inbound (transport_send m sandbox w) = inbound w.
Proof. by destruct sandbox. Qed.

(** Every event but a message leaves the three of them as they were. *)
Lemma handle_other_inbound (e : event) (w : world) :
  (∀ ev, e ≠ EvMessage ev) → inbound (handle e w) = inbound w.
Proof.
  intros He. destruct e as [ev|p ch| |b| |m sandbox]; cbn [Renderer.handle].
  - by destruct (He ev).
  - case_match; try done. unfold Renderer.render. by rewrite run_effects_inbound.
  - apply animation_frame_inbound.
  - apply teardown_settled_inbound.
  - case_match; try done. apply unmount_inbound.
  - apply transport_send_inbound.
Qed.

(** *** Only the transport publishes with direction send *)

Lemma run_effects_sent (b : bool) (ch : changed) (w : world) :
  rpc_sent (out (run_effects b ch w)) = rpc_sent (out w).
Proof.
  unfold Renderer.run_effects, Renderer.output_effect, Renderer.input_effect,
    input_effect_body, input_effect_cleanup, Renderer.partial_effect.
  repeat case_match; reflexivity.
Qed.

Lemma oninitialized_sent (w : world) :
  rpc_sent (out (oninitialized w)) = rpc_sent (out w).
Proof.
  unfold Renderer.oninitialized. case_match; [reflexivity|].
  by rewrite run_effects_sent.
Qed.

Lemma handleMessage_sent (ev : MessageEvent) (w : world) :
  rpc_sent (out (handleMessage ev w)) = rpc_sent (out w).
Proof.
  unfold Renderer.handleMessage, transport_onmessage.
  repeat case_match; try reflexivity. by rewrite oninitialized_sent.
Qed.

Lemma fire_due_sent (fuel : nat) (t : Z) (w : world) :
  rpc_sent (out (fire_due fuel t w)) = rpc_sent (out w).
Proof.
  revert w. induction fuel as [|fuel IH]; intros w; [done|].
  cbn [Renderer.fire_due]. case_match; [|done]. rewrite IH.
  destruct (timer_callback_of _); cbn [Renderer.fire].
  - unfold Renderer.resend_callback. repeat case_match; reflexivity.
  - unfold teardown_settled. by case_match.
Qed.

Lemma advance_sent (t : Z) (w : world) :
  rpc_sent (out (advance t w)) = rpc_sent (out w).
Proof.
  unfold Renderer.advance.
  transitivity (rpc_sent (out (fire_due (length (timers (plat w))) t w))); [done|].
  apply fire_due_sent.
Qed.

Lemma animation_frame_sent (w : world) :
  rpc_sent (out (animation_frame w)) = rpc_sent (out w).
Proof.
  unfold animation_frame.
  change (rpc_sent (out w)) with (rpc_sent (out (upd_plat (set_frames []) w))).
  generalize (upd_plat (set_frames []) w).
  induction (frames (plat w)) as [|f fs IH]; intros w0; [done|].
  cbn [foldl]. by rewrite IH.
Qed.

(** What one step publishes with direction send: the message of the
    transport, at the time of the step, and nothing for any other event. *)
Lemma step_sent (w : world) (te : Z * event) :
  (rpc_sent (out (step w te))).*2 = (rpc_sent (out w)).*2 ++ sent_messages [te].
Proof.
  destruct te as [t e]. unfold Renderer.step, sent_messages. cbn [fst snd omap].
  rewrite <- (advance_sent t w). generalize (advance t w). clear w. intros w.
  destruct e as [ev|p ch| |b| |m sandbox]; cbn [Renderer.handle list_omap];
    rewrite ?app_nil_r.
  - case_match; [|done]. by rewrite handleMessage_sent.
  - case_match; try done. unfold Renderer.render. by rewrite run_effects_sent.
  - by rewrite animation_frame_sent.
  - unfold teardown_settled. by case_match.
  - case_match; try done.
    unfold unmount, input_effect_cleanup, cleanup, cleanup_teardown, cleanup_cancel_resend.
    by case_match.
  - destruct sandbox; cbn; by rewrite fmap_app.
Qed.

Lemma run_sent (sched : list (Z * event)) (w : world) :
  (rpc_sent (out (run sched w))).*2 = (rpc_sent (out w)).*2 ++ sent_messages sched.
Proof.
  revert w. induction sched as [|te sched IH]; intros w; [by rewrite app_nil_r|].
  change (run (te :: sched) w) with (run sched (step w te)).
  rewrite IH, step_sent, <- app_assoc. f_equal.
  unfold sent_messages. cbn [omap list_omap]. by case_match.
Qed.

(** *** What one message adds *)

(** A message adds nothing, or one report to the parent page, or one entry
    of the RPC log, which is handed to the bridge when it is truthy. *)
Lemma handleMessage_inbound (ev : MessageEvent) (w : world) :
  inbound (handleMessage ev w) = inbound w
  ∨ (is_literal "iframe-console-log" (get "type" (data ev)) = true
     ∧ embedded E = true
     ∧ inbound (handleMessage ev w)
       = (rpc_log (out w), delivered (out w),
          parent_posts (out w) ++ [console_error_report w (data ev)]))
  ∨ (is_literal "iframe-console-log" (get "type" (data ev)) = false
     ∧ inbound (handleMessage ev w)
       = (rpc_log (out w) ++ [(now w, data ev)],
          delivered (out w) ++ (if truthy (data ev) then [data ev] else []),
          parent_posts (out w))).
Proof.
  unfold Renderer.handleMessage.
  destruct (URL_origin (iframe_src E)) as [o|]; [|by left].
  destruct (bool_decide (origin ev ≠ o)); [by left|].
  destruct (bool_decide (source ev ≠ iframe_contentWindow E)); [by left|].
  destruct (is_literal "iframe-console-log" (get "type" (data ev))) eqn:Hc.
  - destruct (is_literal "error" (get "level" (data ev)) && embedded E) eqn:Hl; [|by left].
    apply andb_true_iff in Hl as [_ He]. right; left. by repeat split.
  - right; right. split; [done|].
    destruct (truthy (data ev)) eqn:Ht.
    + unfold transport_onmessage. case_match.
      * by rewrite oninitialized_inbound.
      * reflexivity.
    + unfold inbound. cbn. by rewrite app_nil_r.
Qed.

Lemma console_error_report_shape (w : world) (d : json) :
  get "type" (console_error_report w d) = Some (JStr "mcp-inspector:widget:error")
  ∧ get "toolId" (console_error_report w d) = Some (JStr (toolCallId E)).
Proof. unfold Renderer.console_error_report. split; [reflexivity|]. by repeat case_match. Qed.

(** *** Over a whole run *)

Lemma inbound_eq (w w' : world) :
  inbound w' = inbound w →
  rpc_log (out w') = rpc_log (out w) ∧ delivered (out w') = delivered (out w)
  ∧ parent_posts (out w') = parent_posts (out w).
Proof. unfold inbound. by intros [= -> -> ->]. Qed.

(** The three facts that every step keeps. *)
Lemma step_inbound_ok (w : world) (te : Z * event) :
  let ok w := delivered (out w) = handed_on (rpc_log (out w))
              ∧ Forall (λ e, is_literal "iframe-console-log" (get "type" e.2) = false)
                  (rpc_log (out w))
              ∧ Forall (error_report_of E) (parent_posts (out w)) in
  ok w → ok (step w te).
Proof.
  intros ok (Hd & Hl & Hp). destruct te as [t e]. unfold Renderer.step. cbn [fst snd].
  destruct (inbound_eq _ _ (advance_inbound t w)) as (Ha1 & Ha2 & Ha3).
  set (w1 := advance t w) in *.
  assert (ok w1) as (Hd1 & Hl1 & Hp1).
  { unfold ok. by rewrite Ha1, Ha2, Ha3. }
  clearbody w1. clear Hd Hl Hp Ha1 Ha2 Ha3 w.
  assert (∀ w2, inbound w2 = inbound w1 → ok w2) as Hsame.
  { intros w2 (H21 & H22 & H23)%inbound_eq. unfold ok. by rewrite H21, H22, H23. }
  destruct e as [ev|p ch| |b| |m sandbox];
    try (apply Hsame, handle_other_inbound; by intros ev0).
  cbn [Renderer.handle]. destruct (listening w1); [|by apply Hsame].
  destruct (handleMessage_inbound ev w1) as [H|[(Hc & He & H)|(Hc & H)]].
  - by apply Hsame.
  - injection H as H1 H2 H3. unfold ok. rewrite H1, H2, H3. repeat split; [done..|].
    apply Forall_app. split; [done|]. apply Forall_singleton.
    destruct (console_error_report_shape w1 (data ev)). by repeat split.
  - injection H as H1 H2 H3. unfold ok. rewrite H1, H2, H3. repeat split; [| |done].
    + unfold handed_on. rewrite fmap_app, filter_app. fold (handed_on (rpc_log (out w1))).
      rewrite <- Hd1. f_equal. cbn [fmap list_fmap snd].
      destruct (truthy (data ev)) eqn:Ht.
      * by rewrite filter_cons_True, filter_nil.
      * rewrite filter_cons_False, filter_nil; [done|]. by rewrite Ht.
    + apply Forall_app. split; [done|]. by apply Forall_singleton.
Qed.

Lemma run_inbound_ok (sched : list (Z * event)) (w : world) :
  delivered (out w) = handed_on (rpc_log (out w)) →
  Forall (λ e, is_literal "iframe-console-log" (get "type" e.2) = false) (rpc_log (out w)) →
  Forall (error_report_of E) (parent_posts (out w)) →
  delivered (out (run sched w)) = handed_on (rpc_log (out (run sched w)))
  ∧ Forall (λ e, is_literal "iframe-console-log" (get "type" e.2) = false)
      (rpc_log (out (run sched w)))
  ∧ Forall (error_report_of E) (parent_posts (out (run sched w))).
Proof.
  revert w. induction sched as [|te sched IH]; intros w Hd Hl Hp; [done|].
  change (run (te :: sched) w) with (run sched (step w te)).
  destruct (step_inbound_ok w te) as (H1 & H2 & H3); [done|]. by apply IH.
Qed.

(** X2. Whatever happens to a mounted widget (messages from any window,
    renders, animation frames, timers, messages sent by the bridge, the
    unmount), the two directions of the RPC log are kept apart. The messages
    handed to the bridge are the truthy messages published as received, in the
    same order: nothing reaches the bridge without such an entry, and only a
    falsy message is published as received without being handed on. The
    messages published as sent are the messages that the bridge gave to the
    transport, in the same order: no message of the guest is published as
    sent, and none that the bridge sends is handed back to it. *)
Theorem delivered_are_the_logged (sched : list (Z * event)) (t0 : Z) (p : props) :
  delivered (out (run sched (mounted t0 p)))
  = handed_on (rpc_log (out (run sched (mounted t0 p))))
  ∧ (rpc_sent (out (run sched (mounted t0 p)))).*2 = sent_messages sched.
Proof. split; [by apply run_inbound_ok | apply run_sent]. Qed.

(** X3. Console messages of the guest never show up among the received
    entries of the RPC log, in any run from the mount, and with the previous
    fact never reach the bridge. *)
Theorem console_logs_never_logged (sched : list (Z * event)) (t0 : Z) (p : props) :
  Forall (λ e, is_literal "iframe-console-log" (get "type" e.2) = false)
    (rpc_log (out (run sched (mounted t0 p)))).
Proof. by apply run_inbound_ok. Qed.

(** X4. All that is ever posted to the parent page are error reports that
    carry the id of this tool call, and they are posted only when the page
    is embedded: a page that is its own parent posts nothing. *)
Theorem parent_posts_are_error_reports (sched : list (Z * event)) (t0 : Z) (p : props) :
  Forall (error_report_of E) (parent_posts (out (run sched (mounted t0 p)))).
Proof. by apply run_inbound_ok. Qed.

(** *** After the listener is removed *)

Lemma fire_listening (cb : timer_callback) (w : world) :
  listening (fire cb w) = listening w.
Proof.
  destruct cb; cbn [Renderer.fire].
  - by destruct (resend_callback_lifecycle JSON_parse w) as (_&_&_&_&_&->&_).
  - unfold teardown_settled. by case_match.
Qed.

Lemma fire_due_listening (fuel : nat) (t : Z) (w : world) :
  listening (fire_due fuel t w) = listening w.
Proof.
  revert w. induction fuel as [|fuel IH]; intros w; [done|].
  cbn [Renderer.fire_due]. case_match; [|done]. by rewrite IH, fire_listening.
Qed.

Lemma step_deaf (w : world) (te : Z * event) :
  listening w = false →
  listening (step w te) = false ∧ inbound (step w te) = inbound w.
Proof.
  intros Hl. destruct te as [t e]. unfold Renderer.step. cbn [fst snd].
  assert (listening (advance t w) = false) as Hl1.
  { unfold Renderer.advance. cbn. by rewrite fire_due_listening. }
  rewrite <- (advance_inbound t w). set (w1 := advance t w) in *. clearbody w1.
  destruct e as [ev|p ch| |b| |m sandbox]; cbn [Renderer.handle].
  - by rewrite Hl1.
  - destruct (the_phase w1); try done. unfold Renderer.render. split.
    + by destruct (run_effects_lifecycle JSON_parse E false ch (set_cur p w1))
        as (_&_&_&_&_&->&_).
    + by rewrite run_effects_inbound.
  - split; [|apply animation_frame_inbound].
    unfold animation_frame.
    assert (listening (upd_plat (set_frames []) w1) = false) as H0 by done.
    revert H0. generalize (upd_plat (set_frames []) w1).
    induction (frames (plat w1)) as [|f fs IH]; intros w0 H0; [done|].
    cbn [foldl]. by apply IH.
  - split; [|apply teardown_settled_inbound]. unfold teardown_settled. by case_match.
  - destruct (the_phase w1); try done. split; [|apply unmount_inbound].
    unfold unmount, input_effect_cleanup. by case_match.
  - by destruct sandbox.
Qed.

Lemma run_deaf (sched : list (Z * event)) (w : world) :
  listening w = false → inbound (run sched w) = inbound w.
Proof.
  revert w. induction sched as [|te sched IH]; intros w Hl; [done|].
  change (run (te :: sched) w) with (run sched (step w te)).
  destruct (step_deaf w te Hl) as [Hl' <-]. by apply IH.
Qed.

(** A bridge effect that is no longer mounted has no listener. *)
Lemma fire_due_mounted (fuel : nat) (t : Z) (w : world) :
  the_phase w = Mounted → the_phase (fire_due fuel t w) = Mounted.
Proof.
  revert w. induction fuel as [|fuel IH]; intros w Hp; [done|].
  cbn [Renderer.fire_due]. case_match; [|done]. apply IH.
  destruct (timer_callback_of _); cbn [Renderer.fire].
  - match goal with |- the_phase (Renderer.resend_callback _ ?x) = _ =>
      by destruct (resend_callback_lifecycle JSON_parse x) as (_&_&_&_&_&_&->&_) end.
  - unfold teardown_settled. cbn. by rewrite Hp.
Qed.

Lemma step_mounted_or_deaf (w : world) (te : Z * event) :
  the_phase w = Mounted ∨ listening w = false →
  the_phase (step w te) = Mounted ∨ listening (step w te) = false.
Proof.
  intros [Hp|Hl]; [|right; by apply step_deaf].
  destruct te as [t e]. unfold Renderer.step. cbn [fst snd].
  assert (the_phase (advance t w) = Mounted) as Hp1.
  { unfold Renderer.advance. cbn. by apply fire_due_mounted. }
  set (w1 := advance t w) in *. clearbody w1.
  destruct e as [ev|p ch| |b| |m sandbox]; cbn [Renderer.handle].
  - left. case_match; [|done].
    unfold Renderer.handleMessage, transport_onmessage. repeat case_match; try done.
    unfold Renderer.oninitialized. case_match; [done|].
    match goal with |- the_phase (Renderer.run_effects _ _ ?b ?c ?x) = _ =>
      destruct (run_effects_lifecycle JSON_parse E b c x) as (_&_&_&_&_&_&->&_) end.
    done.
  - left. rewrite Hp1. unfold Renderer.render.
    by destruct (run_effects_lifecycle JSON_parse E false ch (set_cur p w1))
      as (_&_&_&_&_&_&->&_).
  - left. unfold animation_frame.
    assert (the_phase (upd_plat (set_frames []) w1) = Mounted) as H0 by done.
    revert H0. generalize (upd_plat (set_frames []) w1).
    induction (frames (plat w1)) as [|f fs IH]; intros w0 H0; [done|].
    cbn [foldl]. by apply IH.
  - left. unfold teardown_settled. by rewrite Hp1.
  - right. rewrite Hp1. unfold unmount, input_effect_cleanup. by case_match.
  - left. by destruct sandbox.
Qed.

Lemma run_mounted_or_deaf (sched : list (Z * event)) (w : world) :
  the_phase w = Mounted ∨ listening w = false →
  the_phase (run sched w) = Mounted ∨ listening (run sched w) = false.
Proof.
  revert w. induction sched as [|te sched IH]; intros w Hw; [done|].
  change (run (te :: sched) w) with (run sched (step w te)).
  by apply IH, step_mounted_or_deaf.
Qed.

(** X25. The cleanup of the bridge effect makes the widget deaf for good.
    Whatever happened before the unmount and whatever comes after it
    (messages of the guest, timers, frames, the teardown settling, messages
    that the bridge still sends and that are published as sent): nothing more
    is published on the RPC log as received, handed to the bridge or posted to
    the parent page than before the unmount. *)
Theorem unmounted_widget_is_deaf (before after : list (Z * event)) (t t0 : Z)
    (p : props) :
  rpc_log (out (run (before ++ (t, EvUnmount) :: after) (mounted t0 p)))
  = rpc_log (out (run before (mounted t0 p)))
  ∧ delivered (out (run (before ++ (t, EvUnmount) :: after) (mounted t0 p)))
    = delivered (out (run before (mounted t0 p)))
  ∧ parent_posts (out (run (before ++ (t, EvUnmount) :: after) (mounted t0 p)))
    = parent_posts (out (run before (mounted t0 p))).
Proof.
  apply inbound_eq. unfold Renderer.run. rewrite foldl_app. cbn [foldl].
  fold (run before (mounted t0 p)). set (w := run before (mounted t0 p)).
  fold (run after (step w (t, EvUnmount))).
  assert (the_phase w = Mounted ∨ listening w = false) as Hw.
  { apply run_mounted_or_deaf. by left. }
  assert (listening (step w (t, EvUnmount)) = false
          ∧ inbound (step w (t, EvUnmount)) = inbound w) as [Hl Hi].
  { destruct Hw as [Hp|Hl]; [|by apply step_deaf].
    unfold Renderer.step. cbn [fst snd Renderer.handle].
    rewrite <- (advance_inbound t w).
    assert (the_phase (advance t w) = Mounted) as ->.
    { unfold Renderer.advance. cbn. by apply fire_due_mounted. }
    split; [|apply unmount_inbound].
    unfold unmount, input_effect_cleanup. by case_match. }
  by rewrite run_deaf.
Qed.

End Component.
End InboundFacts.

(** ** The renderer: what is sent *)

Module PayloadFacts.
Import Json Renderer RendererInvariants RendererFacts PushFacts TeardownFacts PayloadInvariants.

(** *** Objects as the spread builds them *)

Lemma lookup_set_prop (k k' : string) (v : json) (ps : list (string * json)) :
  lookup_prop k (set_prop k' v ps) = if decide (k = k') then Some v else lookup_prop k ps.
Proof.
  induction ps as [|[k0 v0] ps IH]; cbn.
  - by repeat case_decide.
  - destruct (decide (k' = k0)) as [->|Hne]; cbn.
    + by repeat case_decide.
    + rewrite IH. repeat case_decide; congruence.
Qed.

Lemma lookup_prop_app (k : string) (a b : list (string * json)) :
  lookup_prop k (a ++ b)
  = match lookup_prop k a with Some v => Some v | None => lookup_prop k b end.
Proof. induction a as [|[k0 v0] a IH]; cbn; [done|]. by case_decide. Qed.

(** In [{...a, ...b}] a key has the value that [b] gives it last, and the
    value of [a] when [b] does not have it. *)
Lemma lookup_assign (k : string) (a b : list (string * json)) :
  lookup_prop k (assign a b)
  = match lookup_prop k (reverse b) with Some v => Some v | None => lookup_prop k a end.
Proof.
  unfold assign. revert a. induction b as [|[k0 v0] b IH]; intros a; cbn [foldl]; [done|].
  rewrite IH, reverse_cons, lookup_prop_app. cbn [fst snd].
  destruct (lookup_prop k (reverse b)); [done|].
  rewrite lookup_set_prop. cbn. by case_decide.
Qed.

Lemma lookup_prop_None (k : string) (ps : list (string * json)) :
  lookup_prop k ps = None ↔ k ∉ ps.*1.
Proof.
  induction ps as [|[k0 v0] ps IH]; cbn.
  - split; [intros _; apply not_elem_of_nil | done].
  - rewrite not_elem_of_cons. case_decide; [|tauto]. split; [done | tauto].
Qed.

Lemma lookup_prop_Some (k : string) (v : json) (ps : list (string * json)) :
  NoDup ps.*1 → lookup_prop k ps = Some v ↔ (k, v) ∈ ps.
Proof.
  induction ps as [|[k0 v0] ps IH]; cbn; intros Hnd.
  - split; [done | by intros ?%elem_of_nil].
  - apply NoDup_cons in Hnd as [Hk Hnd]. rewrite elem_of_cons. case_decide as Hd.
    + subst k0. split; [intros [= ->]; by left|].
      intros [[= ->]|Hin]; [done|]. destruct Hk. apply list_elem_of_fmap. by exists (k, v).
    + rewrite (IH Hnd). split; [tauto|]. intros [[= ? ?]|?]; [congruence | done].
Qed.

(** With every key once, the last value of a key is its only value. *)
Lemma lookup_prop_reverse (k : string) (ps : list (string * json)) :
  NoDup ps.*1 → lookup_prop k (reverse ps) = lookup_prop k ps.
Proof.
  intros Hnd. assert (NoDup (reverse ps).*1) as Hr.
  { by rewrite fmap_reverse, reverse_Permutation. }
  destruct (lookup_prop k ps) as [v|] eqn:H.
  - apply lookup_prop_Some in H; [|done]. apply lookup_prop_Some; [done|].
    by apply elem_of_reverse.
  - apply lookup_prop_None in H. apply lookup_prop_None.
    by rewrite fmap_reverse, elem_of_reverse.
Qed.

Lemma set_prop_keys (k : string) (v : json) (ps : list (string * json)) :
  (set_prop k v ps).*1 = if decide (k ∈ ps.*1) then ps.*1 else ps.*1 ++ [k].
Proof.
  induction ps as [|[k0 v0] ps IH]; cbn; [by rewrite decide_False by apply not_elem_of_nil|].
  destruct (decide (k = k0)) as [->|Hne]; cbn.
  - rewrite decide_True; [done | by left].
  - rewrite IH. destruct (decide (k ∈ ps.*1)) as [Hin|Hout].
    + rewrite decide_True; [done | by right].
    + rewrite decide_False; [done|]. by intros [?|?]%elem_of_cons.
Qed.

Lemma NoDup_set_prop (k : string) (v : json) (ps : list (string * json)) :
  NoDup ps.*1 → NoDup (set_prop k v ps).*1.
Proof.
  intros Hnd. rewrite set_prop_keys. case_decide; [done|].
  apply NoDup_app. split_and!; [done | | apply NoDup_singleton].
  intros x Hx ->%list_elem_of_singleton. done.
Qed.

(** An object that the spread builds has every key once. *)
Lemma NoDup_assign (a b : list (string * json)) : NoDup a.*1 → NoDup (assign a b).*1.
Proof.
  unfold assign. revert a. induction b as [|kv b IH]; intros a Ha; cbn [foldl]; [done|].
  by apply IH, NoDup_set_prop.
Qed.

Section Component.
Context (JSON_parse : string → option json).
Context (E : env).

Local Abbreviation mergedArgs := (mergedArgs JSON_parse).
Local Abbreviation parse_custom_props := (parse_custom_props JSON_parse).
Local Abbreviation parse_entry := (parse_entry JSON_parse).
Local Abbreviation custom_prop_value := (custom_prop_value JSON_parse).
Local Abbreviation custom_prop_values := (custom_prop_values JSON_parse).
Local Abbreviation input_effect := (input_effect JSON_parse E).
Local Abbreviation output_effect := (output_effect JSON_parse).
Local Abbreviation run_effects := (run_effects JSON_parse E).
Local Abbreviation animation_frame := (animation_frame).

(** *** The merged arguments *)

Lemma parse_entry_set (parsed : list (string * json)) (kv : string * string) :
  parse_entry parsed kv = set_prop kv.1 (custom_prop_value kv.2) parsed.
Proof.
  unfold Renderer.parse_entry, PayloadInvariants.custom_prop_value.
  destruct (_ || _); [|done]. by destruct (JSON_parse kv.2).
Qed.

Lemma parse_custom_props_assign (cp : option (list (string * string))) :
  parse_custom_props cp = assign [] (custom_prop_values (default [] cp)).
Proof.
  unfold Renderer.parse_custom_props, assign. generalize (@nil (string * json)).
  induction (default [] cp) as [|kv l IH]; intros acc; cbn [foldl fmap list_fmap]; [done|].
  unfold PayloadInvariants.custom_prop_values in *. cbn [fmap list_fmap foldl fst snd].
  by rewrite parse_entry_set, IH.
Qed.

Lemma custom_prop_values_keys (cp : list (string * string)) :
  (custom_prop_values cp).*1 = cp.*1.
Proof.
  unfold PayloadInvariants.custom_prop_values. rewrite <- list_fmap_compose.
  by apply list_fmap_ext.
Qed.

(** X5. The arguments sent to the widget are the tool input overlaid with
    the custom props: a key of the custom props has the value stored for the
    custom prop (parsed when it is a serialized array or object that parses,
    the raw string otherwise), also when the tool input has the same key;
    every other key has the value of the tool input. *)
Theorem mergedArgs_custom_props_win (p : props) (k : string) :
  NoDup (default [] (toolInput p)).*1 →
  NoDup (default [] (customProps p)).*1 →
  get k (mergedArgs p)
  = match lookup_prop k (custom_prop_values (default [] (customProps p))) with
    | Some v => Some v
    | None => lookup_prop k (default [] (toolInput p))
    end.
Proof.
  intros Hti Hcp. unfold Renderer.mergedArgs. cbn [get].
  rewrite parse_custom_props_assign.
  set (cpv := custom_prop_values (default [] (customProps p))).
  assert (NoDup cpv.*1) as Hcpv by (unfold cpv; by rewrite custom_prop_values_keys).
  rewrite lookup_assign.
  rewrite (lookup_prop_reverse _ (assign [] cpv)) by apply NoDup_assign, NoDup_nil_2.
  rewrite !lookup_assign, !lookup_prop_reverse by done. cbn [lookup_prop].
  destruct (lookup_prop k cpv); [done|].
  by destruct (lookup_prop k (default [] (toolInput p))).
Qed.

(** *** The tool-output push *)

(** X6. The tool-output effect is idempotent: run again with nothing
    changed, it sends nothing and changes nothing. *)
Theorem output_effect_idempotent (w : world) :
  output_effect (output_effect w) = output_effect w.
Proof.
  unfold Renderer.output_effect at 2 3.
  destruct (negb (bridgeRef (the_refs w)) || bool_decide (initCount w = 0%nat)) eqn:Hg.
  { unfold Renderer.output_effect. by rewrite Hg. }
  destruct (toolOutput (cur w)) as [output|] eqn:Ho.
  2: { unfold Renderer.output_effect. by rewrite Hg, Ho. }
  destruct (truthy output) eqn:Ht.
  2: { unfold Renderer.output_effect. by rewrite Hg, Ho, Ht. }
  destruct (bool_decide (lastSentToolOutputKeyRef (the_refs w)
              = Some (contentKey output (customProps (cur w))))) eqn:Hk.
  { unfold Renderer.output_effect. by rewrite Hg, Ho, Ht, Hk. }
  cbn zeta.
  set (w1 := upd_refs (set_output_key (contentKey output (customProps (cur w)))) w).
  assert (∀ c, output_effect (bridge_do ByEffect c w1) = bridge_do ByEffect c w1) as Hsent.
  { intros c. unfold Renderer.output_effect. cbn. rewrite Hg, Ho, Ht.
    by rewrite bool_decide_eq_true_2. }
  case_match; apply Hsent.
Qed.

(** X7. The key of the tool-output push looks at [structuredContent] alone
    when the result has one: a second result with the same structured content
    and the same custom props is not sent, whatever else differs in it (its
    [content], its [isError]). *)
Theorem output_same_structured_content_not_sent (w : world) (p' : props)
    (o1 o2 c : json) :
  toolOutput (cur w) = Some o1 →
  get "structuredContent" o1 = Some c →
  get "structuredContent" o2 = Some c →
  c ≠ JNull →
  bridgeRef (the_refs w) = true →
  initCount w ≠ 0%nat →
  toolOutput p' = Some o2 →
  customProps p' = customProps (cur w) →
  output_effect (set_cur p' (output_effect w)) = set_cur p' (output_effect w).
Proof.
  intros Ho1 Hc1 Hc2 Hc Hb Hn Ho2 Hcp.
  assert (truthy o1 = true) as Ht1 by (destruct o1; done).
  assert (truthy o2 = true) as Ht2 by (destruct o2; done).
  assert (contentKey o2 (customProps p') = contentKey o1 (customProps (cur w))) as Hkey.
  { unfold contentKey, structured_or_self. rewrite Hc1, Hc2, Hcp. by destruct c. }
  assert (lastSentToolOutputKeyRef (the_refs (output_effect w))
          = Some (contentKey o1 (customProps (cur w)))
          ∧ bridgeRef (the_refs (output_effect w)) = true
          ∧ initCount (output_effect w) = initCount w) as (Hk & Hb' & Hn').
  { unfold Renderer.output_effect. rewrite Hb, Ho1, Ht1. cbn [negb orb].
    rewrite bool_decide_eq_false_2 by done.
    destruct (bool_decide (lastSentToolOutputKeyRef (the_refs w) = _)) eqn:Hd.
    - apply bool_decide_eq_true in Hd. by rewrite Hb.
    - cbn zeta. by case_match. }
  unfold Renderer.output_effect at 1. cbn [the_refs set_cur initCount cur].
  rewrite Hb', Hn', Ho2, Ht2, Hkey, Hk. cbn [negb orb].
  rewrite bool_decide_eq_false_2 by done. by rewrite bool_decide_eq_true_2.
Qed.

(** X26. With custom props set, the result that goes to the widget has
    the parsed custom props as its [structuredContent], in place of what the
    tool returned there, and every other property of the result as the tool
    returned it. *)
Theorem custom_props_replace_structured_content (w : world)
    (result : list (string * json)) (cp : list (string * string)) :
  bridgeRef (the_refs w) = true →
  initCount w ≠ 0%nat →
  toolOutput (cur w) = Some (JObj result) →
  NoDup result.*1 →
  customProps (cur w) = Some cp →
  cp ≠ [] →
  lastSentToolOutputKeyRef (the_refs w) ≠ Some (contentKey (JObj result) (Some cp)) →
  ∃ sent,
    bridge_log (out (output_effect w))
    = bridge_log (out w) ++ [entry_at w ByEffect (SendToolResult sent)]
    ∧ get "structuredContent" sent = Some (JObj (parse_custom_props (Some cp)))
    ∧ ∀ k, k ≠ "structuredContent" → get k sent = lookup_prop k result.
Proof.
  intros Hb Hn Ho Hnd Hcp Hne Hk.
  exists (JObj (set_prop "structuredContent" (JObj (parse_custom_props (Some cp)))
                  (spread (JObj result)))).
  split; [|split].
  - unfold Renderer.output_effect. rewrite Hb, Ho, Hcp. cbn [negb orb truthy].
    rewrite bool_decide_eq_false_2 by done.
    rewrite (bool_decide_eq_false_2 _ Hk). cbn.
    rewrite Hcp. cbn [default].
    rewrite bool_decide_eq_true_2; [done|]. destruct cp; [done | cbn; lia].
  - cbn [get]. rewrite lookup_set_prop. by rewrite decide_True.
  - intros k Hks. cbn [get spread]. rewrite lookup_set_prop.
    rewrite decide_False by done. rewrite lookup_assign, lookup_prop_reverse by done.
    by destruct (lookup_prop k result).
Qed.

(** *** Streaming *)

(** X8. While partial tool input is set, a commit after [initCount] changed
    sends the partial arguments first and none of the calls of that commit
    is the complete tool input: that one is left to the animation frame, which
    sends the arguments as they were merged in the commit. *)
Theorem partial_input_precedes_full (w : world) (partial : list (string * json)) :
  bridgeRef (the_refs w) = true →
  initCount w ≠ 0%nat →
  partialToolInput (cur w) = Some partial →
  toolInputSentRef (the_refs w) ≠ Some (sentKey (toolCallId E) (initCount w)) →
  frames_tracked w →
  ∃ rest,
    bridge_log (out (run_effects true unchanged w))
    = bridge_log (out w)
      ++ entry_at w ByEffect (SendToolInputPartial (tool_input_params (JObj partial))) :: rest
    ∧ Forall (λ e, ¬ is_full_input e) rest
    ∧ bridge_log (out (animation_frame (run_effects true unchanged w)))
      = bridge_log (out (run_effects true unchanged w))
        ++ [entry_at w ByFrame (SendToolInput (tool_input_params (mergedArgs (cur w))))].
Proof.
  intros Hb Hn Hp Hk Hf.
  unfold Renderer.run_effects. cbn [orb].
  set (w1 := partial_effect w).
  assert (w1 = bridge_do ByEffect (SendToolInputPartial (tool_input_params (JObj partial))) w)
    as Hw1.
  { unfold w1, partial_effect. rewrite Hb, Hp. cbn [negb orb].
    by rewrite bool_decide_eq_false_2. }
  set (w2 := input_effect w1).
  assert (bridge_log (out w2) = bridge_log (out w1)
          ∧ frames (plat w2)
            = [{| frame_handle := next_handle (plat w);
                  frame_mergedArgs := mergedArgs (cur w);
                  frame_sentKey := sentKey (toolCallId E) (initCount w);
                  frame_propsKey := stringify (mergedArgs (cur w)) |}]
          ∧ same_lifecycle w w2 ∧ lastSentToolOutputKeyRef (the_refs w2)
                                  = lastSentToolOutputKeyRef (the_refs w)) as (Hl2 & Hf2 & Hs2 & Ho2).
  { assert (frames (plat (input_effect_cleanup w1)) = []) as Hnil.
    { rewrite Hw1. unfold input_effect_cleanup. cbn.
      destruct (inputCleanup w) as [h|] eqn:Hh; cbn.
      - apply filter_none. intros f Hin Hne. apply Hf in Hin. congruence.
      - destruct (frames (plat w)) as [|f fs] eqn:Hfs; [done|].
        assert (f ∈ frames (plat w)) as Hin by (rewrite Hfs; left).
        apply Hf in Hin. congruence. }
    unfold w2, Renderer.input_effect, input_effect_body.
    assert (∀ x, bridgeRef (the_refs (input_effect_cleanup x)) = bridgeRef (the_refs x)
                 ∧ initCount (input_effect_cleanup x) = initCount x
                 ∧ cur (input_effect_cleanup x) = cur x
                 ∧ the_refs (input_effect_cleanup x) = the_refs x
                 ∧ next_handle (plat (input_effect_cleanup x)) = next_handle (plat x)
                 ∧ bridge_log (out (input_effect_cleanup x)) = bridge_log (out x)
                 ∧ same_lifecycle x (input_effect_cleanup x)) as Hc.
    { intros x. unfold input_effect_cleanup. destruct (inputCleanup x); by repeat split. }
    destruct (Hc w1) as (C1 & C2 & C3 & C4 & C5 & C6 & C7).
    rewrite C1, C2, C3, C4. rewrite Hw1. cbn [bridge_do upd_out the_refs initCount cur].
    rewrite Hb, Hp. cbn [negb orb]. rewrite bool_decide_eq_false_2 by done.
    rewrite (bool_decide_eq_false_2 _ Hk). cbn [andb].
    rewrite <- Hw1. cbn. rewrite Hnil, C5, C6. rewrite Hw1. cbn.
    repeat split; try done.
    all: destruct C7 as (D1 & D2 & D3 & D4 & D5 & D6 & D7 & D8 & D9);
      rewrite Hw1 in *; cbn in *; congruence. }
  exists (drop (length (bridge_log (out w2))) (bridge_log (out (output_effect w2)))).
  assert (∃ rest, bridge_log (out (output_effect w2)) = bridge_log (out w2) ++ rest
                  ∧ Forall (λ e, ¬ is_full_input e) rest
                  ∧ frames (plat (output_effect w2)) = frames (plat w2)
                  ∧ now (output_effect w2) = now w2) as (rest & Hl3 & Hr3 & Hf3 & Hn3).
  { unfold Renderer.output_effect.
    repeat case_match;
      try (exists []; rewrite app_nil_r; by repeat split);
      (eexists [_]; repeat split; apply Forall_singleton; by intros [? ?]). }
  rewrite Hl3, drop_app_length. split_and!.
  - rewrite Hl2, Hw1. cbn. by rewrite <- app_assoc.
  - done.
  - unfold animation_frame. rewrite Hf3, Hf2. cbn [foldl]. unfold run_frame. cbn.
    rewrite Hl3. do 3 f_equal. unfold entry_at. f_equal.
    change (clock (plat (output_effect w2))) with (now (output_effect w2)).
    rewrite Hn3. destruct Hs2 as (_&_&_&_&_&_&_&Hclock&_). exact Hclock.
Qed.

End Component.
End PayloadFacts.

(** ** The renderer: before the first announcement *)

Module StartFacts.
Import Json Renderer RendererInvariants RendererFacts StartInvariants.

Section Component.
Context (JSON_parse : string → option json).
Context (URL_origin : string → option string).
Context (E : env).

Local Abbreviation handleMessage := (handleMessage JSON_parse URL_origin E).
Local Abbreviation handle := (handle JSON_parse URL_origin E).
Local Abbreviation step := (step JSON_parse URL_origin E).
Local Abbreviation run := (run JSON_parse URL_origin E).
Local Abbreviation oninitialized := (oninitialized JSON_parse E).
Local Abbreviation run_effects := (run_effects JSON_parse E).
Local Abbreviation input_effect := (input_effect JSON_parse E).
Local Abbreviation output_effect := (output_effect JSON_parse).
Local Abbreviation resend_callback := (resend_callback JSON_parse).
Local Abbreviation advance := (advance JSON_parse).
Local Abbreviation fire_due := (fire_due JSON_parse).
Local Abbreviation fire := (fire JSON_parse).
Local Abbreviation render := (render JSON_parse E).

(** *** Every step goes onward *)

Lemma onward_refl (w : world) : onward w w.
Proof. by split. Qed.

Lemma onward_trans (w1 w2 w3 : world) : onward w1 w2 → onward w2 w3 → onward w1 w3.
Proof. intros [A1 A2] [B1 B2]. split; [lia | auto]. Qed.

Lemma same_lifecycle_onward (w w' : world) : same_lifecycle w w' → onward w w'.
Proof. intros (H1&_&_&_&_&_&H7&_). split; [lia | congruence]. Qed.

Lemma oninitialized_onward (w : world) : onward w (oninitialized w).
Proof.
  unfold Renderer.oninitialized. case_match; [by split|].
  eapply onward_trans; [|apply same_lifecycle_onward, run_effects_lifecycle].
  split; cbn; [lia | done].
Qed.

Lemma handleMessage_onward (ev : MessageEvent) (w : world) : onward w (handleMessage ev w).
Proof.
  unfold Renderer.handleMessage, transport_onmessage.
  repeat case_match; try apply onward_refl; try by split.
  eapply onward_trans; [|apply oninitialized_onward]. by split.
Qed.

Lemma teardown_settled_onward (w : world) : onward w (teardown_settled w).
Proof. unfold teardown_settled. case_match; by split. Qed.

Lemma fire_due_onward (fuel : nat) (t : Z) (w : world) : onward w (fire_due fuel t w).
Proof.
  revert w. induction fuel as [|fuel IH]; intros w; [apply onward_refl|].
  cbn [Renderer.fire_due]. case_match; [|apply onward_refl].
  eapply onward_trans; [|apply IH].
  destruct (timer_callback_of _); cbn [Renderer.fire].
  - eapply onward_trans; [|apply same_lifecycle_onward, resend_callback_lifecycle]. by split.
  - eapply onward_trans; [|apply teardown_settled_onward]. by split.
Qed.

Lemma advance_onward (t : Z) (w : world) : onward w (advance t w).
Proof.
  unfold Renderer.advance. cbn zeta.
  eapply onward_trans; [apply (fire_due_onward (length (timers (plat w))) t)|].
  split; cbn; [lia | done].
Qed.

Lemma animation_frame_onward (w : world) : onward w (animation_frame w).
Proof.
  unfold animation_frame.
  assert (onward w (upd_plat (set_frames []) w)) as H by by split.
  revert H. generalize (upd_plat (set_frames []) w).
  induction (frames (plat w)) as [|f fs IH]; intros w0 H; [done|].
  cbn [foldl]. apply IH. eapply onward_trans; [exact H|]. by split.
Qed.

Lemma handle_onward (e : event) (w : world) : onward w (handle e w).
Proof.
  destruct e as [ev|p ch| |b| |m sandbox]; cbn [Renderer.handle].
  - case_match; [apply handleMessage_onward | apply onward_refl].
  - case_match; try apply onward_refl. unfold Renderer.render.
    eapply onward_trans; [|apply same_lifecycle_onward, run_effects_lifecycle]. by split.
  - apply animation_frame_onward.
  - apply teardown_settled_onward.
  - case_match; try apply onward_refl.
    unfold unmount, input_effect_cleanup, cleanup, cleanup_teardown, cleanup_cancel_resend.
    case_match; split; cbn; done || lia.
  - by destruct sandbox.
Qed.

Lemma step_onward (w : world) (te : Z * event) : onward w (step w te).
Proof.
  unfold Renderer.step. eapply onward_trans; [apply advance_onward | apply handle_onward].
Qed.

Lemma run_onward (sched : list (Z * event)) (w : world) : onward w (run sched w).
Proof.
  revert w. induction sched as [|te sched IH]; intros w; [apply onward_refl|].
  change (run (te :: sched) w) with (run sched (step w te)).
  eapply onward_trans; [apply step_onward | apply IH].
Qed.

(** *** Before the first counted announcement *)

Lemma run_effects_unannounced (b : bool) (ch : changed) (w : world) :
  initCount w = 0%nat → frames (plat w) = [] →
  bridge_log (out (run_effects b ch w)) = bridge_log (out w)
  ∧ frames (plat (run_effects b ch w)) = [].
Proof.
  intros Hn Hf.
  assert (∀ x, initCount x = 0%nat →
            negb (bridgeRef (the_refs x)) || bool_decide (initCount x = 0%nat) = true) as Hg.
  { intros x Hx. rewrite (bool_decide_eq_true_2 _ Hx). apply orb_true_r. }
  assert (partial_effect w = w) as Hp by (unfold partial_effect; by rewrite Hg).
  assert (∀ x, initCount x = 0%nat → output_effect x = x) as Ho.
  { intros x Hx. unfold Renderer.output_effect. by rewrite Hg. }
  assert (initCount (input_effect w) = 0%nat ∧ frames (plat (input_effect w)) = []
          ∧ bridge_log (out (input_effect w)) = bridge_log (out w)) as (Hi1 & Hi2 & Hi3).
  { unfold Renderer.input_effect, input_effect_body.
    assert (initCount (input_effect_cleanup w) = 0%nat
            ∧ frames (plat (input_effect_cleanup w)) = []
            ∧ bridge_log (out (input_effect_cleanup w)) = bridge_log (out w)) as (C1 & C2 & C3).
    { unfold input_effect_cleanup. destruct (inputCleanup w); cbn; by rewrite ?Hf. }
    by rewrite (Hg _ C1). }
  unfold Renderer.run_effects. rewrite Hp.
  repeat case_match; rewrite ?Ho; done.
Qed.

(** One step of a quiet unannounced widget leaves it quiet, unless the
    step counts an announcement or unmounts. *)
Lemma step_quiet (base : list bridge_entry) (w : world) (te : Z * event) :
  unannounced w → quiet base w → unannounced (step w te) → quiet base (step w te).
Proof.
  intros [Hp Hn] (Hl & Ht & Hf & Hb) [Hp' Hn']. destruct te as [t e].
  unfold Renderer.step in *. cbn [fst snd] in *.
  rewrite (advance_no_timers _ _ _ Ht) in *.
  set (w1 := upd_plat (set_clock (Z.max (now w) t)) w) in *.
  assert (unannounced w1 ∧ quiet base w1) as [[Hp1 Hn1] (Hl1 & Ht1 & Hf1 & Hb1)] by done.
  clearbody w1. clear Hp Hn Hl Ht Hf Hb w.
  destruct e as [ev|p ch| |b| |m sandbox]; cbn [Renderer.handle] in *.
  - destruct (listening w1); [|done].
    unfold Renderer.handleMessage, transport_onmessage in *.
    repeat case_match; try done.
    exfalso. rewrite oninitialized_genuine in Hn' by (left; cbn; lia).
    match type of Hn' with initCount (Renderer.run_effects _ _ ?b ?c ?x) = _ =>
      destruct (run_effects_lifecycle JSON_parse E b c x) as (Hcount & _) end.
    rewrite Hcount in Hn'. cbn in Hn'. lia.
  - rewrite Hp1 in *. unfold Renderer.render in *.
    destruct (run_effects_unannounced false ch (set_cur p w1)) as [R1 R2]; [done..|].
    pose proof (run_effects_lifecycle JSON_parse E false ch (set_cur p w1))
      as (_&_&L3&_&_&_&_&_&L9).
    by repeat split; rewrite ?R1, ?R2, ?L3, ?L9.
  - unfold animation_frame. rewrite Hf1. by repeat split.
  - unfold teardown_settled. by rewrite Hp1.
  - rewrite Hp1 in Hp'. unfold unmount, input_effect_cleanup in Hp'.
    destruct (inputCleanup (cleanup w1)); discriminate Hp'.
  - by destruct sandbox.
Qed.

Lemma run_quiet (base : list bridge_entry) (sched : list (Z * event)) (w : world) :
  unannounced w → quiet base w → unannounced (run sched w) → quiet base (run sched w).
Proof.
  revert w. induction sched as [|te sched IH]; intros w Hu Hq Hu'; [done|].
  change (run (te :: sched) w) with (run sched (step w te)) in *.
  assert (unannounced (step w te)) as Hs.
  { destruct (run_onward sched (step w te)) as [O1 O2]. destruct Hu' as [P N].
    split; [auto | lia]. }
  apply IH; [done | by apply step_quiet | done].
Qed.

(** X9. While [initCount] is 0 nothing is pushed to the guest. From any
    state in which the bridge effect is mounted, [initCount] is 0, no
    announcement was counted and no timer or animation frame is pending (the
    state at the mount is one, whatever the refs hold of earlier sends), and
    for as long as the bridge effect stays mounted with [initCount] at 0:
    whatever messages, renders, animation frames and sends of the bridge
    there were, no call was made on the bridge and no timer or animation
    frame is pending. The commit in which a bridge is created again while
    [initCount] still holds the count of the bridge before it is not such a
    state. *)
Theorem nothing_pushed_before_initialized (sched : list (Z * event)) (w : world) :
  the_phase w = Mounted →
  initCount w = 0%nat →
  lastInitTimeRef (the_refs w) = 0 →
  timers (plat w) = [] →
  frames (plat w) = [] →
  the_phase (run sched w) = Mounted →
  initCount (run sched w) = 0%nat →
  bridge_log (out (run sched w)) = bridge_log (out w)
  ∧ timers (plat (run sched w)) = []
  ∧ frames (plat (run sched w)) = [].
Proof.
  intros Hp Hn Hl Ht Hf Hp' Hn'.
  destruct (run_quiet (bridge_log (out w)) sched w) as (_ & Ht' & Hf' & Hb'); by repeat split.
Qed.

End Component.
End StartFacts.

(** ** The suggested fix, exactly *)

Module FixFacts.
Import JS JSFacts SuggestedFix SuggestedFixInvariants SuggestedFixFacts FixInvariants.


Lemma elem_of_connect_add (o x : string) (s : list string) :
  x ∈ connect_add o s ↔ x ∈ s ∨ x ∈ connect_add o [].
Proof.
  unfold connect_add. repeat case_match; rewrite ?elem_of_set_add, ?elem_of_nil; tauto.
Qed.

Section WithURL.
Context (URL_origin : string → option string).

Local Abbreviation visit := (visit URL_origin).
Local Abbreviation computeSuggestedFix := (computeSuggestedFix URL_origin).
Local Abbreviation blocked_origin := (blocked_origin URL_origin).
Local Abbreviation blocked_by := (blocked_by URL_origin).

(** One iteration, by the origin it works with. *)
Lemma visit_blocked_origin (st : sets) (v : CspViolation) :
  visit st v
  = match blocked_origin v with
    | None => st
    | Some o =>
        if decide (violation_dir v = CONNECT_DIRECTIVE) then
          {| connectSet := connect_add o (connectSet st);
             resourceSet := resourceSet st; frameSet := frameSet st |}
        else if decide (violation_dir v ∈ RESOURCE_DIRECTIVES) then
          {| connectSet := connectSet st;
             resourceSet := set_add o (resourceSet st); frameSet := frameSet st |}
        else if decide (violation_dir v = FRAME_DIRECTIVE) then
          {| connectSet := connectSet st; resourceSet := resourceSet st;
             frameSet := set_add o (frameSet st) |}
        else st
    end.
Proof.
  unfold SuggestedFix.visit, FixInvariants.blocked_origin.
  destruct (skipped_uri (violation_uri v)); [done|].
  destruct (URL_origin (violation_uri v)) as [o|]; [|done].
  by destruct (truthy_string o).
Qed.

Lemma CONNECT_not_RESOURCE : CONNECT_DIRECTIVE ∉ RESOURCE_DIRECTIVES.
Proof.
  unfold CONNECT_DIRECTIVE, RESOURCE_DIRECTIVES. rewrite !not_elem_of_cons.
  split_and!; done || apply not_elem_of_nil.
Qed.

Lemma FRAME_not_RESOURCE : FRAME_DIRECTIVE ∉ RESOURCE_DIRECTIVES.
Proof.
  unfold FRAME_DIRECTIVE, RESOURCE_DIRECTIVES. rewrite !not_elem_of_cons.
  split_and!; done || apply not_elem_of_nil.
Qed.

(** What one iteration leaves in the three sets. *)
Lemma visit_elem (st : sets) (v : CspViolation) (x : string) :
  (x ∈ connectSet (visit st v)
   ↔ x ∈ connectSet st
     ∨ ∃ o, blocked_origin v = Some o ∧ violation_dir v = CONNECT_DIRECTIVE
            ∧ x ∈ connect_add o [])
  ∧ (x ∈ resourceSet (visit st v)
     ↔ x ∈ resourceSet st
       ∨ ∃ o, blocked_origin v = Some o ∧ violation_dir v ∈ RESOURCE_DIRECTIVES ∧ x = o)
  ∧ (x ∈ frameSet (visit st v)
     ↔ x ∈ frameSet st
       ∨ ∃ o, blocked_origin v = Some o ∧ violation_dir v = FRAME_DIRECTIVE ∧ x = o).
Proof.
  rewrite visit_blocked_origin.
  pose proof CONNECT_not_RESOURCE as Hcr. pose proof FRAME_not_RESOURCE as Hfr.
  assert (FRAME_DIRECTIVE ≠ CONNECT_DIRECTIVE) as Hfc by done.
  destruct (blocked_origin v) as [o|] eqn:Ho.
  2: { split_and!; (split; [by left | by intros [?|(?&?&_)]]). }
  destruct (decide (violation_dir v = CONNECT_DIRECTIVE)) as [Hd|Hd].
  { cbn [connectSet resourceSet frameSet]. rewrite elem_of_connect_add, Hd. split_and!.
    - split; [intros [?|?]; [by left | right; by exists o] | intros [?|(o'&[= <-]&_&?)]; auto].
    - split; [by left | intros [?|(?&_&?&_)]; done].
    - split; [by left | intros [?|(?&_&?&_)]; done]. }
  destruct (decide (violation_dir v ∈ RESOURCE_DIRECTIVES)) as [Hr|Hr].
  { cbn [connectSet resourceSet frameSet]. rewrite elem_of_set_add. split_and!.
    - split; [by left | intros [?|(?&_&?&_)]; done].
    - split; [intros [->|?]; [right; by exists o | by left]
             | intros [?|(o'&[= <-]&_&?)]; auto].
    - split; [by left | intros [?|(?&_&Hf&_)]; [done|]]. rewrite Hf in Hr. done. }
  destruct (decide (violation_dir v = FRAME_DIRECTIVE)) as [Hf|Hf].
  { cbn [connectSet resourceSet frameSet]. rewrite elem_of_set_add. split_and!.
    - split; [by left | intros [?|(?&_&?&_)]; done].
    - split; [by left | intros [?|(?&_&?&_)]; done].
    - split; [intros [->|?]; [right; by exists o | by left]
             | intros [?|(o'&[= <-]&_&?)]; auto]. }
  split_and!; (split; [by left | intros [?|(?&_&?&_)]; done]).
Qed.

(** What the loop leaves in them. *)
Lemma foldl_visit_elem (vs : list CspViolation) (st : sets) (x : string) :
  (x ∈ connectSet (foldl visit st vs)
   ↔ x ∈ connectSet st
     ∨ blocked_by vs (λ d, d = CONNECT_DIRECTIVE) (λ o, x ∈ connect_add o []))
  ∧ (x ∈ resourceSet (foldl visit st vs)
     ↔ x ∈ resourceSet st ∨ blocked_by vs (λ d, d ∈ RESOURCE_DIRECTIVES) (λ o, x = o))
  ∧ (x ∈ frameSet (foldl visit st vs)
     ↔ x ∈ frameSet st ∨ blocked_by vs (λ d, d = FRAME_DIRECTIVE) (λ o, x = o)).
Proof.
  revert st. induction vs as [|v vs IH]; intros st; cbn [foldl].
  { unfold FixInvariants.blocked_by.
    split_and!; (split; [by left | intros [?|(?&?&?%elem_of_nil&_)]; done]). }
  destruct (IH (visit st v)) as (I1 & I2 & I3). rewrite I1, I2, I3. clear IH I1 I2 I3.
  assert (∀ dir adds, blocked_by (v :: vs) dir adds
            ↔ (∃ o, blocked_origin v = Some o ∧ dir (violation_dir v) ∧ adds o)
              ∨ blocked_by vs dir adds) as Hcons.
  { intros dir adds. unfold FixInvariants.blocked_by. split.
    - intros (v0 & o & [->|Hin]%elem_of_cons & H1 & H2 & H3); [left|right]; eauto 10.
    - intros [(o & H1 & H2 & H3)|(v0 & o & Hin & H1 & H2 & H3)].
      + exists v, o. split; [by left | done].
      + exists v0, o. split; [by right | done]. }
  rewrite !Hcons. destruct (visit_elem st v x) as (-> & -> & ->). tauto.
Qed.


Lemma sort_Permutation (l1 l2 : list string) : l1 ≡ₚ l2 → sort l1 = sort l2.
Proof.
  intros Hp. unfold sort. apply (Sorted_unique String.le).
  - apply (Sorted_merge_sort _).
  - apply (Sorted_merge_sort _).
  - by rewrite !merge_sort_Permutation.
Qed.

(** X11. The suggested fix does not depend on the order of the violations
    nor on how often one is reported: two lists with the same violations give
    the same fix. *)
Theorem computeSuggestedFix_order_free (vs1 vs2 : list CspViolation)
    (declared : option Csp.WidgetDeclaredCsp) :
  (∀ v, v ∈ vs1 ↔ v ∈ vs2) →
  computeSuggestedFix vs1 declared = computeSuggestedFix vs2 declared.
Proof.
  intros Hsame.
  assert (∀ dir adds, blocked_by vs1 dir adds ↔ blocked_by vs2 dir adds) as Hb.
  { intros dir adds. unfold FixInvariants.blocked_by.
    split; intros (v & o & Hin & H); exists v, o; (split; [by apply Hsame | done]). }
  destruct (foldl_visit_NoDup URL_origin vs1 (initial_sets declared)
              (initial_sets_NoDup declared)) as (N1 & N2 & N3).
  destruct (foldl_visit_NoDup URL_origin vs2 (initial_sets declared)
              (initial_sets_NoDup declared)) as (M1 & M2 & M3).
  assert (connectSet (foldl visit (initial_sets declared) vs1)
            ≡ₚ connectSet (foldl visit (initial_sets declared) vs2)) as P1.
  { apply NoDup_Permutation; [done..|]. intros x.
    destruct (foldl_visit_elem vs1 (initial_sets declared) x) as (-> & _ & _).
    destruct (foldl_visit_elem vs2 (initial_sets declared) x) as (-> & _ & _).
    by rewrite Hb. }
  assert (resourceSet (foldl visit (initial_sets declared) vs1)
            ≡ₚ resourceSet (foldl visit (initial_sets declared) vs2)) as P2.
  { apply NoDup_Permutation; [done..|]. intros x.
    destruct (foldl_visit_elem vs1 (initial_sets declared) x) as (_ & -> & _).
    destruct (foldl_visit_elem vs2 (initial_sets declared) x) as (_ & -> & _).
    by rewrite Hb. }
  assert (frameSet (foldl visit (initial_sets declared) vs1)
            ≡ₚ frameSet (foldl visit (initial_sets declared) vs2)) as P3.
  { apply NoDup_Permutation; [done..|]. intros x.
    destruct (foldl_visit_elem vs1 (initial_sets declared) x) as (_ & _ & ->).
    destruct (foldl_visit_elem vs2 (initial_sets declared) x) as (_ & _ & ->).
    by rewrite Hb. }
  unfold SuggestedFix.computeSuggestedFix.
  rewrite (sort_Permutation _ _ P1), (sort_Permutation _ _ P2), (sort_Permutation _ _ P3).
  f_equal. rewrite (Permutation_length P3). done.
Qed.

End WithURL.
End FixFacts.

(** ** The policy of a sanitized declaration and of a fix *)

Module PolicyFacts.
Import JS JSFacts Csp CspInvariants CspFacts SuggestedFix SuggestedFixInvariants SuggestedFixFacts.
Import FixInvariants FixFacts PolicyInvariants.

Lemma remove_class_id (cls : ascii → bool) (s : string) :
  (∀ c, cls c = true → c ∉ chars s) → remove_class cls s = s.
Proof.
  induction s as [|x s IH]; cbn; intros H; [done|].
  destruct (cls x) eqn:Hx.
  - destruct (H x Hx). left.
  - rewrite IH; [done|]. intros c Hc Hin. apply (H c Hc). by right.
Qed.

Lemma sanitize_sanitize (d : string) : sanitize (sanitize d) = sanitize d.
Proof.
  unfold sanitize at 1. rewrite remove_class_id by (intros c; apply sanitize_free).
  unfold sanitize. apply trim_idem.
Qed.

Lemma domains_already_clean (declared : option (list string)) :
  Forall already_clean (domains declared).
Proof.
  apply Forall_forall. intros t [Hne (d & Hd & ->)]%domains_elem.
  split; [done | apply sanitize_sanitize].
Qed.

Lemma domains_domains (declared : option (list string)) :
  domains (Some (domains declared)) = domains declared.
Proof. apply domains_clean, domains_already_clean. Qed.

(** X23. Sanitizing is idempotent: a token that came out of it goes
    through it unchanged, so a declaration that lists the tokens of a policy
    gets that same policy. *)
Theorem buildCSPString_of_sanitized (csp : WidgetDeclaredCsp) :
  (∀ d, sanitize (sanitize d) = sanitize d)
  ∧ buildCSPString (sanitized csp) = buildCSPString csp.
Proof.
  split; [apply sanitize_sanitize|].
  unfold buildCSPString, directives, connectSrc, resourceSrc, frameSrc, baseUri, sanitized.
  cbn [connectDomains resourceDomains frameDomains baseUriDomains].
  by rewrite !domains_domains.
Qed.

Section WithURL.
Context (URL_origin : string → option string).

Local Abbreviation computeSuggestedFix := (computeSuggestedFix URL_origin).
Local Abbreviation blocked_origin := (blocked_origin URL_origin).
Local Abbreviation visit := (visit URL_origin).

Lemma blocked_connect_in_fix (violations : list CspViolation)
    (declared : option WidgetDeclaredCsp) (v : CspViolation) (o : string) :
  v ∈ violations → blocked_origin v = Some o → violation_dir v = CONNECT_DIRECTIVE →
  o ∈ fixConnectDomains (computeSuggestedFix violations declared).
Proof.
  intros Hin Ho Hd.
  destruct (foldl_visit_NoDup URL_origin violations (initial_sets declared)
              (initial_sets_NoDup declared)) as (N1 & _ & _).
  destruct (sort_spec _ N1) as (_ & _ & C3).
  unfold SuggestedFix.computeSuggestedFix. cbn [fixConnectDomains]. apply C3.
  destruct (foldl_visit_elem URL_origin violations (initial_sets declared) o) as (-> & _ & _).
  right. exists v, o. split_and!; [done..|]. apply elem_of_connect_add_origin.
Qed.

(** X24. Declaring the suggested fix unblocks the request: when the
    connect domains of a declaration are those of the fix, the connect-src
    directive of the policy built from it lists the origin of every blocked
    connect-src request of the violations, as long as sanitizing leaves that
    origin as it is. *)
Theorem suggested_fix_unblocks (violations : list CspViolation)
    (declared : option WidgetDeclaredCsp) (csp : WidgetDeclaredCsp)
    (v : CspViolation) (o : string) :
  connectDomains csp = Some (fixConnectDomains (computeSuggestedFix violations declared)) →
  v ∈ violations →
  blocked_origin v = Some o →
  violation_dir v = CONNECT_DIRECTIVE →
  sanitize o = o →
  ∃ tokens, policy_directive "connect-src" (buildCSPString csp) = Some (join " " tokens)
            ∧ o ∈ tokens.
Proof.
  intros Hcsp Hin Ho Hd Hclean.
  assert (o ≠ "") as Hne.
  { unfold FixInvariants.blocked_origin in Ho.
    destruct (skipped_uri _); [done|]. destruct (URL_origin _) as [o'|]; [|done].
    destruct (truthy_string o') eqn:Ht; [|done]. injection Ho as ->. by destruct o. }
  assert (o ∈ domains (connectDomains csp)) as Htok.
  { rewrite Hcsp. apply domains_elem. split; [done|]. exists o. split; [|done].
    cbn [default]. by eapply blocked_connect_in_fix. }
  exists (domains (connectDomains csp)). split; [|done].
  rewrite connect_src_directive. unfold source_list.
  destruct (domains (connectDomains csp)); [by apply elem_of_nil in Htok | done].
Qed.

End WithURL.
End PolicyFacts.

(** ** The prompt for agents, line by line *)

Module PromptFacts.
Import JS JSFacts Json SuggestedFix AgentPrompt AgentPromptFacts.

Lemma last_app_cons {A} (l1 l2 : list A) (x : A) : last (l1 ++ l2 ++ [x]) = Some x.
Proof. by rewrite app_assoc, last_snoc. Qed.

Lemma last_fix_lines (f : option SuggestedFixResult) (before : list string) :
  last (before ++ fix_lines f)
  = Some (match f with
          | Some _ => "```"
          | None => "No blocked requests - no fix needed."
          end).
Proof.
  destruct f as [f|]; unfold fix_lines.
  - match goal with |- last (before ++ [?a; ?b; ?c; ?d; ?e; ?x]) = _ =>
      change [a; b; c; d; e; x] with ([a; b; c; d; e] ++ [x]) end.
    by rewrite last_app_cons.
  - by rewrite last_snoc.
Qed.

(** X22. The prompt for agents is a list of lines joined by newlines that
    holds one line for every recorded violation. In the permissive mode, and
    when there is no violation, its last line says that there are no blocked
    requests and nothing to fix, also when blocked requests are listed above
    it; only in the widget-declared mode with a violation does it end with
    the fix. *)
Theorem prompt_lists_blocked_requests (URL_origin : string → option string)
    (cspMode : CspMode) (w : WidgetDebug) :
  ∃ lines,
    agentPrompt URL_origin cspMode w = join newline lines
    ∧ (∀ v, v ∈ cspViolations w → violation_line v ∈ lines)
    ∧ (cspMode = Permissive ∨ cspViolations w = []
       → last lines = Some "No blocked requests - no fix needed.")
    ∧ (cspMode = WidgetDeclared ∧ cspViolations w ≠ [] → last lines = Some "```").
Proof.
  unfold agentPrompt. rewrite prompt_guard_true. unfold buildAgentCspPrompt.
  eexists. split; [reflexivity|]. split; [|split].
  - intros v Hv. rewrite !elem_of_app. do 4 right. left.
    unfold violation_lines. rewrite decide_True.
    2: { destruct (cspViolations w); [by apply elem_of_nil in Hv | cbn; lia]. }
    right. rewrite elem_of_app. left. apply list_elem_of_fmap. by exists v.
  - intros Hnone. rewrite !app_assoc, last_fix_lines.
    assert (suggestedFix URL_origin cspMode w = None) as ->; [|done].
    unfold suggestedFix. destruct Hnone as [->|Hnil]; [done|].
    rewrite Hnil. by destruct cspMode.
  - intros [-> Hne]. rewrite !app_assoc, last_fix_lines.
    unfold suggestedFix. rewrite decide_True; [done|].
    destruct (cspViolations w); [done | cbn; lia].
Qed.

End PromptFacts.

(** ** The declaration of the widget *)

Module WidgetMetaFacts.
Import JS Json Csp WidgetMeta WidgetMetaInvariants PayloadFacts.

(** *** Listing and content item *)

Lemma lookup_assign_nil (k : string) (ps : list (string * json)) :
  NoDup ps.*1 → lookup_prop k (assign [] ps) = lookup_prop k ps.
Proof.
  intros Hnd. rewrite lookup_assign, lookup_prop_reverse by done.
  by destruct (lookup_prop k ps).
Qed.

Lemma mergedUiMeta_get (k : string) (listing content : option (list (string * json))) :
  NoDup (default [] listing).*1 → NoDup (default [] content).*1 →
  get_opt k (mergedUiMeta (JObj <$> listing) (JObj <$> content)) = overlaid k listing content.
Proof.
  intros Hl Hc. unfold overlaid, mergedUiMeta.
  destruct listing as [l|], content as [c|]; cbn in *.
  - rewrite lookup_assign.
    rewrite (lookup_prop_reverse _ (assign [] c)) by apply NoDup_assign, NoDup_nil_2.
    rewrite !lookup_assign_nil by (done || apply NoDup_assign, NoDup_nil_2).
    by destruct (lookup_prop k c).
  - rewrite !lookup_assign_nil by (done || apply NoDup_assign, NoDup_nil_2). done.
  - rewrite lookup_assign.
    rewrite (lookup_prop_reverse _ (assign [] c)) by apply NoDup_assign, NoDup_nil_2.
    rewrite lookup_assign_nil by done. by destruct (lookup_prop k c).
  - done.
Qed.

(** X12. Metadata of the content item wins over metadata of the listing,
    key by key, and a CSP declared there wins over the [openai/widgetCSP] of
    the tool: when the overlaid [csp] is truthy it is the declaration that is
    stored, whatever the tool metadata holds. *)
Theorem modern_csp_precedence (listing content : option (list (string * json)))
    (toolMetadata : option json) (v : json) :
  NoDup (default [] listing).*1 →
  NoDup (default [] content).*1 →
  overlaid "csp" listing content = Some v →
  truthy v = true →
  mcpAppsCsp (mergedUiMeta (JObj <$> listing) (JObj <$> content)) toolMetadata = Some v.
Proof.
  intros Hl Hc Hv Ht. unfold mcpAppsCsp.
  rewrite (mergedUiMeta_get "csp") by done. rewrite Hv. cbn [truthy_opt]. by rewrite Ht.
Qed.

(** *** The translation of [openai/widgetCSP] *)

Lemma lookup_copy_array (k : string) (wcsp : json) (snake camel : string)
    (fallback : list (string * json)) :
  lookup_prop k (copy_array wcsp snake camel fallback)
  = if decide (k = camel)
    then match array_of (get snake wcsp) with
         | Some a => Some a
         | None => lookup_prop k fallback
         end
    else lookup_prop k fallback.
Proof.
  unfold copy_array, array_of.
  destruct (get snake wcsp) as [[]|]; try by case_decide; subst.
  by rewrite lookup_set_prop.
Qed.

Lemma legacy_fallback_get (wcsp : json) (camel : string) :
  get camel (JObj (legacy_fallback wcsp))
  = snake_name camel ≫= λ snake, array_of (get snake wcsp).
Proof.
  cbn [get]. unfold legacy_fallback. cbn zeta. rewrite !lookup_copy_array.
  unfold snake_name. cbn [lookup_prop].
  repeat case_decide; subst; try discriminate; cbn [mbind option_bind];
    try done; by destruct (array_of _).
Qed.

(** X13. The object translated from [openai/widgetCSP] has, under each of
    the five camelCase names, the value of the snake_case name when that
    value is an array, and nothing else: a value that is not an array is
    dropped, and so is every other property. The object is empty, and then
    not used, exactly when none of the five values is an array. *)
Theorem legacy_fallback_exact (wcsp : json) :
  (∀ camel, get camel (JObj (legacy_fallback wcsp))
            = snake_name camel ≫= λ snake, array_of (get snake wcsp))
  ∧ (legacy_fallback wcsp = []
     ↔ ∀ camel snake, snake_name camel = Some snake → array_of (get snake wcsp) = None).
Proof.
  split; [apply legacy_fallback_get|]. split.
  - intros Hnil camel snake Hs. pose proof (legacy_fallback_get wcsp camel) as H.
    rewrite Hnil, Hs in H. cbn in H. done.
  - intros Hnone. destruct (legacy_fallback wcsp) as [|[k v] fb] eqn:Hfb; [done|].
    pose proof (legacy_fallback_get wcsp k) as H. rewrite Hfb in H. cbn in H.
    rewrite decide_True in H by done.
    destruct (snake_name k) as [s|] eqn:Hs; [|done].
    cbn in H. by rewrite (Hnone k s Hs) in H.
Qed.

(** *** From the declaration to the policy *)




End WidgetMetaFacts.

(** ** Display mode and size *)

Module DisplayFacts.
Import Display DisplayInvariants.

Section Numbers.
Context {number : Type}.
Context (plus : number → number → number).
Context (number_to_string : number → string).

Local Abbreviation view := (view (number := number)).
Local Abbreviation event := (event (number := number)).
Local Abbreviation step := (step plus number_to_string).
Local Abbreviation run := (run plus number_to_string).
Local Abbreviation onsizechange := (onsizechange plus number_to_string).
Local Abbreviation iframeStyle := (iframeStyle number_to_string).
Local Abbreviation px := (px number_to_string).
Local Abbreviation mode_changes := (mode_changes plus number_to_string).

Lemma display_run_cons (e : event) (tr : list event) (s : view) :
  run (e :: tr) s = run tr (step s e).
Proof. done. Qed.

Lemma display_run_app (tr1 tr2 : list event) (s : view) :
  run (tr1 ++ tr2) s = run tr2 (run tr1 s).
Proof. unfold Display.run. by rewrite foldl_app. Qed.

(** *** The remembered height *)

Lemma set_mode_height (m : DisplayMode) (s : view) :
  inlineHeight (set_mode m s) = inlineHeight s.
Proof. unfold set_mode. by case_match. Qed.

Lemma step_height (s : view) (e : event) :
  ¬ is_size_change e → inlineHeight (step s e) = inlineHeight s.
Proof.
  intros He. destruct e as [w h st|m|m|ok|b|m]; cbn [Display.step].
  - by destruct He.
  - apply set_mode_height.
  - unfold handleDisplayModeChange. repeat case_match; try done; apply set_mode_height.
  - unfold native_settled. repeat case_match; try done; by rewrite set_mode_height.
  - unfold handleFullscreenChange. case_match; [by rewrite set_mode_height | done].
  - done.
Qed.

Lemma run_height (tr : list event) (s : view) :
  Forall (λ e, ¬ is_size_change e) tr → inlineHeight (run tr s) = inlineHeight s.
Proof.
  revert s. induction tr as [|e tr IH]; intros s Htr; [done|].
  apply Forall_cons in Htr as [He Htr]. rewrite display_run_cons, IH by done. by apply step_height.
Qed.

(** X15. The height that a size change applied in inline mode is kept
    through whatever follows that is not another size change (requests of
    the guest for a display mode, changes by the user, native fullscreen
    calls that settle, fullscreen exits, renders by the parent): once the
    frame is inline again its height is that height, not a default. *)
Theorem inline_height_restored (s : view) (w : option number) (h : number)
    (style : computed_style) (tr : list event) (inlineMaxWidth : number) :
  displayMode s = Inline →
  Forall (λ e, ¬ is_size_change e) tr →
  displayMode (run tr (onsizechange w (Some h) style s)) = Inline →
  css_height (iframeStyle inlineMaxWidth (run tr (onsizechange w (Some h) style s)))
  = px (applied_height plus h style).
Proof.
  intros Hs Htr Hback. unfold Display.iframeStyle. cbn [css_height].
  rewrite Hback. rewrite !(bool_decide_eq_false_2 (Inline = _)) by done. cbn [orb].
  rewrite run_height by done.
  unfold Display.onsizechange. rewrite bool_decide_eq_false_2 by (intros H; by apply H).
  by destruct w.
Qed.

(** *** Controlled and uncontrolled *)

Lemma set_mode_controlled (m : DisplayMode) (s : view) :
  onDisplayModeChange (set_mode m s) = onDisplayModeChange s
  ∧ if onDisplayModeChange s
    then internalDisplayMode (set_mode m s) = internalDisplayMode s
    else mode_calls (set_mode m s) = mode_calls s.
Proof. unfold set_mode. by destruct (onDisplayModeChange s) eqn:H; cbn; rewrite ?H. Qed.

Lemma set_mode_goes (m : DisplayMode) (s : view) :
  if onDisplayModeChange s
  then internalDisplayMode (set_mode m s) = internalDisplayMode s
       ∧ mode_calls (set_mode m s) = mode_calls s ++ [m]
  else mode_calls (set_mode m s) = mode_calls s
       ∧ internalDisplayMode (set_mode m s) = m.
Proof. unfold set_mode. by destruct (onDisplayModeChange s) eqn:H. Qed.

(** One event: the callback of the parent stays, and the mode that the
    event asks for goes to the callback or to the internal state. *)
Lemma step_controlled (s : view) (e : event) :
  onDisplayModeChange (step s e) = onDisplayModeChange s
  ∧ if onDisplayModeChange s
    then internalDisplayMode (step s e) = internalDisplayMode s
         ∧ mode_calls (step s e) = mode_calls s ++ option_list (mode_change s e)
    else mode_calls (step s e) = mode_calls s
         ∧ internalDisplayMode (step s e)
           = default (internalDisplayMode s) (mode_change s e).
Proof.
  assert (∀ s' : view,
            onDisplayModeChange s' = onDisplayModeChange s →
            internalDisplayMode s' = internalDisplayMode s →
            mode_calls s' = mode_calls s →
            onDisplayModeChange s' = onDisplayModeChange s
            ∧ if onDisplayModeChange s
              then internalDisplayMode s' = internalDisplayMode s
                   ∧ mode_calls s' = mode_calls s ++ option_list None
              else mode_calls s' = mode_calls s
                   ∧ internalDisplayMode s' = default (internalDisplayMode s) None) as Hsame.
  { intros s' H1 H2 H3. split; [done|]. cbn. rewrite app_nil_r.
    by destruct (onDisplayModeChange s). }
  assert (∀ (m : DisplayMode) (s0 : view),
            onDisplayModeChange s0 = onDisplayModeChange s →
            internalDisplayMode s0 = internalDisplayMode s →
            mode_calls s0 = mode_calls s →
            onDisplayModeChange (set_mode m s0) = onDisplayModeChange s
            ∧ if onDisplayModeChange s
              then internalDisplayMode (set_mode m s0) = internalDisplayMode s
                   ∧ mode_calls (set_mode m s0) = mode_calls s ++ option_list (Some m)
              else mode_calls (set_mode m s0) = mode_calls s
                   ∧ internalDisplayMode (set_mode m s0)
                     = default (internalDisplayMode s) (Some m)) as Hset.
  { intros m s0 H1 H2 H3. pose proof (set_mode_controlled m s0) as [Hc _].
    pose proof (set_mode_goes m s0) as Hg. rewrite H1 in Hg. rewrite Hc, H1.
    split; [done|]. cbn. destruct (onDisplayModeChange s); by rewrite <- ?H2, <- ?H3. }
  destruct e as [w h st|m|m|ok|b|m]; cbn [Display.step mode_change].
  - unfold Display.onsizechange.
    destruct (bool_decide (displayMode s ≠ Inline)); [by apply Hsame|].
    destruct w, h; by apply Hsame.
  - by apply Hset.
  - unfold handleDisplayModeChange.
    destruct (bool_decide (m = Fullscreen)), (containerRef s), (fullscreenElement s);
      by (apply Hset || apply Hsame).
  - unfold native_settled. destruct (pending s) as [|m rest]; [by apply Hsame|].
    cbn zeta. cbn [head]. by destruct ok; apply Hset.
  - unfold handleFullscreenChange.
    change (displayMode (set_fullscreenElement b s)) with (displayMode s).
    change (fullscreenElement (set_fullscreenElement b s)) with b.
    destruct (negb b && bool_decide (displayMode s = Fullscreen));
      by (apply Hset || apply Hsame).
  - by apply Hsame.
Qed.

Lemma last_option_list_app (o : option DisplayMode) (l : list DisplayMode)
    (x : DisplayMode) :
  default x (last (option_list o ++ l)) = default (default x o) (last l).
Proof.
  destruct o as [m|]; [|done].
  change (option_list (Some m) ++ l) with (m :: l).
  rewrite last_cons. by destruct (last l).
Qed.

(** X16. When the parent passes [onDisplayModeChange] every change of mode
    goes to it: over any sequence of events the callback is called with
    exactly the modes that the events make the frame take, in their order,
    and the internal display mode is never written. When the parent passes
    no callback, nothing is ever called and the internal display mode is the
    mode taken last. *)
Theorem display_mode_owner (tr : list event) (s : view) :
  if onDisplayModeChange s
  then internalDisplayMode (run tr s) = internalDisplayMode s
       ∧ mode_calls (run tr s) = mode_calls s ++ mode_changes tr s
  else mode_calls (run tr s) = mode_calls s
       ∧ internalDisplayMode (run tr s)
         = default (internalDisplayMode s) (last (mode_changes tr s)).
Proof.
  revert s. induction tr as [|e tr IH]; intros s.
  { cbn. rewrite app_nil_r. by destruct (onDisplayModeChange s). }
  rewrite display_run_cons. cbn [DisplayInvariants.mode_changes].
  specialize (IH (step s e)).
  destruct (step_controlled s e) as [Hc Hs]. rewrite Hc in IH.
  destruct (onDisplayModeChange s).
  - destruct IH as [I1 I2], Hs as [S1 S2]. split; [congruence|].
    by rewrite I2, S2, app_assoc.
  - destruct IH as [I1 I2], Hs as [S1 S2]. split; [congruence|].
    by rewrite I2, S2, last_option_list_app.
Qed.

(** *** The native fullscreen call *)

Lemma fullscreen_changes_keep (mid : list event) (s : view) :
  Forall is_fullscreen_change mid →
  pending (run mid s) = pending s
  ∧ onDisplayModeChange (run mid s) = onDisplayModeChange s.
Proof.
  revert s. induction mid as [|e mid IH]; intros s Hmid; [done|].
  apply Forall_cons in Hmid as [He Hmid]. rewrite display_run_cons.
  destruct (IH (step s e) Hmid) as [-> ->].
  destruct e as [| | | |b|]; try by destruct He.
  cbn [Display.step]. unfold handleFullscreenChange, set_mode.
  by repeat case_match.
Qed.

(** X17. A change of display mode that needs a native fullscreen call is
    applied when the call settles, whether it was fulfilled or rejected, and
    whatever fullscreen changes the document reported in between: the mode
    goes to the parent when there is a callback, to the internal state when
    there is none. *)
Theorem mode_updated_when_native_settles (s : view) (mode : DisplayMode)
    (mid : list event) (fulfilled : bool) :
  pending s = [] →
  needs_native mode s →
  Forall is_fullscreen_change mid →
  if onDisplayModeChange s
  then last (mode_calls (run (UserChange mode :: mid ++ [NativeSettled fulfilled]) s))
       = Some mode
  else internalDisplayMode (run (UserChange mode :: mid ++ [NativeSettled fulfilled]) s)
       = mode.
Proof.
  intros Hp Hn Hmid. rewrite display_run_cons, display_run_app. cbn [Display.step].
  set (s1 := handleDisplayModeChange mode s).
  assert (pending s1 = [mode] ∧ onDisplayModeChange s1 = onDisplayModeChange s) as [Hp1 Hc1].
  { unfold s1, handleDisplayModeChange.
    destruct Hn as [[-> Hc]|[Hm Hf]].
    - rewrite bool_decide_eq_true_2 by done. rewrite Hc. cbn. by rewrite Hp.
    - rewrite bool_decide_eq_false_2 by done. rewrite Hf. cbn. by rewrite Hp. }
  destruct (fullscreen_changes_keep mid s1 Hmid) as [Hp2 Hc2].
  rewrite Hp1 in Hp2. rewrite Hc1 in Hc2. clearbody s1.
  set (s2 := run mid s1) in *. clearbody s2.
  cbn [Display.run foldl Display.step]. unfold native_settled. rewrite Hp2. cbn zeta.
  unfold set_mode. cbn. rewrite Hc2.
  destruct (onDisplayModeChange s), fulfilled; cbn; try done; by rewrite last_snoc.
Qed.

End Numbers.
End DisplayFacts.

(** ** First load and re-run *)

Module LoadingFacts.
Import AgentPrompt Loading LoadingInvariants.

Lemma loading_run_cons (e : event) (tr : list event) (s : loading) :
  run (e :: tr) s = run tr (step s e).
Proof. done. Qed.

(** The spinner effect touches only its timer. *)
Lemma commit_same (old new : loading) :
  hasLoadedOnceRef (commit old new) = hasLoadedOnceRef new
  ∧ showSpinner (commit old new) = showSpinner new
  ∧ reruns (commit old new) = reruns new
  ∧ prevCspModeRef (commit old new) = prevCspModeRef new.
Proof. unfold commit, spinner_effect. by repeat case_match. Qed.

Lemma commit_gated (old new : loading) : gated new → gated (commit old new).
Proof.
  intros [H1 H2]. destruct (commit_same old new) as (E1 & E2 & E3 & _).
  unfold gated. by rewrite E1, E2, E3.
Qed.

Lemma step_gated (s : loading) (e : event) : gated s → gated (step s e).
Proof.
  intros [H1 H2]. destruct e; cbn [step].
  - unfold cspMode_effect. case_bool_decide; [done|]. split; cbn; [|done].
    intros Hl. rewrite Hl. cbn. auto.
  - apply commit_gated. split; cbn; [done|].
    intros Hl. rewrite Hl. cbn. auto.
  - by apply commit_gated.
  - by apply commit_gated.
  - by apply commit_gated.
  - destruct (spinner_timer s); [|done]. by apply commit_gated.
Qed.

(** X18. In any run from the first render, the parent is not asked to
    re-run the tool before the widget has loaded once (the timeout of the
    spinner effect has fired), and once it has, the spinner is never shown
    again, whatever is fetched or reloaded later. *)
Theorem first_load_gate (tr : list event) (mode : CspMode) (onRerun_ : bool) :
  (hasLoadedOnceRef (run tr (first_render mode onRerun_)) = false
   → reruns (run tr (first_render mode onRerun_)) = 0%nat)
  ∧ (hasLoadedOnceRef (run tr (first_render mode onRerun_)) = true
     → showSpinner (run tr (first_render mode onRerun_)) = false).
Proof.
  assert (∀ s, gated s → gated (run tr s)) as H.
  { induction tr as [|e tr IH]; intros s Hs; [done|].
    rewrite loading_run_cons. by apply IH, step_gated. }
  by apply (H (first_render mode onRerun_)).
Qed.

Lemma step_keeps_mode (mode : CspMode) (s : loading) (e : event) :
  prevCspModeRef s = mode → keeps_mode mode e →
  reruns (step s e) = reruns s ∧ prevCspModeRef (step s e) = mode.
Proof.
  intros Hp He. destruct e; cbn [step];
    try (destruct (commit_same s (widget_fetched s)) as (_ & _ & -> & ->));
    try (destruct (commit_same s (set_initCount 0 s)) as (_ & _ & -> & ->));
    try (destruct (commit_same s (set_isReady true s)) as (_ & _ & -> & ->));
    try (destruct (commit_same s (set_initCount (S (initCount s)) s)) as (_ & _ & -> & ->));
    try done.
  - cbn in He. subst mode0. unfold cspMode_effect. by rewrite bool_decide_eq_true_2.
  - destruct (spinner_timer s); [|done].
    by destruct (commit_same s (spinner_timeout s)) as (_ & _ & -> & ->).
Qed.

(** X19. A re-run is requested only by a render whose CSP mode differs
    from the mode of the render before it: as long as the mode stays what
    the effect saw last, nothing that happens (load, timeout, reload, other
    renders) requests one. In particular a change of mode made before the
    first load is never made up for afterwards. *)
Theorem rerun_needs_mode_change (mode : CspMode) (tr : list event) (s : loading) :
  prevCspModeRef s = mode →
  Forall (keeps_mode mode) tr →
  reruns (run tr s) = reruns s ∧ prevCspModeRef (run tr s) = mode.
Proof.
  revert s. induction tr as [|e tr IH]; intros s Hp Htr; [done|].
  apply Forall_cons in Htr as [He Htr]. rewrite loading_run_cons.
  destruct (step_keeps_mode mode s e Hp He) as [Hr Hp'].
  destruct (IH (step s e) Hp' Htr) as [-> ->]. by rewrite Hr.
Qed.

End LoadingFacts.

(** ** The props selection *)

Module PropsSelectionFacts.
Import PropsSelection.

Lemma no_override_default (s : controls) : no_override (getDefaultSelectValue s) = true.
Proof. unfold getDefaultSelectValue. by case_match. Qed.

Lemma select_effect_tool (s : controls) :
  propsContext s = ToolContext →
  select_effect s
  = if no_override (selectValue s) then selectValue s else getDefaultSelectValue s.
Proof.
  intros Hc. unfold select_effect. rewrite Hc.
  rewrite (bool_decide_eq_false_2 (ToolContext ≠ ToolContext)) by (intros H; by apply H).
  rewrite andb_false_r. by destruct (no_override (selectValue s)).
Qed.

(** In the tool context the effects come to rest after at most two
    commits, on a select value without override. *)
Lemma settle_tool (n : nat) (s : controls) :
  propsContext s = ToolContext →
  settle (2 + n) s
  = if no_override (selectValue s) then commit s else commit (commit s).
Proof.
  intros Hc. cbn [Nat.add settle]. cbn [commit selectValue].
  rewrite (select_effect_tool s Hc).
  destruct (no_override (selectValue s)) eqn:Hs.
  - by rewrite bool_decide_eq_true_2.
  - rewrite bool_decide_eq_false_2.
    2: { intros Heq. rewrite <- Heq, no_override_default in Hs. done. }
    set (s1 := commit s).
    assert (propsContext s1 = ToolContext) as Hc1 by done.
    assert (selectValue s1 = getDefaultSelectValue s) as Hs1.
    { unfold s1. cbn. rewrite (select_effect_tool s Hc). by rewrite Hs. }
    rewrite (select_effect_tool s1 Hc1). rewrite Hs1, no_override_default.
    by rewrite bool_decide_eq_true_2.
Qed.

(** X20. In the tool context a preset never stays selected: whatever
    preset is active or was picked, the effects come to rest after at most
    two commits with the select value on its default (or on the no-override
    value it already had), and the last thing the parent is told is that
    there are no custom props. *)
Theorem tool_context_drops_preset (n : nat) (s : controls) :
  propsContext s = ToolContext →
  settle (2 + n) s = settle 2 s
  ∧ selectValue (settle 2 s)
    = (if no_override (selectValue s) then selectValue s else getDefaultSelectValue s)
  ∧ no_override (selectValue (settle 2 s)) = true
  ∧ (onPropsChange s = true → last (onPropsChange_calls (settle 2 s)) = Some None).
Proof.
  intros Hc. change (settle 2 s) with (settle (2 + 0) s).
  rewrite (settle_tool n s Hc), (settle_tool 0 s Hc).
  split; [done|].
  destruct (no_override (selectValue s)) eqn:Hs.
  - cbn [commit selectValue onPropsChange_calls]. rewrite (select_effect_tool s Hc), Hs.
    split_and!; [done..|]. intros Ho. unfold notify_effect. rewrite Ho, Hs. cbn [negb].
    by rewrite last_snoc.
  - set (s1 := commit s).
    assert (propsContext s1 = ToolContext) as Hc1 by done.
    assert (selectValue s1 = getDefaultSelectValue s) as Hs1.
    { unfold s1. cbn. rewrite (select_effect_tool s Hc). by rewrite Hs. }
    cbn [commit selectValue onPropsChange_calls].
    rewrite (select_effect_tool s1 Hc1), Hs1, no_override_default.
    split_and!; [done | apply no_override_default |].
    intros Ho. unfold notify_effect at 1. change (onPropsChange s1) with (onPropsChange s).
    rewrite Ho, Hs1, no_override_default. cbn [negb]. by rewrite last_snoc.
Qed.

End PropsSelectionFacts.

(** ** The host context *)

Module HostContextFacts.
Import Json HostContext HostContextInvariants.

Lemma host_run_cons (e : event) (tr : list event) (s : host) :
  run (e :: tr) s = run tr (step s e).
Proof. done. Qed.

Lemma no_repeat_snoc (calls : list (nat * json)) (bridge : nat) (ctx : json) :
  no_repeat calls →
  (∀ c, last calls = Some (bridge, c) → stringify c ≠ stringify ctx) →
  no_repeat (calls ++ [(bridge, ctx)]).
Proof.
  intros Hn Hl i b c1 c2 H1 H2.
  assert (S i < length (calls ++ [(bridge, ctx)]))%nat as Hlen by by eapply lookup_lt_Some.
  rewrite length_app in Hlen. cbn in Hlen.
  destruct (decide (S i < length calls)%nat) as [Hin|Hout].
  - rewrite lookup_app_l in H1, H2 by lia. by eapply Hn.
  - assert (S i = length calls) as Hi by lia.
    rewrite lookup_app_l in H1 by lia.
    rewrite lookup_app_r, Hi, Nat.sub_diag in H2 by lia. cbn in H2.
    injection H2 as -> ->. apply Hl.
    rewrite last_lookup, <- Hi. exact H1.
Qed.

Lemma host_context_effect_ok (s : host) :
  no_repeat (setHostContext_calls s) → key_tracked s →
  no_repeat (setHostContext_calls (host_context_effect s))
  ∧ key_tracked (host_context_effect s).
Proof.
  intros Hn [Hids Hk]. unfold host_context_effect.
  destruct (bridgeRef s) as [b|] eqn:Hb; [|by split; [|split; [|by rewrite Hb]]].
  destruct (bool_decide (initCount s = 0%nat)); [by split; [|split; [|by rewrite Hb]]|].
  cbn zeta. case_bool_decide as Hkey; [by split; [|split; [|by rewrite Hb]]|].
  destruct Hk as [Hlt Hlast]. split.
  - cbn. apply no_repeat_snoc; [done|]. intros c Hc Heq. apply Hkey.
    apply Hlast. by exists c.
  - split; cbn.
    + apply Forall_app. split; [done|]. by apply Forall_singleton.
    + rewrite ?Hb. split; [done|]. intros k. rewrite last_snoc. split.
      * intros [= <-]. by eexists.
      * by intros (c & [= <-] & <-).
Qed.

Lemma host_context_effect_told (s : host) : told (host_context_effect s).
Proof.
  unfold host_context_effect. intros b.
  destruct (bridgeRef s) as [b'|] eqn:Hb; [|by rewrite Hb].
  case_bool_decide as Hn; [by intros _ ?|].
  cbn zeta. case_bool_decide as Hkey; [done|]. by cbn.
Qed.

Lemma bridge_effect_ok (s : host) :
  no_repeat (setHostContext_calls s) → key_tracked s →
  no_repeat (setHostContext_calls
               (bridge_effect match bridgeRef s with Some _ => bridge_cleanup s | None => s end))
  ∧ key_tracked
      (bridge_effect match bridgeRef s with Some _ => bridge_cleanup s | None => s end).
Proof.
  intros Hn [Hids Hk].
  assert (Forall (λ e, (e.1 < S (bridges_created s))%nat) (setHostContext_calls s)) as Hids'.
  { eapply Forall_impl; [exact Hids|]. cbn. intros. lia. }
  assert (∀ c, last (setHostContext_calls s) ≠ Some (bridges_created s, c)) as Hfresh.
  { intros c Hc. apply last_Some_elem_of in Hc.
    rewrite Forall_forall in Hids. apply Hids in Hc. cbn in Hc. lia. }
  destruct (bridgeRef s); (split; [done|]); split; cbn; try done;
    (split; [lia|]); intros k; rewrite ?Hk; (split; [done|]);
    intros (c & Hc & _); by destruct (Hfresh c).
Qed.

Lemma step_ok (s : host) (e : event) :
  no_repeat (setHostContext_calls s) → key_tracked s →
  no_repeat (setHostContext_calls (step s e)) ∧ key_tracked (step s e).
Proof.
  intros Hn Hk. destruct e as [ctx| |ctx|]; cbn [step].
  - apply host_context_effect_ok; [done|]. by destruct Hk.
  - apply host_context_effect_ok; [done|]. by destruct Hk.
  - destruct (bridge_effect_ok s Hn Hk) as [Hn1 Hk1]. cbn zeta.
    set (s1 := bridge_effect _) in *. clearbody s1.
    assert (no_repeat (setHostContext_calls
                         match ctx with
                         | Some c => host_context_effect (set_hostContext c s1)
                         | None => s1
                         end)
            ∧ key_tracked match ctx with
                          | Some c => host_context_effect (set_hostContext c s1)
                          | None => s1
                          end) as [Hn2 Hk2].
    { destruct ctx as [c|]; [|done]. apply host_context_effect_ok; [done|]. by destruct Hk1. }
    apply host_context_effect_ok; [done|]. by destruct Hk2.
  - destruct Hk as [Hids _]. split; [done|]. by split.
Qed.

Lemma step_told (s : host) (e : event) : told (step s e).
Proof.
  destruct e as [ctx| |ctx|]; cbn [step]; try apply host_context_effect_told.
  by intros b.
Qed.

Lemma told_up_to_date (s : host) : key_tracked s → told s → up_to_date s.
Proof.
  intros [_ Hk] Ht b Hb Hn. specialize (Ht b Hb Hn). rewrite Hb in Hk.
  destruct Hk as [_ Hk]. by apply Hk.
Qed.

Lemma run_ok (tr : list event) (s : host) :
  no_repeat (setHostContext_calls s) → key_tracked s → told s →
  no_repeat (setHostContext_calls (run tr s)) ∧ key_tracked (run tr s) ∧ told (run tr s).
Proof.
  revert s. induction tr as [|e tr IH]; intros s Hn Hk Ht; [done|].
  rewrite host_run_cons. destruct (step_ok s e Hn Hk).
  apply IH; [done..|]. apply step_told.
Qed.

(** X21. On one bridge the host never sends the same host context twice
    in a row: of two calls of [setHostContext] that follow one another on the
    same bridge, the contexts serialize differently. And a bridge whose guest
    has announced itself knows the current host context: the last call was
    made on that bridge, with a context that serializes as the current one.
    So a new bridge is told the context again, even when the context is the
    one the old bridge was told: the cleanup of the old one forgets the
    key. *)
Theorem host_context_not_repeated (tr : list event) (ctx : json) :
  no_repeat (setHostContext_calls (run tr (first_render ctx)))
  ∧ up_to_date (run tr (first_render ctx)).
Proof.
  destruct (run_ok tr (first_render ctx)) as (Hn & Hk & Ht).
  - by intros i b c1 c2 ?.
  - split; [by apply Forall_nil | done].
  - by intros b.
  - split; [done | by apply told_up_to_date].
Qed.

End HostContextFacts.

(** ** The further theorems at work *)

Module MoreScenarios.
Import Json Renderer Examples SuggestedFix MoreExamples.

(** The custom prop wins over the argument of the same name; the other
    argument stays. *)
Lemma mergedArgs_custom_props_win_witness :
  get "city" (mergedArgs no_parse override_props) = Some (JStr "Lyon").
Proof.
  apply (PayloadFacts.mergedArgs_custom_props_win no_parse override_props "city").
  - cbn. apply NoDup_cons. split; [|apply NoDup_singleton].
    intros H. apply list_elem_of_singleton in H. discriminate H.
  - cbn. apply NoDup_singleton.
Defined.

(** The result flagged as an error has the structured content of the one
    sent before: it is not sent. *)
Lemma output_same_structured_content_not_sent_witness :
  output_effect no_parse
    (set_cur error_props
       (output_effect no_parse (announce no_parse example_env (mounted 0 example_props) 1000)))
  = set_cur error_props
      (output_effect no_parse (announce no_parse example_env (mounted 0 example_props) 1000)).
Proof.
  apply (PayloadFacts.output_same_structured_content_not_sent no_parse
           (announce no_parse example_env (mounted 0 example_props) 1000) error_props
           (JObj [("structuredContent", JObj [("temp", JNum 21)])]) error_output
           (JObj [("temp", JNum 21)])).
  - reflexivity.
  - reflexivity.
  - reflexivity.
  - discriminate.
  - reflexivity.
  - vm_compute. discriminate.
  - reflexivity.
  - reflexivity.
Defined.

(** Streaming: the commit sends the partial arguments, the frame the
    complete ones. *)
Lemma partial_input_precedes_full_witness :
  ∃ rest,
    bridge_log (out (run_effects no_parse example_env true unchanged
                       (first_epoch streaming_props)))
    = [] ++ {| entry_time := 1000; entry_by := ByEffect;
               entry_call := SendToolInputPartial
                               (JObj [("arguments", JObj [("city", JStr "Par")])]) |} :: rest
    ∧ Forall (λ e, ¬ PayloadInvariants.is_full_input e) rest
    ∧ bridge_log (out (animation_frame
                         (run_effects no_parse example_env true unchanged
                            (first_epoch streaming_props))))
      = bridge_log (out (run_effects no_parse example_env true unchanged
                           (first_epoch streaming_props)))
        ++ [{| entry_time := 1000; entry_by := ByFrame;
               entry_call := SendToolInput
                               (tool_input_params (mergedArgs no_parse streaming_props)) |}].
Proof.
  apply (PayloadFacts.partial_input_precedes_full no_parse example_env
           (first_epoch streaming_props) [("city", JStr "Par")]).
  - reflexivity.
  - discriminate.
  - reflexivity.
  - discriminate.
  - intros f Hf. cbn in Hf. by apply elem_of_nil in Hf.
Defined.

(** Renders, a spoofed announcement and a frame leave the bridge alone. *)
Lemma nothing_pushed_before_initialized_witness :
  bridge_log (out (run no_parse plain_origin example_env unannounced_schedule
                     (mounted 0 streaming_props))) = []
  ∧ timers (plat (run no_parse plain_origin example_env unannounced_schedule
                    (mounted 0 streaming_props))) = []
  ∧ frames (plat (run no_parse plain_origin example_env unannounced_schedule
                    (mounted 0 streaming_props))) = [].
Proof.
  apply (StartFacts.nothing_pushed_before_initialized no_parse plain_origin example_env
           unannounced_schedule (mounted 0 streaming_props)); reflexivity.
Defined.

(** The same two violations, in another order and one of them twice. *)
Lemma computeSuggestedFix_order_free_witness :
  computeSuggestedFix plain_origin [fetch_violation; image_violation] None
  = computeSuggestedFix plain_origin [image_violation; fetch_violation; image_violation] None.
Proof.
  apply (FixFacts.computeSuggestedFix_order_free plain_origin
           [fetch_violation; image_violation]
           [image_violation; fetch_violation; image_violation] None).
  intros v. rewrite !elem_of_cons, !elem_of_nil. tauto.
Defined.

(** The CSP of the content item is the one stored. *)
Lemma modern_csp_precedence_witness :
  WidgetMeta.mcpAppsCsp
    (WidgetMeta.mergedUiMeta (Some (JObj listing_meta)) (Some (JObj content_meta)))
    (Some legacy_tool_meta)
  = Some (JObj [("connectDomains", strings ["https://content.example.com"])]).
Proof.
  apply (WidgetMetaFacts.modern_csp_precedence (Some listing_meta) (Some content_meta)
           (Some legacy_tool_meta)).
  - cbn. apply NoDup_singleton.
  - cbn. apply NoDup_cons. split; [|apply NoDup_singleton].
    intros H. apply list_elem_of_singleton in H. discriminate H.
  - reflexivity.
  - reflexivity.
Defined.


(** A height of 420 in a border box with borders of 1: 422 pixels, also
    after fullscreen and back. *)
Lemma inline_height_restored_witness :
  Display.css_height
    (Display.iframeStyle pretty 768
       (Display.run Z.add pretty fullscreen_round_trip
          (Display.onsizechange Z.add pretty None (Some 420) bordered inline_view)))
  = "422px".
Proof.
  rewrite (DisplayFacts.inline_height_restored Z.add pretty inline_view None 420 bordered
             fullscreen_round_trip 768).
  - by vm_compute.
  - reflexivity.
  - repeat constructor; intros [].
  - reflexivity.
Defined.

(** The native call is rejected: the mode is fullscreen all the same. *)
Lemma mode_updated_when_native_settles_witness :
  Display.internalDisplayMode
    (Display.run Z.add pretty
       (Display.UserChange Display.Fullscreen
          :: [Display.FullscreenChange true] ++ [Display.NativeSettled false])
       inline_view)
  = Display.Fullscreen.
Proof.
  apply (DisplayFacts.mode_updated_when_native_settles Z.add pretty inline_view
           Display.Fullscreen [Display.FullscreenChange true] false).
  - reflexivity.
  - left. split; reflexivity.
  - repeat constructor.
Defined.

(** The mode is changed while the widget loads; the load that follows
    and a new fetch request no re-run. *)
Lemma rerun_needs_mode_change_witness :
  Loading.reruns
    (Loading.run [Loading.IframeLoaded; Loading.SpinnerTimeout;
                  Loading.Render AgentPrompt.Permissive; Loading.WidgetFetched]
       (Loading.run [Loading.Render AgentPrompt.Permissive]
          (Loading.first_render AgentPrompt.WidgetDeclared true)))
  = 0%nat
  ∧ Loading.prevCspModeRef
      (Loading.run [Loading.IframeLoaded; Loading.SpinnerTimeout;
                    Loading.Render AgentPrompt.Permissive; Loading.WidgetFetched]
         (Loading.run [Loading.Render AgentPrompt.Permissive]
            (Loading.first_render AgentPrompt.WidgetDeclared true)))
    = AgentPrompt.Permissive.
Proof.
  apply (LoadingFacts.rerun_needs_mode_change AgentPrompt.Permissive
           [Loading.IframeLoaded; Loading.SpinnerTimeout;
            Loading.Render AgentPrompt.Permissive; Loading.WidgetFetched]
           (Loading.run [Loading.Render AgentPrompt.Permissive]
              (Loading.first_render AgentPrompt.WidgetDeclared true))).
  - reflexivity.
  - repeat constructor.
Defined.

(** The preset picked in the tool context is dropped again, and the
    parent, told of its props in between, is told last that there are none. *)
Lemma tool_context_drops_preset_witness :
  PropsSelection.settle 5 picked_preset = PropsSelection.settle 2 picked_preset
  ∧ PropsSelection.selectValue (PropsSelection.settle 2 picked_preset)
    = PropsSelection.TOOL_PROPS_VALUE
  ∧ PropsSelection.onPropsChange_calls (PropsSelection.settle 2 picked_preset)
    = [None; Some [("units", "metric")]; None].
Proof.
  destruct (PropsSelectionFacts.tool_context_drops_preset 3 picked_preset)
    as (H1 & H2 & _ & _).
  - reflexivity.
  - split; [exact H1|]. split; [exact H2 | reflexivity].
Defined.

(** The fix for a blocked fetch, declared: the origin is in the policy. *)
Lemma suggested_fix_unblocks_witness :
  ∃ tokens,
    Csp.policy_directive "connect-src"
      (Csp.buildCSPString
         {| Csp.connectDomains :=
              Some (fixConnectDomains (computeSuggestedFix plain_origin [fetch_violation] None));
            Csp.resourceDomains := None; Csp.frameDomains := None;
            Csp.baseUriDomains := None |})
    = Some (JS.join " " tokens)
    ∧ "https://api.example.com" ∈ tokens.
Proof.
  apply (PolicyFacts.suggested_fix_unblocks plain_origin [fetch_violation] None
           {| Csp.connectDomains :=
                Some (fixConnectDomains
                        (computeSuggestedFix plain_origin [fetch_violation] None));
              Csp.resourceDomains := None; Csp.frameDomains := None;
              Csp.baseUriDomains := None |}
           fetch_violation "https://api.example.com").
  - reflexivity.
  - left.
  - reflexivity.
  - reflexivity.
  - reflexivity.
Defined.

(** The announcement that arrives after the unmount is not published as
    received, handed to the bridge or reported. *)
Lemma unmounted_widget_is_deaf_witness :
  rpc_log (out (run no_parse plain_origin example_env
                  (mounted_schedule ++ (1600, EvUnmount) :: unmounted_schedule)
                  (mounted 0 example_props)))
  = rpc_log (out (run no_parse plain_origin example_env mounted_schedule
                    (mounted 0 example_props)))
  ∧ delivered (out (run no_parse plain_origin example_env
                      (mounted_schedule ++ (1600, EvUnmount) :: unmounted_schedule)
                      (mounted 0 example_props)))
    = delivered (out (run no_parse plain_origin example_env mounted_schedule
                        (mounted 0 example_props)))
  ∧ parent_posts (out (run no_parse plain_origin example_env
                         (mounted_schedule ++ (1600, EvUnmount) :: unmounted_schedule)
                         (mounted 0 example_props)))
    = parent_posts (out (run no_parse plain_origin example_env mounted_schedule
                           (mounted 0 example_props))).
Proof.
  apply (InboundFacts.unmounted_widget_is_deaf no_parse plain_origin example_env
           mounted_schedule unmounted_schedule 1600 0 example_props).
Defined.

(** What the bridge sends after the unmount is still published as sent,
    though no longer posted to a sandbox that is gone. *)
Example send_after_unmount :
  rpc_sent (out (run no_parse plain_origin example_env
                   (mounted_schedule ++ (1600, EvUnmount) :: unmounted_schedule)
                   (mounted 0 example_props)))
  = [(2100, ping)]
  ∧ sandbox_posts (out (run no_parse plain_origin example_env
                          (mounted_schedule ++ (1600, EvUnmount) :: unmounted_schedule)
                          (mounted 0 example_props)))
    = [].
Proof. split; reflexivity. Qed.

(** The preset takes the place of the structured content of the result;
    the flag of the result stays. *)
Lemma custom_props_replace_structured_content_witness :
  ∃ sent,
    bridge_log (out (output_effect no_parse (first_epoch preset_props)))
    = [] ++ [{| entry_time := 1000; entry_by := ByEffect; entry_call := SendToolResult sent |}]
    ∧ get "structuredContent" sent = Some (JObj [("units", JStr "metric")])
    ∧ ∀ k, k ≠ "structuredContent"
           → get k sent
             = lookup_prop k [("structuredContent", JObj [("temp", JNum 21)]);
                              ("isError", JBool false)].
Proof.
  apply (PayloadFacts.custom_props_replace_structured_content no_parse
           (first_epoch preset_props)
           [("structuredContent", JObj [("temp", JNum 21)]); ("isError", JBool false)]
           [("units", "metric")]).
  - reflexivity.
  - discriminate.
  - reflexivity.
  - cbn. apply NoDup_cons. split; [|apply NoDup_singleton].
    intros H. apply list_elem_of_singleton in H. discriminate H.
  - reflexivity.
  - discriminate.
  - discriminate.
Defined.

End MoreScenarios.
